(** * Sequence-diagram parser and SVG renderer of [src/app/page.tsx]

    A shallow embedding of [parse], [esc] and [buildSvg], and of what the
    page component computes from their results ([svgDims], [displaySvg],
    the test of [handlePaste]), with the parts of the JavaScript runtime
    they rest on: strings as sequences of UTF-16 code units, a backtracking
    regular-expression matcher, IEEE-754 binary64 numbers with
    [Number::toString], and [Map]s as finite maps. *)

From Stdlib Require Import ZArith NArith Ascii String Decimal DecimalPos.
From Stdlib Require Import PrimFloat FloatOps SpecFloat.
From stdpp Require Import base option list gmap.

Set Warnings "-inexact-float".

(** ** JavaScript strings *)

(** A string is a sequence of UTF-16 code units; [s.length] is the length of
    the list. *)
Abbreviation str := (list N).

Module JsString.

(** An ASCII literal of the source, as code units. *)
Definition lit (s : string) : str :=
  List.map N_of_ascii (list_ascii_of_string s).
Arguments lit _%_string.

(** The double quote, which a literal cannot hold. *)
Definition dq : N := 34%N.

(** A template literal of the source. In the template text a single quote
    stands for the double quote of the source and a dollar sign for a
    substitution, filled from [args] in order. *)
Fixpoint fill (t : str) (args : list str) : str :=
  match t with
  | [] => []
  | c :: t' =>
      if N.eqb c 36 then
        match args with
        | a :: args' => a ++ fill t' args'
        | [] => fill t' []
        end
      else (if N.eqb c 39 then dq else c) :: fill t' args
  end.

Definition tpl (t : string) (args : list str) : str := fill (lit t) args.
Arguments tpl _%_string _.

(** WhiteSpace and LineTerminator code points (what [trim] strips and the
    class [\s] matches). *)
Definition is_line_terminator (c : N) : bool :=
  (N.eqb c 10 || N.eqb c 13 || N.eqb c 8232 || N.eqb c 8233)%bool.

Definition is_space (c : N) : bool :=
  (N.eqb c 9 || N.eqb c 11 || N.eqb c 12 || N.eqb c 32 || N.eqb c 160
   || N.eqb c 5760 || (N.leb 8192 c && N.leb c 8202) || N.eqb c 8239
   || N.eqb c 8287 || N.eqb c 12288 || N.eqb c 65279
   || is_line_terminator c)%bool.

Definition is_digit (c : N) : bool := (N.leb 48 c && N.leb c 57)%bool.

(** The class [\w]. *)
Definition is_word (c : N) : bool :=
  ((N.leb 65 c && N.leb c 90) || (N.leb 97 c && N.leb c 122)
   || is_digit c || N.eqb c 95)%bool.

(** [String.prototype.trim]. *)
Fixpoint trimStart (s : str) : str :=
  match s with
  | c :: s' => if is_space c then trimStart s' else s
  | [] => []
  end.

Definition trimEnd (s : str) : str := rev (trimStart (rev s)).

Definition trim (s : str) : str := trimEnd (trimStart s).

(** [s.split("\n")]: the pieces between line feeds, never an empty list. *)
Fixpoint split_lines (s : str) : list str :=
  match s with
  | [] => [[]]
  | c :: s' =>
      if N.eqb c 10 then [] :: split_lines s'
      else match split_lines s' with
           | l :: ls => (c :: l) :: ls
           | [] => [[c]]
           end
  end.

(** [s.startsWith(p)]. *)
Fixpoint startsWith (p s : str) : bool :=
  match p, s with
  | [], _ => true
  | a :: p', b :: s' => N.eqb a b && startsWith p' s'
  | _ :: _, [] => false
  end.

(** [s.includes(p)]. *)
Fixpoint includes (p s : str) : bool :=
  startsWith p s ||
  match s with
  | [] => false
  | _ :: s' => includes p s'
  end.

(** Upper-casing of one code unit as the case-insensitive flag of a
    non-Unicode regular expression canonicalises it, for comparison with
    an ASCII character: a code unit above 127 is never mapped into
    ASCII, so only the ASCII letters are folded. *)
Definition canonicalize (c : N) : N :=
  if (N.leb 97 c && N.leb c 122)%bool then (c - 32)%N else c.

End JsString.
Import JsString.

(** ** JavaScript numbers *)

Abbreviation number := float.

Module JsNumber.

(** The Number value of a mathematical integer: round to nearest, ties to
    even, overflow to infinity. *)
Definition of_Z (z : Z) : number :=
  SF2Prim (binary_normalize prec emax z 0 false).

Definition of_nat (n : nat) : number := of_Z (Z.of_nat n).

(** [Math.max] of two numbers. *)
Definition max (a b : number) : number :=
  if (is_nan a || is_nan b)%bool then nan
  else if (a <? b)%float then b
  else if (b <? a)%float then a
  else if get_sign a then b else a.

(** [Math.round]: the closest integer, a tie going up. *)
Definition round (x : number) : number :=
  match Prim2SF x with
  | S754_finite s m e =>
      match e with
      | Zneg p =>
          let d := Z.pow 2 (Zpos p) in
          let v := if s then Z.neg m else Zpos m in
          let n := Z.div (2 * v + d) (2 * d) in
          if Z.eqb n 0 then (if s then neg_zero else zero) else of_Z n
      | _ => x
      end
  | _ => x
  end.

(** Decimal digits of a numeral, as code units. *)
Fixpoint uint_chars (d : uint) : str :=
  match d with
  | Nil => []
  | D0 d => 48%N :: uint_chars d
  | D1 d => 49%N :: uint_chars d
  | D2 d => 50%N :: uint_chars d
  | D3 d => 51%N :: uint_chars d
  | D4 d => 52%N :: uint_chars d
  | D5 d => 53%N :: uint_chars d
  | D6 d => 54%N :: uint_chars d
  | D7 d => 55%N :: uint_chars d
  | D8 d => 56%N :: uint_chars d
  | D9 d => 57%N :: uint_chars d
  end.

Definition digits (z : Z) : str :=
  match z with
  | Zpos p => uint_chars (Pos.to_uint p)
  | _ => [48%N]
  end.

(** A power of ten as a fraction: [10^p = fst / snd]. *)
Definition pow10 (p : Z) : Z * Z :=
  if Z.leb 0 p then (Z.pow 10 p, 1%Z) else (1%Z, Z.pow 10 (- p)).

Definition pow2 (p : Z) : Z * Z :=
  if Z.leb 0 p then (Z.pow 2 p, 1%Z) else (1%Z, Z.pow 2 (- p)).

Section Shortest.
(** The positive finite value [m * 2^e]. *)
Variables (m : positive) (e : Z).

(** The value and the ends of its rounding interval, in units of
    [2^(e-2)]: every real strictly inside the interval rounds to the
    value, and the ends do when the mantissa is even. *)
Definition quarter_ulp : Z * Z := pow2 (e - 2).
Definition mid : Z := 4 * Zpos m.
Definition hi : Z := 4 * Zpos m + 2.
Definition lo : Z :=
  if (Pos.eqb m 4503599627370496 && Z.ltb (-1074) e)%bool
  then 4 * Zpos m - 1 else 4 * Zpos m - 2.

(** [x * 2^(e-2)] against [s * 10^p], both brought to one denominator. *)
Definition lhs (x p : Z) : Z := x * fst quarter_ulp * snd (pow10 p).
Definition rhs (s p : Z) : Z := s * fst (pow10 p) * snd quarter_ulp.

Definition inside (s p : Z) : bool :=
  if Z.even (Zpos m)
  then (Z.leb (lhs lo p) (rhs s p) && Z.leb (rhs s p) (lhs hi p))%bool
  else (Z.ltb (lhs lo p) (rhs s p) && Z.ltb (rhs s p) (lhs hi p))%bool.

(** The least [n] with [m * 2^e < 10^n]. *)
Definition below (n : Z) : bool := Z.ltb (lhs mid n) (rhs 1 n).

Fixpoint up (fuel : nat) (n : Z) : Z :=
  match fuel with
  | O => n
  | S f => if below n then n else up f (n + 1)
  end.

Fixpoint down (fuel : nat) (n : Z) : Z :=
  match fuel with
  | O => n
  | S f => if below (n - 1) then down f (n - 1) else n
  end.

Definition magnitude : Z :=
  let est := ((Z.log2 (Zpos m) + e) * 30103 / 100000)%Z in
  down 700 (up 700 est).

(** The [k]-digit decimal nearest the value, when one lies inside the
    rounding interval: the digits [s] and the exponent [n], the decimal
    being [s * 10^(n-k)]. *)
Definition candidate (k : Z) : option (Z * Z) :=
  let n := magnitude in
  let p := (n - k)%Z in
  let s1 := Z.div (lhs mid p) (rhs 1 p) in
  let s2 := (s1 + 1)%Z in
  let d1 := (lhs mid p - rhs s1 p)%Z in
  let d2 := (rhs s2 p - lhs mid p)%Z in
  let pick :=
    match inside s1 p, inside s2 p with
    | true, true =>
        if Z.ltb d1 d2 then Some s1
        else if Z.ltb d2 d1 then Some s2
        else if Z.even s1 then Some s1 else Some s2
    | true, false => Some s1
    | false, true => Some s2
    | false, false => None
    end in
  match pick with
  | Some s =>
      if Z.eqb s (Z.pow 10 k) then Some (Z.pow 10 (k - 1), n + 1)%Z
      else Some (s, n)
  | None => None
  end.

Fixpoint shortest (fuel : nat) (k : Z) : Z * Z * Z :=
  match fuel with
  | O => (k, Z.pow 10 (k - 1), magnitude)
  | S f =>
      match candidate k with
      | Some (s, n) => (k, s, n)
      | None => shortest f (k + 1)
      end
  end.
End Shortest.

(** [Number::toString] of the positive finite value [m * 2^e]. *)
Definition positive_to_string (m : positive) (e : Z) : str :=
  let '(k, s, n) := shortest m e 17 1 in
  let ds := digits s in
  if (Z.leb k n && Z.leb n 21)%bool then
    ds ++ repeat 48%N (Z.to_nat (n - k))
  else if (Z.ltb 0 n && Z.leb n 21)%bool then
    take (Z.to_nat n) ds ++ lit "." ++ drop (Z.to_nat n) ds
  else if (Z.ltb (-6) n && Z.leb n 0)%bool then
    lit "0." ++ repeat 48%N (Z.to_nat (- n)) ++ ds
  else
    let x := (n - 1)%Z in
    let sign := if Z.ltb x 0 then lit "-" else lit "+" in
    if Z.eqb k 1 then ds ++ lit "e" ++ sign ++ digits (Z.abs x)
    else take 1 ds ++ lit "." ++ drop 1 ds ++ lit "e" ++ sign
           ++ digits (Z.abs x).

(** [Number::toString], what a template substitution applies to a
    number. *)
Definition to_string (x : number) : str :=
  match Prim2SF x with
  | S754_nan => lit "NaN"
  | S754_zero _ => lit "0"
  | S754_infinity s => (if s then lit "-" else []) ++ lit "Infinity"
  | S754_finite s m e =>
      (if s then lit "-" else []) ++ positive_to_string m e
  end.

(** [parseInt] of a non-empty run of decimal digits: the Number value of
    the integer the digits denote. *)
Definition digits_value (ds : str) : Z :=
  fold_left (fun acc c => (10 * acc + (Z.of_N c - 48))%Z) ds 0%Z.

Definition parseInt (ds : str) : number := of_Z (digits_value ds).

End JsNumber.

(** ** Regular expressions *)

Module Regex.

(** The fragment of the pattern language the source uses. Quantifiers are
    [Star] (the iteration [r*], greedy or lazy); [r+] is [r] followed by
    [r*] and [r?] is the choice between [r] and nothing. [Bol] and [Eol]
    are the assertions [^] and [$] of a pattern without the multiline
    flag. No pattern of the source has a group under an iteration, so the
    reset of such captures at each round is left out. *)
Inductive re : Type :=
| Eps
| Chr (p : N -> bool)
| Seq (r1 r2 : re)
| Alt (r1 r2 : re)
| Star (greedy : bool) (r : re)
| Grp (n : nat) (r : re)
| Bol
| Eol.

(** The captures of a match: group number to captured text; an absent
    group is [undefined]. *)
Abbreviation caps := (gmap nat str).

Section Matcher.
Context {R : Type}.

(** A matcher takes the index, the input from that index on, the
    captures and a continuation. *)
Definition cont : Type := nat -> str -> caps -> option R.

(** The iteration of [body]. An iteration that consumes nothing is
    rejected, so the fuel, the length of the remaining input plus one,
    never runs out. A greedy iteration tries one more round before it
    continues; a lazy one continues first. *)
Fixpoint star_loop (body : nat -> str -> caps -> cont -> option R)
    (greedy : bool) (k : cont) (fuel : nat) (i : nat) (s : str)
    (c : caps) {struct fuel} : option R :=
  match fuel with
  | O => k i s c
  | S fuel' =>
      let again i' s' c' :=
        if Nat.ltb i i' then star_loop body greedy k fuel' i' s' c'
        else None in
      if greedy then
        match body i s c again with
        | Some x => Some x
        | None => k i s c
        end
      else
        match k i s c with
        | Some x => Some x
        | None => body i s c again
        end
  end.

(** The backtracking matcher, in continuation-passing style as the
    language definition gives it: [run r i s c k] matches [r] at index
    [i], where [s] is the input from [i] on, and hands the end state to
    [k]; a failure of [k] makes the matcher try its next alternative. *)
Fixpoint run (r : re) (i : nat) (s : str) (c : caps) (k : cont)
    {struct r} : option R :=
  match r with
  | Eps => k i s c
  | Chr p =>
      match s with
      | a :: s' => if p a then k (S i) s' c else None
      | [] => None
      end
  | Seq r1 r2 => run r1 i s c (fun i' s' c' => run r2 i' s' c' k)
  | Alt r1 r2 =>
      match run r1 i s c k with
      | Some x => Some x
      | None => run r2 i s c k
      end
  | Star g r1 => star_loop (run r1) g k (S (length s)) i s c
  | Grp n r1 =>
      run r1 i s c (fun i' s' c' => k i' s' (<[n := take (i' - i) s]> c'))
  | Bol => if Nat.eqb i 0 then k i s c else None
  | Eol => match s with [] => k i s c | _ :: _ => None end
  end.
End Matcher.

(** A match of [r] that starts at index [i]: its end index and
    captures. *)
Definition match_at (r : re) (i : nat) (s : str) : option (nat * caps) :=
  run r i s ∅ (fun i' _ c' => Some (i', c')).

(** The first match at or after index [i], [s] being the input from [i]
    on: start index, end index, matched text and captures. *)
Fixpoint search (r : re) (i : nat) (s : str)
    : option (nat * nat * str * caps) :=
  match match_at r i s with
  | Some (e, c) => Some (i, e, take (e - i) s, c)
  | None =>
      match s with
      | [] => None
      | _ :: s' => search r (S i) s'
      end
  end.

(** [s.match(r)] for a pattern without the global flag: the matched text
    and the captures of the first match, or [null]. *)
Definition exec (r : re) (s : str) : option (str * caps) :=
  match search r 0 s with
  | Some (_, _, whole, c) => Some (whole, c)
  | None => None
  end.

(** [r.test(s)]. *)
Definition test (r : re) (s : str) : bool :=
  match search r 0 s with Some _ => true | None => false end.

(** Capture [n] of a match, the empty string standing for [undefined]
    where the source has no use for the difference. *)
Definition group (c : caps) (n : nat) : str := default [] (c !! n).

(** [s.replace(r, ...)] for a pattern with the global flag: every match,
    left to right and without overlap, is replaced by [f] of its text and
    captures. [s] is the input from index [i] on. *)
Fixpoint replace_from (fuel : nat) (r : re) (f : str -> caps -> str)
    (i : nat) (s : str) : str :=
  match fuel with
  | O => s
  | S fuel' =>
      match search r i s with
      | None => s
      | Some (b, e, whole, c) =>
          let pre := take (b - i) s in
          if Nat.ltb b e then
            pre ++ f whole c ++ replace_from fuel' r f e (drop (e - i) s)
          else
            pre ++ f whole c ++
            match drop (b - i) s with
            | [] => []
            | a :: s' => a :: replace_from fuel' r f (S b) s'
            end
      end
  end.

Definition replace_all (r : re) (f : str -> caps -> str) (s : str) : str :=
  replace_from (S (length s)) r f 0 s.

(** Pattern syntax. *)
Definition chr (c : N) : re := Chr (N.eqb c).
Definition chr_i (c : N) : re :=
  Chr (fun a => N.eqb (canonicalize a) (canonicalize c)).
Definition seqs (rs : list re) : re := foldr Seq Eps rs.
Fixpoint alts (r : re) (rs : list re) : re :=
  match rs with
  | [] => r
  | r' :: rs' => Alt r (alts r' rs')
  end.
Definition word (s : string) : re := seqs (List.map chr (lit s)).
Definition word_i (s : string) : re := seqs (List.map chr_i (lit s)).
Arguments word _%_string.
Arguments word_i _%_string.
Definition star (r : re) : re := Star true r.
Definition plus (r : re) : re := Seq r (Star true r).
Definition plus_lazy (r : re) : re := Seq r (Star false r).
Definition opt (r : re) : re := Alt r Eps.
Definition space : re := Chr is_space.
Definition nonspace : re := Chr (fun c => negb (is_space c)).
Definition dot : re := Chr (fun c => negb (is_line_terminator c)).
Definition any : re := Chr (fun _ => true).
Definition wordchar : re := Chr is_word.
Definition digit : re := Chr is_digit.

End Regex.
Import Regex.

(** ** Types *)

Record Participant := { id_ : str; label : str; color : str }.

Inductive Arrow := solid | dashed.

(** [step] is the sequence index. It is a number that [parse] uses as a
    counter of message lines; a text has fewer than 2^53 lines, so the
    counter never leaves the integers a number holds exactly, and it is
    modelled as an integer ([JsNumber.of_Z] where [buildSvg] computes with
    it). [displayStep] is what [parseInt] returned, when the text had a
    numeric prefix: a number, which may be rounded or infinite. *)
Record SeqMsg := {
  from : str; to : str; text : str; arrow : Arrow;
  step : Z; displayStep : option number }.

Record Diagram := {
  participants : list Participant;
  messages : list SeqMsg;
  title : option str }.

Record Opts := {
  coloredLines : bool; coloredNumbers : bool; coloredText : bool;
  font : str; lifelineDash : str }.

Record Layout := {
  stepHeight : number; boxWidth : number; spacing : number;
  textSize : number; margin : number }.

Definition DEFAULT_OPTS : Opts :=
  {| coloredLines := true; coloredNumbers := true; coloredText := true;
     font := lit "Inter"; lifelineDash := lit "circle" |}.

Definition DEFAULT_LAYOUT : Layout :=
  {| stepHeight := 42; boxWidth := 141; spacing := 250; textSize := 13;
     margin := 50 |}.

(** ** Palette *)

Definition PAL : list str :=
  [lit "#ef4444"; lit "#f97316"; lit "#eab308"; lit "#22c55e";
   lit "#14b8a6"; lit "#06b6d4"; lit "#3b82f6"; lit "#8b5cf6";
   lit "#ec4899"; lit "#f43f5e"; lit "#84cc16"; lit "#0891b2"].

(** ** Parser *)

Definition DEFAULT_DIAGRAM_TITLE : str := lit "Sequence Diagram".

(** The patterns of [parse], in source order. *)

(** [/^(%%|sequenceDiagram|autonumber|---|```)/] *)
Definition re_skip : re :=
  seqs [Bol;
        Grp 1 (alts (word "%%")
                 [word "sequenceDiagram"; word "autonumber"; word "---";
                  word "```"])].

(** [/^title:\s*(.+)$/i] *)
Definition re_title : re :=
  seqs [Bol; word_i "title:"; star space; Grp 1 (plus dot); Eol].

(** [/^participant\s+(\S+)(?:\s+as\s+(.+))?$/i] *)
Definition re_participant : re :=
  seqs [Bol; word_i "participant"; plus space; Grp 1 (plus nonspace);
        opt (seqs [plus space; word_i "as"; plus space; Grp 2 (plus dot)]);
        Eol].

(** The arrow tokens, in the order the pattern tries them. *)
Definition re_arrow : re :=
  alts (word "-->>") [word "->>"; word "-->"; word "->"].

(** [/^(\w+)\s*(-->>|->>|-->|->)\s*(\w+):\s*( .* )$/], the last group being
    the starred dot (spaced out here to keep the comment well-formed). *)
Definition re_message : re :=
  seqs [Bol; Grp 1 (plus wordchar); star space; Grp 2 re_arrow; star space;
        Grp 3 (plus wordchar); word ":"; star space; Grp 4 (star dot); Eol].

(** [/<br\s*\/?>/gi] *)
Definition re_br : re :=
  seqs [word_i "<br"; star space; opt (word "/"); word ">"].

(** [/^(\d+)\.\s+( [\s\S]* )$/], the last group without the spaces. *)
Definition re_numPfx : re :=
  seqs [Bol; Grp 1 (plus digit); word "."; plus space; Grp 2 (star any); Eol].

(** [/\[(.+?)\]/g] *)
Definition re_bracket : re := seqs [word "["; Grp 1 (plus_lazy dot); word "]"].

(** The local state of one call of [parse]. *)
Record State := {
  st_participants : list Participant;
  st_map : gmap str Participant;
  st_messages : list SeqMsg;
  st_step : Z;
  st_ci : nat;
  st_title : option str }.

Definition init : State :=
  {| st_participants := []; st_map := ∅; st_messages := []; st_step := 0;
     st_ci := 0; st_title := None |}.

(** [(label ?? id).replace(/\[(.+?)\]/g, "($1)")] *)
Definition display_label (id : str) (lbl : option str) : str :=
  replace_all re_bracket (fun _ c => lit "(" ++ group c 1 ++ lit ")")
    (default id lbl).

Definition addP (id : str) (lbl : option str) (st : State) : State :=
  if decide (is_Some (st_map st !! id)) then st
  else
    let p := {| id_ := id;
                color := nth (st_ci st mod length PAL) PAL [];
                label := display_label id lbl |} in
    {| st_participants := st_participants st ++ [p];
       st_map := <[id := p]> (st_map st);
       st_messages := st_messages st;
       st_step := st_step st;
       st_ci := S (st_ci st);
       st_title := st_title st |}.

(** What the chain of tests in the loop body makes of a trimmed line. *)
Inductive Line :=
| Skip
| Title (t : str)
| ParticipantDecl (id : str) (lbl : option str)
| Message (fId arr tId rawText : str)
| Unrecognized.

Definition classify (l : str) : Line :=
  if (bool_decide (l = []) || test re_skip l)%bool then Skip
  else
    match exec re_title l with
    | Some (_, tm) => Title (trim (group tm 1))
    | None =>
        match exec re_participant l with
        | Some (_, pm) => ParticipantDecl (group pm 1) (pm !! 2)
        | None =>
            match exec re_message l with
            | Some (_, mm) =>
                Message (group mm 1) (group mm 2) (group mm 3) (group mm 4)
            | None => Unrecognized
            end
        end
    end.

(** The message a message line pushes, [n] being the counter after its
    increment. *)
Definition make_message (fId arr tId rawText : str) (n : Z) : SeqMsg :=
  let cleaned := trim (replace_all re_br (fun _ _ => lit " ") rawText) in
  let numPfx := exec re_numPfx cleaned in
  {| from := fId; to := tId;
     text := match numPfx with
             | Some (_, c) => trim (group c 2)
             | None => cleaned
             end;
     arrow := if startsWith (lit "--") arr then dashed else solid;
     step := n;
     displayStep := match numPfx with
                    | Some (_, c) => Some (JsNumber.parseInt (group c 1))
                    | None => None
                    end |}.

(** One turn of the loop over the lines. *)
Definition step_line (st : State) (raw : str) : State :=
  match classify (trim raw) with
  | Skip => st
  | Title t =>
      {| st_participants := st_participants st; st_map := st_map st;
         st_messages := st_messages st; st_step := st_step st;
         st_ci := st_ci st; st_title := Some t |}
  | ParticipantDecl id lbl => addP id lbl st
  | Message fId arr tId rawText =>
      let st' := addP tId None (addP fId None st) in
      let n := (st_step st' + 1)%Z in
      {| st_participants := st_participants st'; st_map := st_map st';
         st_messages := st_messages st' ++ [make_message fId arr tId rawText n];
         st_step := n; st_ci := st_ci st'; st_title := st_title st' |}
  | Unrecognized => st
  end.

Definition run_lines (st : State) (ls : list str) : State :=
  fold_left step_line ls st.

Definition result (st : State) : Diagram :=
  {| participants := st_participants st; messages := st_messages st;
     title := st_title st |}.

Definition parse (code : str) : Diagram :=
  result (run_lines init (split_lines code)).

(** ** SVG renderer *)

(** Four global single-character replacements, one after the other. *)
Definition esc (s : str) : str :=
  replace_all (chr dq) (fun _ _ => lit "&quot;")
    (replace_all (word ">") (fun _ _ => lit "&gt;")
       (replace_all (word "<") (fun _ _ => lit "&lt;")
          (replace_all (word "&") (fun _ _ => lit "&amp;") s))).

(** An entry of the dash table; an absent field is [undefined]. *)
Record Dash := { da : option str; cap : option str; sw : option number }.

Definition dash_circle : Dash :=
  {| da := Some (lit "0 8"); cap := Some (lit "round"); sw := Some 3%float |}.

(** The property names every object inherits. Looking one of them up in the
    table yields an inherited function or object, which is not nullish and
    has none of the three fields. *)
Definition inherited_keys : list str :=
  [lit "constructor"; lit "hasOwnProperty"; lit "isPrototypeOf";
   lit "propertyIsEnumerable"; lit "toLocaleString"; lit "toString";
   lit "valueOf"; lit "__proto__"; lit "__defineGetter__";
   lit "__defineSetter__"; lit "__lookupGetter__"; lit "__lookupSetter__"].

Definition LIFELINE_DASH (key : str) : option Dash :=
  if bool_decide (key = lit "circle") then Some dash_circle
  else if bool_decide (key = lit "dot") then
    Some {| da := Some (lit "2 5"); cap := None; sw := None |}
  else if bool_decide (key = lit "small") then
    Some {| da := Some (lit "7 5"); cap := None; sw := None |}
  else if bool_decide (key = lit "long") then
    Some {| da := Some (lit "14 6"); cap := None; sw := None |}
  else if bool_decide (key ∈ inherited_keys) then
    Some {| da := None; cap := None; sw := None |}
  else None.

Module Svg.
Import JsNumber.
Local Open Scope float_scope.

(** A number in a template substitution. *)
Definition num (x : number) : str := to_string x.

(** A string or [undefined] in a template substitution. *)
Definition str_or_undefined (s : option str) : str :=
  default (lit "undefined") s.

Section buildSvg.
Variables (d : Diagram) (o : Opts) (l : Layout).

Definition ps : list Participant := participants d.
Definition ms : list SeqMsg := messages d.
Definition N_ps : number := of_nat (length ps).
Definition BW : number := boxWidth l.
Definition BH : number := max 28 (round (BW * 0.31)).
Definition BR : number := 6.
Definition HS : number := spacing l.
(** [l.margin ?? 50]: the field is a number by its type, so the default
    is never taken. *)
Definition LP : number := margin l.
Definition MG : number := stepHeight l.
Definition AH : number := 8.
Definition SW : number := 50.
Definition SH : number := 36.
Definition FS : number := textSize l.
Definition diagramTitle : str := default DEFAULT_DIAGRAM_TITLE (title d).
Definition TITLE_H : number := 38.
Definition TP : number := 66.
Definition BOT_PAD : number := TP.
Definition cx (i : nat) : number := LP + BW / 2 + of_nat i * HS.
(** [new Map(ps.map((p, i) => [p.id, i]))]: a later entry replaces an
    earlier one with the same key. *)
Definition idx : gmap str nat :=
  fold_left (fun m e => <[e.1 := e.2]> m)
    (imap (fun i p => (id_ p, i)) ps) ∅.
Definition W : number := 2 * LP + (N_ps - 1) * HS + BW.
Definition VP : number := 44.
Definition H : number :=
  TITLE_H + TP + BH + VP + of_nat (length ms) * MG + VP + BH + BOT_PAD.
Definition lt : number := TITLE_H + TP + BH.
Definition lb : number := H - BOT_PAD - BH.
Definition msgY (s : number) : number :=
  TITLE_H + TP + BH + VP + (s - 1) * MG.
Definition f : str := lit "'" ++ font o ++ lit "', sans-serif".
Definition ld : Dash := default dash_circle (LIFELINE_DASH (lifelineDash o)).
Definition lifelineSW : number := default 1.5 (sw ld).
Definition lifelineCapAttr : str :=
  match cap ld with
  | Some c => tpl " stroke-linecap='$'" [c]
  | None => []
  end.

Definition canvas : list str :=
  [tpl "<rect width='$' height='$' fill='white'/>" [num W; num H];
   tpl "<text x='$' y='$' text-anchor='middle' dominant-baseline='middle' font-family='$' font-size='15' font-weight='700' fill='#1e293b'>$</text>"
     [num (W / 2); num (TITLE_H / 2 + 6); f; esc diagramTitle]].

Definition lifeline (i : nat) (p : Participant) : list str :=
  let c := if coloredLines o then color p ++ lit "60" else lit "#d1d5db" in
  [tpl "<line x1='$' y1='$' x2='$' y2='$' stroke='$' stroke-width='$' stroke-dasharray='$'$/>"
     [num (cx i); num lt; num (cx i); num lb; c; num lifelineSW;
      str_or_undefined (da ld); lifelineCapAttr]].

Definition box (y : number) (i : nat) (p : Participant) : list str :=
  let x := cx i - BW / 2 in
  [tpl "<rect x='$' y='$' width='$' height='$' rx='$' fill='$' stroke='#000000' stroke-width='2'/>"
     [num x; num y; num BW; num BH; num BR; color p];
   tpl "<text x='$' y='$' text-anchor='middle' dominant-baseline='middle' font-family='$' font-size='$' font-weight='700' fill='white'>$</text>"
     [num (cx i); num (y + BH / 2 + 1); f; num FS; esc (label p)]].

(** [idx.get(id) ?? 0] *)
Definition column (id : str) : nat := default 0%nat (idx !! id).

(** [ps[fi].color]; the index is in range whenever there is a
    participant. *)
Definition color_at (fi : nat) : str :=
  match ps !! fi with
  | Some fp => color fp
  | None => []
  end.

(** [msg.displayStep ?? msg.step] *)
Definition numeral (msg : SeqMsg) : number :=
  default (of_Z (step msg)) (displayStep msg).

Definition dashAttr (msg : SeqMsg) : str :=
  match arrow msg with
  | dashed => tpl " stroke-dasharray='12 5'" []
  | solid => []
  end.

Definition pillW (msg : SeqMsg) : number :=
  max 40 (of_nat (length (text msg)) * (FS * 0.62) + 12).

(** The self-message branch. *)
Definition self_message (msg : SeqMsg) (fx y : number) (lc tc fc : str)
    : list str :=
  [tpl "<path d='M$ $ H$ V$ H$' fill='none' stroke='$' stroke-width='1.5'$/>"
     [num fx; num y; num (fx + SW); num (y + SH); num fx; lc; dashAttr msg];
   tpl "<polygon points='$,$ $,$ $,$' fill='$'/>"
     [num fx; num (y + SH); num (fx + AH); num (y + SH - 5);
      num (fx + AH); num (y + SH + 5); lc]]
  ++
  if coloredText o then
    let pillH := FS + 8 in
    let pillX := fx + SW + 5 in
    let pillY := y + SH / 2 - pillH / 2 in
    [tpl "<rect x='$' y='$' width='$' height='$' rx='$' fill='$'/>"
       [num pillX; num pillY; num (pillW msg); num pillH; num (pillH / 2);
        fc];
     tpl "<text x='$' y='$' text-anchor='middle' dominant-baseline='middle' font-family='$' font-size='$' font-weight='600' fill='#000000'>$</text>"
       [num (pillX + pillW msg / 2); num (pillY + pillH / 2 + 1); f;
        num FS; esc (text msg)]]
  else
    [tpl "<text x='$' y='$' dominant-baseline='middle' font-family='$' font-size='$' fill='$'>$</text>"
       [num (fx + SW + 5); num (y + SH / 2 + 1); f; num FS; tc;
        esc (text msg)]].

(** The branch of a message between two columns. *)
Definition cross_message (msg : SeqMsg) (fx tx y : number) (lc tc fc : str)
    : list str :=
  let dir : number := if fx <? tx then 1 else -1 in
  [tpl "<line x1='$' y1='$' x2='$' y2='$' stroke='$' stroke-width='1.5'$/>"
     [num fx; num y; num (tx - dir * AH); num y; lc; dashAttr msg]]
  ++
  [match arrow msg with
   | solid =>
       if dir =? 1 then
         tpl "<polygon points='$,$ $,$ $,$' fill='$'/>"
           [num tx; num y; num (tx - AH); num (y - 5); num (tx - AH);
            num (y + 5); lc]
       else
         tpl "<polygon points='$,$ $,$ $,$' fill='$'/>"
           [num tx; num y; num (tx + AH); num (y - 5); num (tx + AH);
            num (y + 5); lc]
   | dashed =>
       if dir =? 1 then
         tpl "<polyline points='$,$ $,$ $,$' fill='none' stroke='$' stroke-width='1.5'/>"
           [num (tx - AH); num (y - 5); num tx; num y; num (tx - AH);
            num (y + 5); lc]
       else
         tpl "<polyline points='$,$ $,$ $,$' fill='none' stroke='$' stroke-width='1.5'/>"
           [num (tx + AH); num (y - 5); num tx; num y; num (tx + AH);
            num (y + 5); lc]
   end]
  ++
  let mid := (fx + tx) / 2 in
  if coloredText o then
    let pillH := FS + 8 in
    let pillY := y - pillH - 10 in
    [tpl "<rect x='$' y='$' width='$' height='$' rx='$' fill='$'/>"
       [num (mid - pillW msg / 2); num pillY; num (pillW msg); num pillH;
        num (pillH / 2); fc];
     tpl "<text x='$' y='$' text-anchor='middle' dominant-baseline='middle' font-family='$' font-size='$' font-weight='600' fill='#000000'>$</text>"
       [num mid; num (pillY + pillH / 2 + 1); f; num FS; esc (text msg)]]
  else
    [tpl "<text x='$' y='$' text-anchor='middle' font-family='$' font-size='$' fill='$'>$</text>"
       [num mid; num (y - 8); f; num FS; tc; esc (text msg)]].

(** The numbered marker of a message. *)
Definition marker (msg : SeqMsg) (fx y : number) (fc : str) : list str :=
  if coloredNumbers o then
    [tpl "<circle cx='$' cy='$' r='10' fill='$'/>" [num fx; num y; fc];
     tpl "<text x='$' y='$' text-anchor='middle' dominant-baseline='middle' font-family='$' font-size='11' font-weight='700' fill='#000000'>$</text>"
       [num fx; num (y + 1); f; num (numeral msg)];
     tpl "<circle cx='22' cy='$' r='10' fill='$'/>" [num y; fc];
     tpl "<text x='22' y='$' text-anchor='middle' dominant-baseline='middle' font-family='$' font-size='11' font-weight='700' fill='#000000'>$</text>"
       [num (y + 1); f; num (numeral msg)]]
  else
    [tpl "<text x='$' y='$' text-anchor='middle' dominant-baseline='middle' font-family='$' font-size='13' font-weight='700' fill='#000000'>$</text>"
       [num fx; num (y + 1); f; num (numeral msg)]].

(** The body of the loop over the messages. *)
Definition message (msg : SeqMsg) : list str :=
  let fi := column (from msg) in
  let ti := column (to msg) in
  let y := msgY (of_Z (step msg)) in
  let fx := cx fi in
  let tx := cx ti in
  let fc := color_at fi in
  let lc := if coloredLines o then fc else lit "#374151" in
  let tc := if coloredText o then fc else lit "#1e293b" in
  (if bool_decide (fi = ti) then self_message msg fx y lc tc fc
   else cross_message msg fx tx y lc tc fc)
  ++ marker msg fx y fc.

Definition parts : list str :=
  canvas
  ++ concat (imap lifeline ps)
  ++ concat (imap (box (TITLE_H + TP)) ps)
  ++ concat (List.map message ms)
  ++ concat (imap (box (H - BOT_PAD - BH)) ps).

Definition buildSvg : str :=
  if bool_decide (ps = []) then []
  else
    tpl "<svg xmlns='http://www.w3.org/2000/svg' width='$' height='$' viewBox='0 0 $ $'>$</svg>"
      [num W; num H; num W; num H; concat parts].
End buildSvg.
End Svg.

Definition buildSvg : Diagram -> Opts -> Layout -> str := Svg.buildSvg.


(** ** What the lines of a text are, and what they mention *)

Definition lines_of (code : str) : list Line :=
  List.map (fun raw => classify (trim raw)) (split_lines code).

(** The fields of the recognized message lines, in source order. *)
Definition message_fields (ln : Line) : list (str * str * str * str) :=
  match ln with
  | Message fId arr tId rawText => [(fId, arr, tId, rawText)]
  | _ => []
  end.

Definition message_lines (code : str) : list (str * str * str * str) :=
  flat_map message_fields (lines_of code).

(** The participant ids a line mentions: the declared id, or the source and
    the destination of a message. *)
Definition refs (ln : Line) : list str :=
  match ln with
  | ParticipantDecl id _ => [id]
  | Message fId _ tId _ => [fId; tId]
  | _ => []
  end.

Definition mentioned (code : str) : list str := flat_map refs (lines_of code).

(** First-seen order: each id is kept where it first occurs. *)
Definition see (seen : list str) (id : str) : list str :=
  if decide (id ∈ seen) then seen else seen ++ [id].

Definition first_seen (ids : list str) : list str := fold_left see ids [].

Definition ids (st : State) : list str := List.map id_ (st_participants st).

(** The map of [parse] holds exactly the ids of the participant list. *)
Definition consistent (st : State) : Prop :=
  forall id, is_Some (st_map st !! id) <-> id ∈ ids st.

(** The messages of a run of message lines, numbered from [n + 1] on. *)
Fixpoint numbered (n : Z) (fs : list (str * str * str * str)) : list SeqMsg :=
  match fs with
  | [] => []
  | (fId, arr, tId, rawText) :: fs' =>
      make_message fId arr tId rawText (n + 1) :: numbered (n + 1) fs'
  end.

(** What a successful run of the matcher has matched: [matches r i s c i' s'
    c'] reads "from index [i], input [s] and captures [c], the pattern [r]
    can reach index [i'], input [s'] and captures [c']". *)
Inductive matches : re -> nat -> str -> caps -> nat -> str -> caps -> Prop :=
| matches_eps i s c : matches Eps i s c i s c
| matches_chr p a i s c :
    p a = true -> matches (Chr p) i (a :: s) c (S i) s c
| matches_seq r1 r2 i s c i1 s1 c1 i2 s2 c2 :
    matches r1 i s c i1 s1 c1 -> matches r2 i1 s1 c1 i2 s2 c2 ->
    matches (Seq r1 r2) i s c i2 s2 c2
| matches_alt_l r1 r2 i s c i' s' c' :
    matches r1 i s c i' s' c' -> matches (Alt r1 r2) i s c i' s' c'
| matches_alt_r r1 r2 i s c i' s' c' :
    matches r2 i s c i' s' c' -> matches (Alt r1 r2) i s c i' s' c'
| matches_star_stop g r i s c : matches (Star g r) i s c i s c
| matches_star_more g r i s c i1 s1 c1 i2 s2 c2 :
    matches r i s c i1 s1 c1 -> i < i1 ->
    matches (Star g r) i1 s1 c1 i2 s2 c2 ->
    matches (Star g r) i s c i2 s2 c2
| matches_grp n r i s c i' s' c' :
    matches r i s c i' s' c' ->
    matches (Grp n r) i s c i' s' (<[n := take (i' - i) s]> c')
| matches_bol s c : matches Bol 0 s c 0 s c
| matches_eol i c : matches Eol i [] c i [] c.

(** The four arrow tokens. *)
Definition arrow_tokens : list str :=
  [lit "-->>"; lit "->>"; lit "-->"; lit "->"].

(** ** Reading the markup *)

(** The lines [parse] passes over: blank ones and those that begin with a
    comment marker, a fence or one of the two directives. *)
Definition skip_markers : list str :=
  [lit "%%"; lit "sequenceDiagram"; lit "autonumber"; lit "---"; lit "```"].

Definition ignorable (raw : str) : Prop :=
  trim raw = [] \/ exists p, p ∈ skip_markers /\ startsWith p (trim raw) = true.

(** [p] occurs in [s]. *)
Definition occurs_in (p s : str) : Prop := exists a b, s = a ++ p ++ b.

(** How many times [p] occurs in [s]. *)
Fixpoint occurrences (p s : str) : nat :=
  (if startsWith p s then 1 else 0)
  + match s with
    | [] => 0
    | _ :: s' => occurrences p s'
    end.

(** The text that follows the first occurrence of [p] in [s]. *)
Fixpoint after (p s : str) : option str :=
  if startsWith p s then Some (drop (length p) s)
  else match s with
       | [] => None
       | _ :: s' => after p s'
       end.

(** The text before the first [c] in [s]. *)
Fixpoint until (c : N) (s : str) : str :=
  match s with
  | [] => []
  | a :: s' => if N.eqb a c then [] else a :: until c s'
  end.

(** The value of the first attribute [name] of the markup, which is an
    attribute of its root element. *)
Definition attribute (name : string) (markup : str) : option str :=
  until dq <$> after (lit " " ++ lit name ++ lit "=" ++ [dq]) markup.
Arguments attribute _%_string _.

(** The characters [Number::toString] writes. *)
Definition is_numeric_char (c : N) : bool :=
  (is_digit c || bool_decide (c ∈ lit ".e+-NaInfinity"))%bool.

(** The canvas size as the layout rules give it, for [n] participants and
    [m] messages. *)
Definition box_height (l : Layout) : number :=
  JsNumber.max 28 (JsNumber.round (boxWidth l * 0.31)).

Definition canvas_width (n : nat) (l : Layout) : number :=
  (2 * margin l + (JsNumber.of_nat n - 1) * spacing l + boxWidth l)%float.

Definition canvas_height (m : nat) (l : Layout) : number :=
  (38 + 66 + box_height l + 44 + JsNumber.of_nat m * stepHeight l + 44
   + box_height l + 66)%float.

(** An element that is a circle centred at [(x, y)], and one that is a text
    at [(x, y)] whose content is the numeral [n]. *)
Definition circle_at (x y : number) (e : str) : Prop :=
  exists rest,
    e = tpl "<circle cx='$' cy='$'" [Svg.num x; Svg.num y] ++ rest.

Definition numeral_at (x y n : number) (e : str) : Prop :=
  exists attrs,
    e = tpl "<text x='$' y='$'" [Svg.num x; Svg.num y] ++ attrs
        ++ tpl ">$</text>" [Svg.num n].

(** Two elements that are the same, or are text elements that differ in the
    numeral they show only. *)
Definition same_but_numeral (e e' : str) : Prop :=
  e = e' \/
  exists tag n n',
    e = tag ++ tpl ">$</text>" [Svg.num n]
    /\ e' = tag ++ tpl ">$</text>" [Svg.num n'].

(** Two elements that are the same, or are text elements that differ in the
    escaped text they show only. *)
Definition same_but_text (e e' : str) : Prop :=
  e = e' \/
  exists tag u u',
    e = tag ++ tpl ">$</text>" [esc u]
    /\ e' = tag ++ tpl ">$</text>" [esc u'].

(** What [esc] makes of one code unit. *)
Definition esc_char (c : N) : str :=
  if N.eqb c 38 then lit "&amp;"
  else if N.eqb c 60 then lit "&lt;"
  else if N.eqb c 62 then lit "&gt;"
  else if N.eqb c 34 then lit "&quot;"
  else [c].

(** Two messages that differ in the display step at most. *)
Definition same_but_displayStep (m m' : SeqMsg) : Prop :=
  from m = from m' /\ to m = to m' /\ text m = text m'
  /\ arrow m = arrow m' /\ step m = step m'.

(** Two participants, and two messages, that differ in the text they show
    at most, the length of a message text being kept. *)
Definition same_but_label (p p' : Participant) : Prop :=
  id_ p = id_ p' /\ color p = color p'.

Definition same_but_words (m m' : SeqMsg) : Prop :=
  from m = from m' /\ to m = to m' /\ arrow m = arrow m'
  /\ step m = step m' /\ displayStep m = displayStep m'
  /\ length (text m) = length (text m').

(** A pattern that matches one code unit of a class. *)
Definition single (r : re) (p : N -> bool) : Prop :=
  forall i s, match_at r i s
              = match s with
                | a :: _ => if p a then Some (S i, ∅) else None
                | [] => None
                end.

(** The number of substitutions of a template. *)
Fixpoint holes (t : str) : nat :=
  match t with
  | [] => 0
  | c :: t' => (if N.eqb c 36 then 1 else 0) + holes t'
  end.

(** A text element whose content is the escaped [u]. *)
Definition shows_text (u e : str) : Prop :=
  exists tag, e = tag ++ tpl ">$</text>" [esc u].

(** A matcher hands to its continuation a state on the same input. *)
Definition local {R : Type} (body : nat -> str -> caps -> @cont R -> option R) : Prop :=
  forall i s c k1 k2,
    (forall i' s' c', i' + length s' = i + length s -> k1 i' s' c' = k2 i' s' c') ->
    body i s c k1 = body i s c k2.

(** ** The kinds of elements *)

(** [s.endsWith(p)]. *)
Definition endsWith (p s : str) : bool := startsWith (rev p) (rev s).

(** The opening tag and the content of a text element. The content runs
    from the last [>] before the closing tag to that tag; the opening tag
    is given without its [>]. *)
Definition text_parts (e : str) : option (str * str) :=
  let r := rev e in
  if startsWith (rev (lit "</text>")) r then
    let r1 := drop 7 r in
    let c := until 62 r1 in
    match drop (length c) r1 with
    | _ :: t => Some (rev t, rev c)
    | [] => None
    end
  else None.

(** The numeral of a marker is the one text the renderer writes in bold
    black: the title is slate, the label of a box white, the text on a pill
    semi-bold, and a plain message text has no weight. *)
Definition is_step_numeral (e : str) : bool :=
  match text_parts e with
  | Some (tag, _) => endsWith (tpl " font-weight='700' fill='#000000'" []) tag
  | None => false
  end.

Definition is_circle (e : str) : bool := startsWith (lit "<circle ") e.

Definition is_text (e : str) : bool :=
  match text_parts e with
  | Some _ => true
  | None => false
  end.

(** Neither a circle nor a numeral. *)
Definition plain_element (e : str) : Prop :=
  is_circle e = false /\ is_step_numeral e = false.

(** ** The row of a message *)

(** The y-coordinate of the row of the message with sequence index [s]: a
    function of the index and the layout. *)
Definition row_y (l : Layout) (s : Z) : number :=
  (38 + 66 + box_height l + 44 + (JsNumber.of_Z s - 1) * stepHeight l)%float.

(** The height of the pill behind a message text. *)
Definition pill_height (l : Layout) : number := (textSize l + 8)%float.

(** Where the elements of a message lie, given the y-coordinate [Y] of its
    row: the tip of the arrow on the row, or 36 below it when the message
    loops back to its source; the pill of the text above the row, or
    beside the loop; the text in the middle of its pill, or without a pill
    8 above the row, or beside the loop. *)
Definition tip_y (loop : bool) (Y : number) : number :=
  (if loop then Y + 36 else Y)%float.

Definition pill_y (loop : bool) (l : Layout) (Y : number) : number :=
  (if loop then Y + 36 / 2 - pill_height l / 2
   else Y - pill_height l - 10)%float.

Definition label_y (loop pill : bool) (l : Layout) (Y : number) : number :=
  (if pill then pill_y loop l Y + pill_height l / 2 + 1
   else if loop then Y + 36 / 2 + 1 else Y - 8)%float.

(** The shaft of the arrow: a line along the row, or a loop that leaves the
    lifeline on the row and comes back to it 36 below. *)
Definition shaft_at (loop : bool) (Y : number) (e : str) : Prop :=
  exists x1 x2 rest,
    if loop then
      e = tpl "<path d='M$ $ H$ V$ H$'"
            [Svg.num x1; Svg.num Y; Svg.num x2; Svg.num (Y + 36); Svg.num x1]
          ++ rest
    else
      e = tpl "<line x1='$' y1='$' x2='$' y2='$'"
            [Svg.num x1; Svg.num Y; Svg.num x2; Svg.num Y]
          ++ rest.

(** The head of the arrow: the tip and two points 5 above and 5 below
    it. *)
Definition head_at (loop : bool) (Y : number) (e : str) : Prop :=
  let T := tip_y loop Y in
  exists x1 x2 rest,
    e = tpl "<polygon points='$,$ $,$ $,$'"
          [Svg.num x1; Svg.num T; Svg.num x2; Svg.num (T - 5);
           Svg.num x2; Svg.num (T + 5)]
        ++ rest
    \/ e = tpl "<polyline points='$,$ $,$ $,$'"
             [Svg.num x2; Svg.num (T - 5); Svg.num x1; Svg.num T;
              Svg.num x2; Svg.num (T + 5)]
           ++ rest.

Definition pill_at (loop : bool) (l : Layout) (Y : number) (e : str) : Prop :=
  exists x w rest,
    e = tpl "<rect x='$' y='$' width='$' height='$'"
          [Svg.num x; Svg.num (pill_y loop l Y); Svg.num w;
           Svg.num (pill_height l)]
        ++ rest.

Definition label_at (loop pill : bool) (l : Layout) (Y : number) (e : str)
    : Prop :=
  exists x rest,
    e = tpl "<text x='$' y='$'" [Svg.num x; Svg.num (label_y loop pill l Y)]
        ++ rest.

(** An element of the row at [Y]: every y-coordinate it has is fixed by [Y]
    and the layout. *)
Definition at_row (l : Layout) (Y : number) (e : str) : Prop :=
  (exists loop,
     shaft_at loop Y e \/ head_at loop Y e \/ pill_at loop l Y e
     \/ exists pill, label_at loop pill l Y e)
  \/ (exists x, circle_at x Y e)
  \/ (exists x n, numeral_at x (Y + 1) n e).

(** ** Further notions *)

(** The titles the title lines of a text give, in source order. *)
Definition title_of (ln : Line) : list str :=
  match ln with
  | Title t => [t]
  | _ => []
  end.

Definition titles (code : str) : list str := flat_map title_of (lines_of code).

(** A string without white space at either end. *)
Definition trimmed (s : str) : Prop :=
  (forall a, head s = Some a -> is_space a = false)
  /\ (forall a, last s = Some a -> is_space a = false).

(** What [parse] keeps of its state besides the title. *)
Definition untitled (st : State)
    : list Participant * gmap str Participant * list SeqMsg * Z * nat :=
  (st_participants st, st_map st, st_messages st, st_step st, st_ci st).

(** The color index of [parse] counts the participants, and the k-th of
    them has the k-th color of the palette, taken cyclically. *)
Definition palette_cycled (st : State) : Prop :=
  st_ci st = length (st_participants st)
  /\ forall k p, st_participants st !! k = Some p ->
       color p = nth (k mod length PAL) PAL [].

(** A label is the id, or what a declaration of the id among [seen] makes
    of its alias. *)
Definition labelled_by (seen : list Line) (p : Participant) : Prop :=
  label p = id_ p
  \/ exists lbl, ParticipantDecl (id_ p) lbl ∈ seen
                 /\ label p = display_label (id_ p) lbl.

(** The four characters [esc] replaces. *)
Definition is_special (c : N) : bool :=
  (N.eqb c 38 || N.eqb c 60 || N.eqb c 62 || N.eqb c 34)%bool.

(** The options with another lifeline pattern. *)
Definition with_lifelineDash (key : str) (o : Opts) : Opts :=
  {| coloredLines := coloredLines o; coloredNumbers := coloredNumbers o;
     coloredText := coloredText o; font := font o; lifelineDash := key |}.

(** The names of the dash table. *)
Definition dash_names : list str :=
  [lit "circle"; lit "dot"; lit "small"; lit "long"].

(** The number of elements [buildSvg] draws for a message. *)
Definition message_elements (o : Opts) : nat :=
  (if coloredText o then 4 else 3) + (if coloredNumbers o then 4 else 1).

(** ** The page component *)

(** What the component [SequenceTool] computes from the markup, besides
    drawing it: the values it memoizes are functions of what they depend
    on. *)
Module SequenceTool.

(** A literal part of a pattern, in the notation of templates: a single
    quote stands for the double quote of the source. *)
Definition quoted (s : string) : re := seqs (List.map chr (tpl s [])).
Arguments quoted _%_string.

(** [/width="(\d+)" height="(\d+)"/] *)
Definition re_dims : re :=
  seqs [quoted "width='"; Grp 1 (plus digit); quoted "' height='";
        Grp 2 (plus digit); quoted "'"].

(** [/width="\d+" height="\d+"/] *)
Definition re_size : re :=
  seqs [quoted "width='"; plus digit; quoted "' height='"; plus digit;
        quoted "'"].

Record Dims := { w : number; h : number }.

Definition svgDims (svg : str) : option Dims :=
  match exec re_dims svg with
  | Some (_, m) =>
      Some {| w := JsNumber.parseInt (group m 1);
              h := JsNumber.parseInt (group m 2) |}
  | None => None
  end.

(** [s.replace(r, by)] for a pattern without the global flag and a
    replacement text without dollar sign: the first match is replaced. *)
Definition replace_first (r : re) (by_ : str) (s : str) : str :=
  match search r 0 s with
  | Some (b, e, _, _) => take b s ++ by_ ++ drop e s
  | None => s
  end.

Definition displaySvg (svg : str) (zoom : number) : str :=
  if bool_decide (svg = []) then svg
  else
    match svgDims svg with
    | None => svg
    | Some dims =>
        replace_first re_size
          (tpl "width='$' height='$'"
             [Svg.num (JsNumber.round (w dims * zoom));
              Svg.num (JsNumber.round (h dims * zoom))])
          svg
    end.

(** Whether [handlePaste] schedules the confetti for a pasted text. *)
Definition handlePaste (pasted : str) : bool :=
  Nat.leb 2 (length (participants (parse pasted))).

End SequenceTool.

(** A non-empty run of decimal digits. *)
Definition digit_run (s : str) : Prop :=
  s <> [] /\ Forall (fun c => is_digit c = true) s.

(** A text with bracketed pieces: each segment is what precedes a piece and
    the piece itself, [post] is what follows the last piece; [op] and [cl]
    are the opening and the closing bracket. *)
Fixpoint bracketed (op cl : str) (segs : list (str * str)) (post : str) : str :=
  match segs with
  | [] => post
  | (pre, x) :: segs' => pre ++ op ++ x ++ cl ++ bracketed op cl segs' post
  end.

(** A piece that the bracket pattern takes whole: not empty, without
    closing bracket and without line terminator, after a text without
    opening bracket. *)
Definition bracket_segment (seg : str * str) : Prop :=
  Forall (fun c => c <> 91%N) seg.1
  /\ seg.2 <> []
  /\ Forall (fun c => c <> 93%N /\ is_line_terminator c = false) seg.2.

(** A text that reads: digits, a dot, white space, the rest. *)
Definition numeric_prefix (cleaned ds g : str) : Prop :=
  exists ws,
    cleaned = ds ++ lit "." ++ ws ++ g
    /\ digit_run ds /\ ws <> [] /\ Forall (fun c => is_space c = true) ws.

(** A text that is a keyword but for the case of its letters. *)
Definition same_letters (s : str) (kw : string) : Prop :=
  List.map canonicalize s = List.map canonicalize (lit kw).
Arguments same_letters _ _%_string.

(** A text that does not begin with white space. *)
Definition no_space_ahead (s : str) : Prop :=
  forall a, head s = Some a -> is_space a = false.

(** White space that does not end a line of the text [parse] splits. *)
Definition is_padding (c : N) : Prop := is_space c = true /\ c <> 10%N.

(** * Verified properties *)

(** ** The participant registry *)

Section Registry.

Lemma consistent_init : consistent init.
Proof.
  intros id. unfold ids. simpl. rewrite lookup_empty.
  split; [intros [? ?]; discriminate | intros Hin; inversion Hin].
Qed.

Lemma addP_known id lbl st :
  consistent st -> id ∈ ids st -> addP id lbl st = st.
Proof.
  intros Hc Hin. unfold addP. apply Hc in Hin.
  destruct (decide (is_Some (st_map st !! id))); [reflexivity | contradiction].
Qed.

Lemma addP_ids id lbl st :
  consistent st -> ids (addP id lbl st) = see (ids st) id.
Proof.
  intros Hc. unfold addP, see.
  destruct (decide (is_Some (st_map st !! id))) as [Hs | Hs];
    destruct (decide (id ∈ ids st)) as [Hi | Hi]; try reflexivity.
  - apply Hc in Hs. contradiction.
  - apply Hc in Hi. contradiction.
  - unfold ids. simpl. rewrite List.map_app. reflexivity.
Qed.

Lemma addP_consistent id lbl st : consistent st -> consistent (addP id lbl st).
Proof.
  intros Hc. unfold addP.
  destruct (decide (is_Some (st_map st !! id))) as [Hs | Hs]; [exact Hc |].
  intros j. unfold ids. simpl. rewrite List.map_app. simpl.
  rewrite elem_of_app, list_elem_of_singleton.
  destruct (decide (id = j)) as [-> | Hne].
  - rewrite lookup_insert_eq. split; [right; reflexivity | eauto].
  - rewrite lookup_insert_ne by exact Hne. rewrite (Hc j).
    split; [left; assumption | intros [? | ?]; [assumption | congruence]].
Qed.

Lemma addP_messages id lbl st : st_messages (addP id lbl st) = st_messages st.
Proof. unfold addP. destruct (decide _); reflexivity. Qed.

Lemma addP_step id lbl st : st_step (addP id lbl st) = st_step st.
Proof. unfold addP. destruct (decide _); reflexivity. Qed.

Lemma addP_title id lbl st : st_title (addP id lbl st) = st_title st.
Proof. unfold addP. destruct (decide _); reflexivity. Qed.

Lemma step_line_consistent st raw :
  consistent st -> consistent (step_line st raw).
Proof.
  intros Hc. unfold step_line. destruct (classify (trim raw)); try exact Hc.
  - apply addP_consistent, Hc.
  - pose proof (addP_consistent tId None _ (addP_consistent fId None _ Hc)) as H2.
    exact H2.
Qed.

Lemma step_line_ids st raw :
  consistent st ->
  ids (step_line st raw) = fold_left see (refs (classify (trim raw))) (ids st).
Proof.
  intros Hc. unfold step_line. destruct (classify (trim raw)); try reflexivity.
  - simpl. apply addP_ids, Hc.
  - simpl. change (ids (addP tId None (addP fId None st))
                   = see (see (ids st) fId) tId).
    rewrite addP_ids by (apply addP_consistent, Hc).
    rewrite addP_ids by exact Hc. reflexivity.
Qed.

Lemma run_lines_consistent ls : forall st,
  consistent st -> consistent (run_lines st ls).
Proof.
  induction ls as [| raw ls IH]; intros st Hc; [exact Hc |].
  apply IH, step_line_consistent, Hc.
Qed.

Lemma run_lines_ids ls : forall st,
  consistent st ->
  ids (run_lines st ls)
  = fold_left see
      (flat_map refs (List.map (fun raw => classify (trim raw)) ls)) (ids st).
Proof.
  induction ls as [| raw ls IH]; intros st Hc; [reflexivity |].
  simpl. rewrite fold_left_app. rewrite <- step_line_ids by exact Hc.
  apply IH, step_line_consistent, Hc.
Qed.

Lemma see_NoDup seen id : NoDup seen -> NoDup (see seen id).
Proof.
  intros Hn. unfold see. destruct (decide (id ∈ seen)); [exact Hn |].
  apply NoDup_app. split; [exact Hn |]. split.
  - intros x Hx Hx'. apply list_elem_of_singleton in Hx'. congruence.
  - apply NoDup_singleton.
Qed.

Lemma see_elem seen id x : x ∈ see seen id <-> x ∈ seen \/ x = id.
Proof.
  unfold see. destruct (decide (id ∈ seen)) as [Hi | Hi].
  - split; [tauto | intros [? | ->]; assumption].
  - rewrite elem_of_app, list_elem_of_singleton. tauto.
Qed.

Lemma fold_see_NoDup l : forall seen, NoDup seen -> NoDup (fold_left see l seen).
Proof.
  induction l as [| x l IH]; intros seen Hn; [exact Hn |].
  simpl. apply IH, see_NoDup, Hn.
Qed.

Lemma fold_see_elem l : forall seen x,
  x ∈ fold_left see l seen <-> x ∈ seen \/ x ∈ l.
Proof.
  induction l as [| y l IH]; intros seen x; simpl.
  - split; [tauto | intros [? | Hx]; [assumption | inversion Hx]].
  - rewrite IH, see_elem, elem_of_cons. tauto.
Qed.

End Registry.

(** ** Lines *)

Section Lines.

Lemma split_lines_nonempty s : split_lines s <> [].
Proof.
  destruct s as [| c s]; simpl; [discriminate |].
  destruct (N.eqb c 10); [discriminate |].
  destruct (split_lines s); discriminate.
Qed.

Lemma split_lines_app a b :
  split_lines (a ++ 10%N :: b) = split_lines a ++ split_lines b.
Proof.
  induction a as [| c a IH]; simpl; [reflexivity |].
  destruct (N.eqb c 10); [rewrite IH; reflexivity |].
  rewrite IH. pose proof (split_lines_nonempty a) as Hne.
  destruct (split_lines a); [contradiction | reflexivity].
Qed.

Lemma run_lines_app ls1 ls2 st :
  run_lines st (ls1 ++ ls2) = run_lines (run_lines st ls1) ls2.
Proof. unfold run_lines. apply fold_left_app. Qed.

End Lines.

(** ** Sequence indices *)

Section Counter.

Lemma step_line_messages st raw :
  st_messages (step_line st raw)
  = st_messages st
    ++ numbered (st_step st) (message_fields (classify (trim raw)))
  /\ st_step (step_line st raw)
     = (st_step st
        + Z.of_nat (length (message_fields (classify (trim raw)))))%Z.
Proof.
  unfold step_line. destruct (classify (trim raw)); simpl;
    rewrite ?app_nil_r, ?Z.add_0_r; try (split; reflexivity).
  - rewrite addP_messages, addP_step. split; reflexivity.
  - rewrite !addP_messages, !addP_step. split; reflexivity.
Qed.

Lemma numbered_app fs1 : forall n fs2,
  numbered n (fs1 ++ fs2)
  = numbered n fs1 ++ numbered (n + Z.of_nat (length fs1)) fs2.
Proof.
  induction fs1 as [| [[[fId arr] tId] rawText] fs1 IH]; intros n fs2; simpl.
  - rewrite Z.add_0_r. reflexivity.
  - rewrite IH. do 3 f_equal. lia.
Qed.

Lemma run_lines_messages ls : forall st,
  st_messages (run_lines st ls)
  = st_messages st
    ++ numbered (st_step st)
         (flat_map message_fields
            (List.map (fun raw => classify (trim raw)) ls)).
Proof.
  induction ls as [| raw ls IH]; intros st; simpl.
  - rewrite app_nil_r. reflexivity.
  - change (fold_left step_line ls (step_line st raw))
      with (run_lines (step_line st raw) ls).
    rewrite IH. destruct (step_line_messages st raw) as [-> ->].
    rewrite numbered_app, <- app_assoc. reflexivity.
Qed.

Lemma numbered_length fs : forall n, length (numbered n fs) = length fs.
Proof.
  induction fs as [| [[[fId arr] tId] rawText] fs IH]; intros n; simpl;
    [reflexivity | rewrite IH; reflexivity].
Qed.

Lemma numbered_steps fs : forall n,
  List.map step (numbered n fs)
  = List.map (fun k => (n + Z.of_nat k)%Z) (seq 1 (length fs)).
Proof.
  induction fs as [| [[[fId arr] tId] rawText] fs IH]; intros n; simpl;
    [reflexivity |].
  rewrite IH, <- (seq_shift (length fs) 1), List.map_map.
  f_equal. apply List.map_ext. intros k. lia.
Qed.

End Counter.

(** C2. The messages of [parse] are the recognized message lines in source
    order, the k-th carrying sequence index k: the indices are exactly
    1..N, so dense and strictly increasing. What the text of a line holds,
    a display-step prefix included, has no part in them: two texts with as
    many message lines have the same indices. *)
Theorem sequence_indices_dense (code code' : str) :
  let msgs := messages (parse code) in
  msgs = numbered 0 (message_lines code)
  /\ length msgs = length (message_lines code)
  /\ List.map step msgs = List.map Z.of_nat (seq 1 (length msgs))
  /\ (length (message_lines code) = length (message_lines code') ->
      List.map step msgs = List.map step (messages (parse code'))).
Proof.
  cbv zeta.
  assert (Hnum : forall c, messages (parse c) = numbered 0 (message_lines c)).
  { intros c. unfold parse, result. simpl. rewrite run_lines_messages.
    reflexivity. }
  assert (Hsteps : forall c,
    List.map step (messages (parse c))
    = List.map Z.of_nat (seq 1 (length (message_lines c)))).
  { intros c. rewrite Hnum, numbered_steps. apply List.map_ext. intros k. lia. }
  split; [apply Hnum |].
  split; [rewrite Hnum; apply numbered_length |].
  split; [rewrite Hsteps, Hnum, numbered_length; reflexivity |].
  intros Hlen. rewrite !Hsteps, Hlen. reflexivity.
Qed.

(** C3. The participant ids of [parse] are the ids the declarations and the
    message endpoints mention, each once, in the order first seen. *)
Theorem participants_first_seen (code : str) :
  let ps := List.map id_ (participants (parse code)) in
  ps = first_seen (mentioned code)
  /\ NoDup ps
  /\ forall id, id ∈ ps <-> id ∈ mentioned code.
Proof.
  cbv zeta. unfold parse, result. simpl.
  change (List.map id_ (st_participants (run_lines init (split_lines code))))
    with (ids (run_lines init (split_lines code))).
  rewrite run_lines_ids by apply consistent_init.
  fold (lines_of code). fold (mentioned code).
  change (ids init) with (@nil str). fold (first_seen (mentioned code)).
  split; [reflexivity |]. split.
  - apply fold_see_NoDup, NoDup_nil_2.
  - intros id. unfold first_seen. rewrite fold_see_elem.
    split; [intros [H | H]; [inversion H | exact H] | tauto].
Qed.

(** C10. A declaration of an id that is already registered changes nothing:
    with the line inserted after a text in which the id was seen, before
    the rest of the text or at its end, [parse] returns the same diagram,
    labels included. *)
Theorem redeclaration_is_noop (a b ln id : str) (lbl : option str) :
  split_lines ln = [ln] ->
  classify (trim ln) = ParticipantDecl id lbl ->
  id ∈ List.map id_ (participants (parse a)) ->
  parse (a ++ [10%N] ++ ln ++ [10%N] ++ b) = parse (a ++ [10%N] ++ b)
  /\ parse (a ++ [10%N] ++ ln) = parse a.
Proof.
  intros Hline Hdecl Hseen.
  assert (Hnoop : step_line (run_lines init (split_lines a)) ln
                  = run_lines init (split_lines a)).
  { unfold step_line. rewrite Hdecl.
    apply addP_known; [apply run_lines_consistent, consistent_init | exact Hseen]. }
  split; unfold parse; f_equal; simpl.
  - rewrite !split_lines_app, Hline, !run_lines_app.
    f_equal. simpl. exact Hnoop.
  - rewrite split_lines_app, Hline, run_lines_app. simpl. exact Hnoop.
Qed.

Lemma redeclaration_is_noop_witness :
  let a := lit "A->>B: hi" in
  let ln := lit "participant A as Alice" in
  let b := lit "B-->>A: yo" in
  split_lines ln = [ln]
  /\ classify (trim ln) = ParticipantDecl (lit "A") (Some (lit "Alice"))
  /\ lit "A" ∈ List.map id_ (participants (parse a))
  /\ parse (a ++ [10%N] ++ ln ++ [10%N] ++ b) = parse (a ++ [10%N] ++ b)
  /\ List.map label (participants (parse (a ++ [10%N] ++ ln ++ [10%N] ++ b)))
     = [lit "A"; lit "B"].
Proof.
  cbv zeta.
  assert (H1 : split_lines (lit "participant A as Alice")
               = [lit "participant A as Alice"]) by (vm_compute; reflexivity).
  assert (H2 : classify (trim (lit "participant A as Alice"))
               = ParticipantDecl (lit "A") (Some (lit "Alice")))
    by (vm_compute; reflexivity).
  assert (H3 : lit "A" ∈ List.map id_ (participants (parse (lit "A->>B: hi"))))
    by (vm_compute; apply list_elem_of_here).
  pose proof (proj1 (redeclaration_is_noop _ (lit "B-->>A: yo") _ _ _ H1 H2 H3))
    as Heq.
  split; [exact H1 |]. split; [exact H2 |]. split; [exact H3 |].
  split; [exact Heq |]. rewrite Heq. vm_compute. reflexivity.
Defined.

(** ** The matcher is sound for [matches] *)

Section Soundness.
Context {R : Type}.

Lemma star_loop_sound (body : nat -> str -> caps -> @cont R -> option R)
    (g : bool) (r : re) (k : @cont R) :
  (forall i s c k' x, body i s c k' = Some x ->
     exists i' s' c', matches r i s c i' s' c' /\ k' i' s' c' = Some x) ->
  forall fuel i s c x, star_loop body g k fuel i s c = Some x ->
    exists i' s' c', matches (Star g r) i s c i' s' c' /\ k i' s' c' = Some x.
Proof.
  intros Hbody. induction fuel as [| fuel IH]; intros i s c x Hrun; simpl in Hrun.
  - exists i, s, c. split; [constructor | exact Hrun].
  - assert (Hmore : forall y,
      body i s c (fun i' s' c' =>
        if Nat.ltb i i' then star_loop body g k fuel i' s' c' else None) = Some y ->
      exists i' s' c', matches (Star g r) i s c i' s' c' /\ k i' s' c' = Some y).
    { intros y Hy. apply Hbody in Hy as (i1 & s1 & c1 & Hm & Hk).
      destruct (Nat.ltb i i1) eqn:Hlt; [| discriminate].
      apply Nat.ltb_lt in Hlt.
      apply IH in Hk as (i2 & s2 & c2 & Hm2 & Hk2).
      exists i2, s2, c2. split; [| exact Hk2].
      eapply matches_star_more; eauto. }
    destruct g.
    + destruct (body i s c _) as [y |] eqn:Hb.
      * inversion Hrun; subst y. apply Hmore. reflexivity.
      * exists i, s, c. split; [constructor | exact Hrun].
    + destruct (k i s c) as [y |] eqn:Hk.
      * inversion Hrun; subst y. exists i, s, c. split; [constructor | exact Hk].
      * apply Hmore, Hrun.
Qed.

Lemma run_sound (r : re) : forall i s c (k : @cont R) x,
  run r i s c k = Some x ->
  exists i' s' c', matches r i s c i' s' c' /\ k i' s' c' = Some x.
Proof.
  induction r as [| p | r1 IH1 r2 IH2 | r1 IH1 r2 IH2 | g r IH | n r IH | |];
    intros i s c k x Hrun;
    [simpl in Hrun .. | | simpl in Hrun | simpl in Hrun | simpl in Hrun].
  - exists i, s, c. split; [constructor | exact Hrun].
  - destruct s as [| a s]; [discriminate |].
    destruct (p a) eqn:Hp; [| discriminate].
    exists (S i), s, c. split; [constructor; exact Hp | exact Hrun].
  - apply IH1 in Hrun as (i1 & s1 & c1 & Hm1 & Hrun).
    apply IH2 in Hrun as (i2 & s2 & c2 & Hm2 & Hk).
    exists i2, s2, c2. split; [econstructor; eauto | exact Hk].
  - destruct (run r1 i s c k) as [y |] eqn:H1.
    + inversion Hrun; subst y.
      apply IH1 in H1 as (i' & s' & c' & Hm & Hk).
      exists i', s', c'. split; [apply matches_alt_l, Hm | exact Hk].
    + apply IH2 in Hrun as (i' & s' & c' & Hm & Hk).
      exists i', s', c'. split; [apply matches_alt_r, Hm | exact Hk].
  - change (star_loop (run r) g k (S (length s)) i s c = Some x) in Hrun.
    eapply star_loop_sound; [| exact Hrun]. intros; eauto.
  - apply IH in Hrun as (i' & s' & c' & Hm & Hk).
    exists i', s', (<[n := take (i' - i) s]> c').
    split; [constructor; exact Hm | exact Hk].
  - destruct i; [| discriminate].
    exists 0, s, c. split; [constructor | exact Hrun].
  - destruct s; [| discriminate].
    exists i, [], c. split; [constructor | exact Hrun].
Qed.

End Soundness.

Section MatchShapes.

Lemma match_at_sound r i s e c :
  match_at r i s = Some (e, c) -> exists s', matches r i s ∅ e s' c.
Proof.
  unfold match_at. intros H.
  apply run_sound in H as (i' & s' & c' & Hm & Hk).
  inversion Hk; subst. exists s'. exact Hm.
Qed.

Lemma search_sound r s : forall i b e w c,
  search r i s = Some (b, e, w, c) ->
  i <= b /\ w = take (e - b) (drop (b - i) s)
  /\ exists s', matches r b (drop (b - i) s) ∅ e s' c.
Proof.
  induction s as [| a s IH]; intros i b e w c H; simpl in H.
  - destruct (match_at r i []) as [[e' c'] |] eqn:Hm; [| discriminate].
    inversion H; subst. rewrite Nat.sub_diag. simpl.
    split; [lia |]. split; [reflexivity |]. eapply match_at_sound, Hm.
  - destruct (match_at r i (a :: s)) as [[e' c'] |] eqn:Hm.
    + inversion H; subst. rewrite Nat.sub_diag. simpl.
      split; [lia |]. split; [reflexivity |]. eapply match_at_sound, Hm.
    + apply IH in H as (Hle & Hw & Hm').
      replace (b - i) with (S (b - S i)) by lia. simpl.
      split; [lia |]. split; assumption.
Qed.

(** What a pattern matches is a prefix of the input, and the index moves
    by its length. *)
Lemma matches_consumes r i s c i' s' c' :
  matches r i s c i' s' c' -> exists w, s = w ++ s' /\ i' = i + length w.
Proof.
  induction 1.
  - exists []. split; [reflexivity | simpl; lia].
  - exists [a]. split; [reflexivity | simpl; lia].
  - destruct IHmatches1 as (w1 & -> & ->). destruct IHmatches2 as (w2 & -> & ->).
    exists (w1 ++ w2). rewrite <- app_assoc, length_app. split; [reflexivity | lia].
  - assumption.
  - assumption.
  - exists []. split; [reflexivity | simpl; lia].
  - destruct IHmatches1 as (w1 & -> & ->). destruct IHmatches2 as (w2 & -> & ->).
    exists (w1 ++ w2). rewrite <- app_assoc, length_app. split; [reflexivity | lia].
  - assumption.
  - exists []. split; [reflexivity | reflexivity].
  - exists []. split; [reflexivity | simpl; lia].
Qed.

Lemma matches_seq_inv r1 r2 i s c i2 s2 c2 :
  matches (Seq r1 r2) i s c i2 s2 c2 ->
  exists i1 s1 c1, matches r1 i s c i1 s1 c1 /\ matches r2 i1 s1 c1 i2 s2 c2.
Proof. inversion 1; subst; eauto. Qed.

Lemma matches_alt_inv r1 r2 i s c i' s' c' :
  matches (Alt r1 r2) i s c i' s' c' ->
  matches r1 i s c i' s' c' \/ matches r2 i s c i' s' c'.
Proof. inversion 1; subst; eauto. Qed.

Lemma matches_grp_inv n r i s c i' s' c'' :
  matches (Grp n r) i s c i' s' c'' ->
  exists w c', matches r i s c i' s' c' /\ s = w ++ s' /\ i' = i + length w
               /\ c'' = <[n := w]> c'.
Proof.
  inversion 1 as [| | | | | | | ? ? ? ? ? ? ? ? Hm | |]; subst.
  destruct (matches_consumes _ _ _ _ _ _ _ Hm) as (w & -> & ->).
  exists w, c'. split; [assumption |]. split; [reflexivity |].
  split; [reflexivity |].
  replace (i + length w - i) with (length w) by lia.
  rewrite take_app_length. reflexivity.
Qed.

Lemma matches_eps_inv i s c i' s' c' :
  matches Eps i s c i' s' c' -> i' = i /\ s' = s /\ c' = c.
Proof. inversion 1; subst; auto. Qed.

Lemma matches_bol_inv i s c i' s' c' :
  matches Bol i s c i' s' c' -> i = 0 /\ i' = 0 /\ s' = s /\ c' = c.
Proof. inversion 1; subst; auto. Qed.

Lemma matches_eol_inv i s c i' s' c' :
  matches Eol i s c i' s' c' -> s = [] /\ i' = i /\ s' = [] /\ c' = c.
Proof. inversion 1; subst; auto. Qed.

Lemma matches_chr_inv p i s c i' s' c' :
  matches (Chr p) i s c i' s' c' ->
  exists a, p a = true /\ s = a :: s' /\ i' = S i /\ c' = c.
Proof. inversion 1; subst; eauto. Qed.

(** A literal matches itself. *)
Lemma matches_chars cs : forall i s c i' s' c',
  matches (seqs (List.map chr cs)) i s c i' s' c' ->
  s = cs ++ s' /\ c' = c.
Proof.
  induction cs as [| a cs IH]; intros i s c i' s' c' H; simpl in H.
  - apply matches_eps_inv in H as (_ & -> & ->). auto.
  - apply matches_seq_inv in H as (i1 & s1 & c1 & H1 & H2).
    apply matches_chr_inv in H1 as (b & Hb & -> & -> & ->).
    apply N.eqb_eq in Hb. subst b.
    apply IH in H2 as (-> & ->). auto.
Qed.

Lemma matches_word w i s c i' s' c' :
  matches (word w) i s c i' s' c' -> s = lit w ++ s' /\ c' = c.
Proof. apply matches_chars. Qed.

(** An iterated character class matches a run of its characters and
    leaves the captures alone. *)
Lemma matches_star_chr g p i s c i' s' c' :
  matches (Star g (Chr p)) i s c i' s' c' ->
  exists w, s = w ++ s' /\ Forall (fun a => p a = true) w /\ c' = c.
Proof.
  intros H. remember (Star g (Chr p)) as r eqn:Hr.
  induction H; try discriminate.
  - exists []. auto.
  - inversion Hr; subst. clear IHmatches1.
    apply matches_chr_inv in H as (a & Hp & -> & -> & ->).
    destruct (IHmatches2 eq_refl) as (w & -> & Hw & ->).
    exists (a :: w). split; [reflexivity |]. split; [constructor; assumption | reflexivity].
Qed.

Lemma matches_plus_chr p i s c i' s' c' :
  matches (plus (Chr p)) i s c i' s' c' ->
  exists w, s = w ++ s' /\ w <> [] /\ Forall (fun a => p a = true) w /\ c' = c.
Proof.
  intros H. apply matches_seq_inv in H as (i1 & s1 & c1 & H1 & H2).
  apply matches_chr_inv in H1 as (a & Hp & -> & -> & ->).
  apply matches_star_chr in H2 as (w & -> & Hw & ->).
  exists (a :: w). split; [reflexivity |]. split; [discriminate |].
  split; [constructor; assumption | reflexivity].
Qed.

End MatchShapes.

(** ** The fuel of the matcher suffices *)

Section Fuel.
Context {R : Type}.


Lemma star_loop_local body g fuel :
  local body -> local (fun i s c (k : @cont R) => star_loop body g k fuel i s c).
Proof.
  intros Hb. induction fuel as [| fuel IH]; intros i s c k1 k2 Hk; simpl.
  - apply Hk. reflexivity.
  - rewrite (Hk i s c eq_refl).
    rewrite (Hb i s c _ (fun i' s' c' =>
      if Nat.ltb i i' then star_loop body g k2 fuel i' s' c' else None)).
    + reflexivity.
    + intros i' s' c' Hi. destruct (Nat.ltb i i'); [| reflexivity].
      apply IH. intros i'' s'' c'' Hi'. apply Hk. lia.
Qed.

Lemma run_local (r : re) : @local R (run r).
Proof.
  induction r as [| p | r1 IH1 r2 IH2 | r1 IH1 r2 IH2 | g r IH | n r IH | |];
    intros i s c k1 k2 Hk.
  - apply Hk. reflexivity.
  - simpl. destruct s as [| a s]; [reflexivity |].
    destruct (p a); [| reflexivity]. apply Hk. simpl. lia.
  - simpl. apply IH1. intros i' s' c' Hi. apply IH2.
    intros i'' s'' c'' Hi'. apply Hk. lia.
  - simpl. rewrite (IH1 i s c k1 k2 Hk), (IH2 i s c k1 k2 Hk). reflexivity.
  - apply (star_loop_local (run r) g (S (length s)) IH i s c k1 k2 Hk).
  - simpl. apply IH. intros i' s' c' Hi. apply Hk. exact Hi.
  - simpl. destruct (Nat.eqb i 0); [apply Hk |]; reflexivity.
  - simpl. destruct s; [apply Hk |]; reflexivity.
Qed.

(** More fuel than the input is long changes nothing. *)
Lemma star_loop_fuel body g (k : @cont R) :
  local body ->
  forall f1 f2 i s c, length s < f1 -> length s < f2 ->
    star_loop body g k f1 i s c = star_loop body g k f2 i s c.
Proof.
  intros Hb. induction f1 as [| f1 IH]; intros f2 i s c H1 H2; [lia |].
  destruct f2 as [| f2]; [lia |]. simpl.
  rewrite (Hb i s c _ (fun i' s' c' =>
    if Nat.ltb i i' then star_loop body g k f2 i' s' c' else None)).
  - reflexivity.
  - intros i' s' c' Hi. destruct (Nat.ltb i i') eqn:Hlt; [| reflexivity].
    apply Nat.ltb_lt in Hlt. apply IH; lia.
Qed.

End Fuel.

Section ReplaceFuel.

Lemma match_at_bounds r i s e c :
  match_at r i s = Some (e, c) -> i <= e /\ e <= i + length s.
Proof.
  intros H. apply match_at_sound in H as (s' & Hm).
  apply matches_consumes in Hm as (v & -> & ->).
  rewrite length_app. lia.
Qed.

Lemma search_bounds r s : forall i b e w c,
  search r i s = Some (b, e, w, c) -> i <= b /\ b <= e /\ e <= i + length s.
Proof.
  induction s as [| a s IH]; intros i b e w c H; simpl in H.
  - destruct (match_at r i []) as [[e' c'] |] eqn:Hm; [| discriminate].
    inversion H; subst. apply match_at_bounds in Hm. simpl in *. lia.
  - destruct (match_at r i (a :: s)) as [[e' c'] |] eqn:Hm.
    + inversion H; subst. apply match_at_bounds in Hm. simpl in *. lia.
    + apply IH in H. simpl. lia.
Qed.

(** The iteration of [replace] ends before its fuel does. *)
Lemma replace_from_fuel r f : forall f1 f2 i s,
  length s < f1 -> length s < f2 ->
  replace_from f1 r f i s = replace_from f2 r f i s.
Proof.
  induction f1 as [| f1 IH]; intros f2 i s H1 H2; [lia |].
  destruct f2 as [| f2]; [lia |]. simpl.
  destruct (search r i s) as [[[[b e] w] c] |] eqn:Hs; [| reflexivity].
  apply search_bounds in Hs as (Hib & Hbe & Hes).
  destruct (Nat.ltb b e) eqn:Hlt.
  - apply Nat.ltb_lt in Hlt. do 2 f_equal.
    apply IH; rewrite length_drop; lia.
  - do 2 f_equal. destruct (drop (b - i) s) as [| a s'] eqn:Hd; [reflexivity |].
    f_equal. assert (Hlen : length (drop (b - i) s) = S (length s'))
      by (rewrite Hd; reflexivity).
    rewrite length_drop in Hlen. apply IH; lia.
Qed.

End ReplaceFuel.

(** ** The shape of a message line *)

Section MessageLines.

Lemma message_shape l whole mm :
  exec re_message l = Some (whole, mm) ->
  exists f ws1 arr ws2 t ws3 txt,
    l = f ++ ws1 ++ arr ++ ws2 ++ t ++ lit ":" ++ ws3 ++ txt
    /\ f <> [] /\ Forall (fun a => is_word a = true) f
    /\ Forall (fun a => is_space a = true) ws1
    /\ arr ∈ arrow_tokens
    /\ Forall (fun a => is_space a = true) ws2
    /\ t <> [] /\ Forall (fun a => is_word a = true) t
    /\ Forall (fun a => is_space a = true) ws3
    /\ Forall (fun a => is_line_terminator a = false) txt
    /\ mm !! 1 = Some f /\ mm !! 2 = Some arr /\ mm !! 3 = Some t
    /\ mm !! 4 = Some txt.
Proof.
  unfold exec. intros H.
  destruct (search re_message 0 l) as [[[[b e] w] c] |] eqn:Hs; [| discriminate].
  inversion H; subst w c. clear H.
  apply search_sound in Hs as (_ & _ & s' & Hm).
  rewrite Nat.sub_0_r in Hm.
  cbv [re_message seqs foldr] in Hm.
  apply matches_seq_inv in Hm as (i0 & s0 & c0 & H0 & Hm).
  apply matches_bol_inv in H0 as (Hb & Hi0 & Hs0 & Hc0). subst b i0 s0 c0.
  rewrite drop_0 in Hm.
  apply matches_seq_inv in Hm as (i1 & s1 & c1 & H1 & Hm).
  apply matches_grp_inv in H1 as (f & c1' & H1 & Hl & Hi1 & Hc1).
  apply matches_plus_chr in H1 as (f' & Hf & Hfne & Hfw & Hc1').
  rewrite Hl in Hf. apply app_inv_tail in Hf. subst f' c1' c1 i1 l.
  apply matches_seq_inv in Hm as (i2 & s2 & c2 & H2 & Hm).
  apply matches_star_chr in H2 as (ws1 & Hws1 & Hws1s & Hc2). subst s1 c2.
  apply matches_seq_inv in Hm as (i3 & s3 & c3 & H3 & Hm).
  apply matches_grp_inv in H3 as (arr & c3' & H3 & Hl & Hi3 & Hc3).
  assert (Harr : arr ∈ arrow_tokens /\ c3' = <[1:=f]> ∅).
  { unfold re_arrow in H3. simpl alts in H3.
    repeat (apply matches_alt_inv in H3 as [H3 | H3]);
      apply matches_word in H3 as (Hw & Hc); rewrite Hl in Hw;
      apply app_inv_tail in Hw; subst arr; (split; [| exact Hc]);
      unfold arrow_tokens; set_solver. }
  destruct Harr as [Harr Hc3']. subst s2 c3' c3. clear H3.
  apply matches_seq_inv in Hm as (i4 & s4 & c4 & H4 & Hm).
  apply matches_star_chr in H4 as (ws2 & Hws2 & Hws2s & Hc4). subst s3 c4.
  apply matches_seq_inv in Hm as (i5 & s5 & c5 & H5 & Hm).
  apply matches_grp_inv in H5 as (t & c5' & H5 & Hl & Hi5 & Hc5).
  apply matches_plus_chr in H5 as (t' & Ht & Htne & Htw & Hc5').
  rewrite Hl in Ht. apply app_inv_tail in Ht. subst t' c5' c5 s4.
  apply matches_seq_inv in Hm as (i6 & s6 & c6 & H6 & Hm).
  apply matches_word in H6 as (Hw & Hc6). subst s5 c6.
  apply matches_seq_inv in Hm as (i7 & s7 & c7 & H7 & Hm).
  apply matches_star_chr in H7 as (ws3 & Hws3 & Hws3s & Hc7). subst s6 c7.
  apply matches_seq_inv in Hm as (i8 & s8 & c8 & H8 & Hm).
  apply matches_grp_inv in H8 as (txt & c8' & H8 & Hl & Hi8 & Hc8).
  apply matches_star_chr in H8 as (txt' & Htx & Htxs & Hc8').
  rewrite Hl in Htx. apply app_inv_tail in Htx. subst txt' c8' c8 s7.
  apply matches_seq_inv in Hm as (i9 & s9 & c9 & H9 & Hm).
  apply matches_eol_inv in H9 as (Hs8 & _ & Hs9 & Hc9). subst s8 s9 c9.
  apply matches_eps_inv in Hm as (_ & _ & Hmm). subst mm.
  exists f, ws1, arr, ws2, t, ws3, txt. rewrite app_nil_r.
  split; [reflexivity |]. 
  repeat (split; [assumption |]).
  split.
  { eapply Forall_impl; [exact Htxs |]. intros a Ha.
    apply negb_true_iff in Ha. exact Ha. }
  repeat split; by simplify_map_eq.
Qed.

Lemma classify_message l fId arr tId rawText :
  classify l = Message fId arr tId rawText ->
  exists whole mm,
    exec re_message l = Some (whole, mm)
    /\ fId = group mm 1 /\ arr = group mm 2 /\ tId = group mm 3
    /\ rawText = group mm 4.
Proof.
  unfold classify. intros H.
  destruct (bool_decide (l = []) || test re_skip l)%bool; [discriminate |].
  destruct (exec re_title l) as [[? ?] |]; [discriminate |].
  destruct (exec re_participant l) as [[? ?] |]; [discriminate |].
  destruct (exec re_message l) as [[whole mm] |]; [| discriminate].
  inversion H; subst. exists whole, mm. auto.
Qed.

(** A line that [parse] takes for a message reads: a word, an arrow
    token, a word, a colon and a text without line terminator, with
    optional white space around the token and after the colon. *)
Lemma message_line_shape l fId arr tId rawText :
  classify l = Message fId arr tId rawText ->
  arr ∈ arrow_tokens
  /\ exists ws1 ws2 ws3,
       l = fId ++ ws1 ++ arr ++ ws2 ++ tId ++ lit ":" ++ ws3 ++ rawText
       /\ Forall (fun a => is_space a = true) (ws1 ++ ws2 ++ ws3)
       /\ Forall (fun a => is_word a = true) (fId ++ tId)
       /\ Forall (fun a => is_line_terminator a = false) rawText.
Proof.
  intros H. apply classify_message in H as (whole & mm & He & -> & -> & -> & ->).
  apply message_shape in He
    as (f & ws1 & a & ws2 & t & ws3 & txt & Hl & _ & Hf & H1 & Ha & H2 & _
        & Ht & H3 & Htxt & E1 & E2 & E3 & E4).
  unfold group. rewrite E1, E2, E3, E4. simpl.
  split; [exact Ha |]. exists ws1, ws2, ws3.
  split; [exact Hl |]. rewrite !Forall_app. auto.
Qed.

End MessageLines.

(** C7. On a recognized message line the arrow token is one of the four,
    and the message pushed is dashed for [-->] and [-->>] and solid for [->]
    and [->>]; two lines that differ in the token only, within one of these
    pairs, leave [parse] in the same state. The line [A-->>B: 3. Done] alone
    yields one dashed message with text [Done], sequence index 1 and display
    step 3. *)
Theorem arrow_style_from_dash_prefix (raw raw' fId arr arr' tId rawText : str) :
  classify (trim raw) = Message fId arr tId rawText ->
  classify (trim raw') = Message fId arr' tId rawText ->
  (arr ∈ arrow_tokens
   /\ forall st,
        last (st_messages (step_line st raw))
        = Some (make_message fId arr tId rawText (st_step st + 1))
        /\ (arr = lit "-->" \/ arr = lit "-->>" ->
            arrow (make_message fId arr tId rawText (st_step st + 1)) = dashed)
        /\ (arr = lit "->" \/ arr = lit "->>" ->
            arrow (make_message fId arr tId rawText (st_step st + 1)) = solid)
        /\ (startsWith (lit "--") arr = startsWith (lit "--") arr' ->
            step_line st raw = step_line st raw'))
  /\ parse (lit "A-->>B: 3. Done")
     = {| participants :=
            [ {| id_ := lit "A"; label := lit "A"; color := lit "#ef4444" |};
              {| id_ := lit "B"; label := lit "B"; color := lit "#f97316" |} ];
          messages :=
            [ {| from := lit "A"; to := lit "B"; text := lit "Done";
                 arrow := dashed; step := 1; displayStep := Some 3%float |} ];
          title := None |}.
Proof.
  intros Hc Hc'. split; [| vm_compute; reflexivity].
  split; [apply (message_line_shape _ _ _ _ _ Hc) |].
  intros st. split.
  { unfold step_line. rewrite Hc. cbn [st_messages].
    rewrite !addP_step. apply last_snoc. }
  split; [intros [-> | ->]; reflexivity |].
  split; [intros [-> | ->]; reflexivity |].
  intros Hd. unfold step_line. rewrite Hc, Hc'.
  unfold make_message. rewrite Hd. reflexivity.
Qed.

Lemma arrow_style_from_dash_prefix_witness :
  let raw := lit "A-->>B: 3. Done" in
  let raw' := lit "A --> B: 3. Done" in
  classify (trim raw) = Message (lit "A") (lit "-->>") (lit "B") (lit "3. Done")
  /\ classify (trim raw') = Message (lit "A") (lit "-->") (lit "B") (lit "3. Done")
  /\ lit "-->>" ∈ arrow_tokens
  /\ step_line init raw = step_line init raw'.
Proof.
  cbv zeta.
  assert (H1 : classify (trim (lit "A-->>B: 3. Done"))
               = Message (lit "A") (lit "-->>") (lit "B") (lit "3. Done"))
    by (vm_compute; reflexivity).
  assert (H2 : classify (trim (lit "A --> B: 3. Done"))
               = Message (lit "A") (lit "-->") (lit "B") (lit "3. Done"))
    by (vm_compute; reflexivity).
  destruct (arrow_style_from_dash_prefix _ _ _ _ _ _ _ H1 H2) as [[Hin Hst] _].
  split; [exact H1 |]. split; [exact H2 |]. split; [exact Hin |].
  destruct (Hst init) as (_ & _ & _ & Heq). apply Heq. reflexivity.
Defined.

(** ** Templates and numerals *)

(** Evaluates the literals and the templates of a goal, leaving what fills
    them untouched. *)
Ltac eval_lit :=
  repeat match goal with
    | |- context [lit ?s] =>
        let v := eval vm_compute in (lit s) in change (lit s) with v
    end.

Ltac eval_tpl :=
  unfold tpl; eval_lit; cbn [fill N.eqb Pos.eqb]; unfold dq;
  repeat (progress (cbn [app]; rewrite <- ?app_assoc)).

Section Numerals.

Lemma uint_chars_numeric d :
  Forall (fun c => is_numeric_char c = true) (JsNumber.uint_chars d).
Proof. induction d; simpl; constructor; try assumption; reflexivity. Qed.

Lemma digits_numeric z :
  Forall (fun c => is_numeric_char c = true) (JsNumber.digits z).
Proof.
  destruct z; simpl; try (constructor; [reflexivity | constructor]).
  apply uint_chars_numeric.
Qed.

Lemma repeat_zero_numeric n :
  Forall (fun c => is_numeric_char c = true) (repeat 48%N n).
Proof. induction n; simpl; constructor; [reflexivity | assumption]. Qed.

Lemma lit_numeric (s : str) :
  forallb is_numeric_char s = true ->
  Forall (fun c => is_numeric_char c = true) s.
Proof. intros H. apply Forall_forall. intros c Hc. 
  rewrite forallb_forall in H. apply H. apply list_elem_of_In. exact Hc. Qed.

Lemma positive_to_string_numeric m e :
  Forall (fun c => is_numeric_char c = true) (JsNumber.positive_to_string m e).
Proof.
  unfold JsNumber.positive_to_string.
  destruct (JsNumber.shortest m e 17 1) as [[k s] n].
  pose proof (digits_numeric s) as Hd.
  repeat match goal with
    | |- context [if ?b then _ else _] => destruct b
    end;
    rewrite ?Forall_app; repeat split;
    first [ assumption | apply repeat_zero_numeric | apply digits_numeric
          | apply Forall_take, Hd | apply Forall_drop, Hd
          | apply lit_numeric; reflexivity ].
Qed.

Lemma to_string_numeric x :
  Forall (fun c => is_numeric_char c = true) (JsNumber.to_string x).
Proof.
  unfold JsNumber.to_string. destruct (Prim2SF x) as [s | s | | s m e].
  - apply lit_numeric. reflexivity.
  - destruct s; apply lit_numeric; reflexivity.
  - apply lit_numeric. reflexivity.
  - rewrite Forall_app. split; [destruct s; apply lit_numeric; reflexivity |].
    apply positive_to_string_numeric.
Qed.

End Numerals.

(** ** The root element *)

Section Root.

Lemma startsWith_prefix p : forall s,
  startsWith p s = true -> exists rest, s = p ++ rest.
Proof.
  induction p as [| a p IH]; intros s H; simpl in H.
  - exists s. reflexivity.
  - destruct s as [| b s]; [discriminate |].
    apply andb_true_iff in H as [Hab Hp]. apply N.eqb_eq in Hab. subst b.
    destruct (IH _ Hp) as [rest ->]. exists rest. reflexivity.
Qed.

Lemma after_skip c p pre s :
  Forall (fun a => a <> c) pre -> after (c :: p) (pre ++ s) = after (c :: p) s.
Proof.
  induction 1 as [| a pre Ha _ IH]; [reflexivity |].
  simpl. destruct (N.eqb c a) eqn:E; [apply N.eqb_eq in E; congruence |].
  simpl. exact IH.
Qed.

Lemma until_stop c v rest :
  Forall (fun a => a <> c) v -> until c (v ++ c :: rest) = v.
Proof.
  induction 1 as [| a v Ha _ IH]; simpl.
  - rewrite N.eqb_refl. reflexivity.
  - destruct (N.eqb a c) eqn:E; [apply N.eqb_eq in E; congruence |].
    rewrite IH. reflexivity.
Qed.

Lemma numeric_not (c : N) v :
  is_numeric_char c = false ->
  Forall (fun a => is_numeric_char a = true) v -> Forall (fun a => a <> c) v.
Proof.
  intros Hc Hv. eapply Forall_impl; [exact Hv |]. intros a Ha ->. congruence.
Qed.

(** The root element's attributes, whatever the numerals and the body. *)
Lemma root_attributes (w h body : str) :
  Forall (fun a => is_numeric_char a = true) w ->
  Forall (fun a => is_numeric_char a = true) h ->
  let markup :=
    tpl "<svg xmlns='http://www.w3.org/2000/svg' width='$' height='$' viewBox='0 0 $ $'>$</svg>"
      [w; h; w; h; body] in
  attribute "width" markup = Some w /\ attribute "height" markup = Some h.
Proof.
  intros Hw Hh. cbv zeta. unfold attribute. eval_tpl. split.
  all: unfold dq.
  - cbn [after startsWith N.eqb Pos.eqb andb length drop fmap option_fmap option_map].
    f_equal. apply until_stop. apply numeric_not; [reflexivity | exact Hw].
  - cbn [after startsWith N.eqb Pos.eqb andb length drop].
    rewrite (after_skip 32%N) by (apply numeric_not; [reflexivity | exact Hw]).
    cbn [after startsWith N.eqb Pos.eqb andb length drop fmap option_fmap option_map].
    f_equal. apply until_stop. apply numeric_not; [reflexivity | exact Hh].
Qed.
End Root.

Section EmptyDiagram.

Lemma ignorable_skip raw : ignorable raw -> classify (trim raw) = Skip.
Proof.
  intros [-> | (p & Hp & Hs)]; [reflexivity |].
  apply startsWith_prefix in Hs as [rest ->].
  unfold skip_markers in Hp.
  repeat (apply elem_of_cons in Hp as [-> | Hp]);
    [vm_compute; reflexivity .. | inversion Hp].
Qed.

Lemma run_lines_ignorable ls : forall st,
  Forall ignorable ls -> run_lines st ls = st.
Proof.
  induction ls as [| raw ls IH]; intros st H; [reflexivity |].
  inversion H; subst.
  change (run_lines (step_line st raw) ls = st).
  rewrite IH by assumption. unfold step_line.
  rewrite ignorable_skip by assumption. reflexivity.
Qed.

End EmptyDiagram.

(** C4. The renderer returns the empty string exactly when the diagram has
    no participant, whatever the options and the layout; a text of blank
    lines, comments, fences and skipped directives parses to such a
    diagram. *)
Theorem empty_markup_iff_no_participant
    (d : Diagram) (o : Opts) (l : Layout) (code : str) :
  (buildSvg d o l = [] <-> participants d = [])
  /\ (Forall ignorable (split_lines code) ->
      participants (parse code) = [] /\ buildSvg (parse code) o l = []).
Proof.
  assert (Hempty : forall d', participants d' = [] -> buildSvg d' o l = []).
  { intros d' H. unfold buildSvg, Svg.buildSvg, Svg.ps. rewrite H. reflexivity. }
  split; [split; [| apply Hempty] |].
  - unfold buildSvg, Svg.buildSvg, Svg.ps.
    destruct (participants d) as [| p ps]; [reflexivity |].
    rewrite bool_decide_eq_false_2 by discriminate. eval_tpl. discriminate.
  - intros H.
    assert (Hp : participants (parse code) = []).
    { unfold parse. rewrite run_lines_ignorable by exact H. reflexivity. }
    split; [exact Hp | apply Hempty, Hp].
Qed.

(** C5. The width and the height attributes of the markup of a diagram with
    participants are the canvas width and the canvas height of the layout
    rules. *)
Theorem canvas_size_attributes (d : Diagram) (o : Opts) (l : Layout) :
  participants d <> [] ->
  attribute "width" (buildSvg d o l)
  = Some (JsNumber.to_string (canvas_width (length (participants d)) l))
  /\ attribute "height" (buildSvg d o l)
     = Some (JsNumber.to_string (canvas_height (length (messages d)) l)).
Proof.
  intros Hne. unfold buildSvg, Svg.buildSvg, Svg.ps.
  rewrite bool_decide_eq_false_2 by exact Hne.
  exact (root_attributes _ _ _ (to_string_numeric (Svg.W d l))
           (to_string_numeric (Svg.H d l))).
Qed.

Lemma canvas_size_attributes_witness :
  let d := parse (lit "A->>B: Hello") in
  participants d <> []
  /\ attribute "width" (buildSvg d DEFAULT_OPTS DEFAULT_LAYOUT) = Some (lit "491")
  /\ attribute "height" (buildSvg d DEFAULT_OPTS DEFAULT_LAYOUT) = Some (lit "388").
Proof.
  cbv zeta.
  assert (Hne : participants (parse (lit "A->>B: Hello")) <> [])
    by (vm_compute; discriminate).
  split; [exact Hne |].
  destruct (canvas_size_attributes _ DEFAULT_OPTS DEFAULT_LAYOUT Hne) as [Hw Hh].
  split; [rewrite Hw | rewrite Hh]; vm_compute; reflexivity.
Defined.

(** ** Where the elements of a message end up *)

Section Markup.
Variables (d : Diagram) (o : Opts) (l : Layout).

Lemma occurs_in_concat (e : str) (es : list str) :
  e ∈ es -> occurs_in e (concat es).
Proof.
  intros H. apply list_elem_of_split in H as (l1 & l2 & ->).
  exists (concat l1), (concat l2).
  rewrite concat_app. simpl. reflexivity.
Qed.

Lemma occurs_in_context (e s a b : str) :
  occurs_in e s -> occurs_in e (a ++ s ++ b).
Proof.
  intros (x & y & ->). exists (a ++ x), (y ++ b).
  rewrite <- !app_assoc. reflexivity.
Qed.

Lemma elem_of_concat (e : str) (ess : list (list str)) :
  e ∈ concat ess <-> exists es, es ∈ ess /\ e ∈ es.
Proof.
  rewrite list_elem_of_In, in_concat. split; intros (es & H1 & H2);
    exists es; rewrite ?list_elem_of_In in *; auto.
Qed.

Lemma root_body (w h body : str) :
  tpl "<svg xmlns='http://www.w3.org/2000/svg' width='$' height='$' viewBox='0 0 $ $'>$</svg>"
    [w; h; w; h; body]
  = tpl "<svg xmlns='http://www.w3.org/2000/svg' width='$' height='$' viewBox='0 0 $ $'>"
      [w; h; w; h]
    ++ body ++ lit "</svg>".
Proof. eval_tpl. reflexivity. Qed.

Lemma part_occurs e :
  participants d <> [] -> e ∈ Svg.parts d o l -> occurs_in e (buildSvg d o l).
Proof.
  intros Hne He. unfold buildSvg, Svg.buildSvg, Svg.ps.
  rewrite bool_decide_eq_false_2 by exact Hne.
  rewrite root_body. apply occurs_in_context, occurs_in_concat, He.
Qed.

Lemma message_part msg e :
  msg ∈ messages d -> e ∈ Svg.message d o l msg -> e ∈ Svg.parts d o l.
Proof.
  intros Hm He. unfold Svg.parts. rewrite !elem_of_app.
  right. right. right. left.
  apply elem_of_concat. exists (Svg.message d o l msg).
  split; [| exact He]. apply list_elem_of_In, in_map, list_elem_of_In, Hm.
Qed.

Lemma marker_part msg e :
  e ∈ Svg.marker o msg (Svg.cx l (Svg.column d (from msg)))
        (Svg.msgY l (JsNumber.of_Z (step msg)))
        (Svg.color_at d (Svg.column d (from msg))) ->
  e ∈ Svg.message d o l msg.
Proof. intros He. unfold Svg.message. rewrite elem_of_app. right. exact He. Qed.

End Markup.

Section Markers.

Lemma num_22 : Svg.num 22 = lit "22".
Proof. vm_compute. reflexivity. Qed.

Lemma circle_at_lifeline x y fc :
  circle_at x y
    (tpl "<circle cx='$' cy='$' r='10' fill='$'/>" [Svg.num x; Svg.num y; fc]).
Proof.
  exists (tpl " r='10' fill='$'/>" [fc]). eval_tpl. reflexivity.
Qed.

Lemma circle_at_margin y fc :
  circle_at 22 y (tpl "<circle cx='22' cy='$' r='10' fill='$'/>" [Svg.num y; fc]).
Proof.
  exists (tpl " r='10' fill='$'/>" [fc]). rewrite num_22. eval_tpl. reflexivity.
Qed.

Lemma numeral_at_lifeline_badge x y n f :
  numeral_at x y n
    (tpl "<text x='$' y='$' text-anchor='middle' dominant-baseline='middle' font-family='$' font-size='11' font-weight='700' fill='#000000'>$</text>"
       [Svg.num x; Svg.num y; f; Svg.num n]).
Proof.
  exists (tpl " text-anchor='middle' dominant-baseline='middle' font-family='$' font-size='11' font-weight='700' fill='#000000'" [f]).
  eval_tpl. reflexivity.
Qed.

Lemma numeral_at_lifeline_plain x y n f :
  numeral_at x y n
    (tpl "<text x='$' y='$' text-anchor='middle' dominant-baseline='middle' font-family='$' font-size='13' font-weight='700' fill='#000000'>$</text>"
       [Svg.num x; Svg.num y; f; Svg.num n]).
Proof.
  exists (tpl " text-anchor='middle' dominant-baseline='middle' font-family='$' font-size='13' font-weight='700' fill='#000000'" [f]).
  eval_tpl. reflexivity.
Qed.

Lemma numeral_at_margin y n f :
  numeral_at 22 y n
    (tpl "<text x='22' y='$' text-anchor='middle' dominant-baseline='middle' font-family='$' font-size='11' font-weight='700' fill='#000000'>$</text>"
       [Svg.num y; f; Svg.num n]).
Proof.
  exists (tpl " text-anchor='middle' dominant-baseline='middle' font-family='$' font-size='11' font-weight='700' fill='#000000'" [f]).
  rewrite num_22. eval_tpl. reflexivity.
Qed.

(** A text element at x-position 22 begins with this. *)
Lemma numeral_at_margin_prefix y n e :
  numeral_at 22 y n e -> exists rest, e = tpl "<text x='22'" [] ++ rest.
Proof.
  intros [attrs ->]. rewrite num_22.
  exists (tpl " y='$'" [Svg.num y] ++ attrs ++ tpl ">$</text>" [Svg.num n]).
  eval_tpl. reflexivity.
Qed.

Lemma startsWith_app p rest : startsWith p (p ++ rest) = true.
Proof. induction p as [| a p IH]; simpl; [reflexivity |]. rewrite N.eqb_refl. exact IH. Qed.

Lemma occurs_in_includes p rest s :
  occurs_in (p ++ rest) s -> includes p s = true.
Proof.
  intros (a & b & ->). induction a as [| c a IH].
  - cbn [app]. rewrite <- app_assoc.
    assert (H : startsWith p (p ++ rest ++ b) = true) by apply startsWith_app.
    destruct (p ++ rest ++ b); simpl; rewrite H; reflexivity.
  - cbn [app includes]. rewrite IH. apply orb_true_r.
Qed.

End Markers.

(** ** The source of a message has a column *)

Section Columns.
Variable d : Diagram.

Lemma fold_insert_lookup (es : list (str * nat)) : forall (m : gmap str nat) k v,
  fold_left (fun m e => <[e.1 := e.2]> m) es m !! k = Some v ->
  m !! k = Some v \/ (k, v) ∈ es.
Proof.
  induction es as [| [k' v'] es IH]; intros m k v H; simpl in H; [auto |].
  apply IH in H as [H | H]; [| right; apply list_elem_of_further, H].
  destruct (decide (k' = k)) as [-> | Hne].
  - rewrite lookup_insert_eq in H. inversion H; subst.
    right. apply list_elem_of_here.
  - rewrite lookup_insert_ne in H by exact Hne. auto.
Qed.

Lemma idx_in_range id i :
  Svg.idx d !! id = Some i -> i < length (participants d).
Proof.
  unfold Svg.idx, Svg.ps. intros H.
  apply fold_insert_lookup in H as [H | H];
    [rewrite lookup_empty in H; discriminate |].
  apply elem_of_lookup_imap in H as (j & p & Heq & Hj).
  inversion Heq; subst. eapply lookup_lt_Some, Hj.
Qed.

(** [ps[fi]] is a participant: the renderer never reads the color of
    [undefined]. *)
Lemma column_in_range id :
  participants d <> [] -> is_Some (participants d !! Svg.column d id).
Proof.
  intros Hne. apply lookup_lt_is_Some. unfold Svg.column.
  destruct (Svg.idx d !! id) as [i |] eqn:Hi; simpl.
  - apply idx_in_range in Hi. exact Hi.
  - destruct (participants d); [contradiction | simpl; lia].
Qed.

End Columns.

(** ** Elements that differ in their text only *)

Section Relabelling.

Lemma Forall2_same {A} (R : A -> A -> Prop) (xs : list A) :
  (forall x, R x x) -> Forall2 R xs xs.
Proof. intros HR. induction xs; constructor; auto. Qed.

Lemma Forall2_concat_map {A B} (R : A -> A -> Prop) (S : B -> B -> Prop)
    (f g : A -> list B) (xs ys : list A) :
  (forall x y, R x y -> Forall2 S (f x) (g y)) ->
  Forall2 R xs ys ->
  Forall2 S (concat (List.map f xs)) (concat (List.map g ys)).
Proof.
  intros Hfg. induction 1; simpl; [constructor |].
  apply Forall2_app; auto.
Qed.

Lemma same_but_numeral_refl e : same_but_numeral e e.
Proof. left. reflexivity. Qed.

(** The text elements of the renderer, cut before their content. *)
Lemma cut_marker_badge (x y f n : str) :
  tpl "<text x='$' y='$' text-anchor='middle' dominant-baseline='middle' font-family='$' font-size='11' font-weight='700' fill='#000000'>$</text>"
    [x; y; f; n]
  = tpl "<text x='$' y='$' text-anchor='middle' dominant-baseline='middle' font-family='$' font-size='11' font-weight='700' fill='#000000'"
      [x; y; f]
    ++ tpl ">$</text>" [n].
Proof. eval_tpl. reflexivity. Qed.

Lemma cut_marker_margin (y f n : str) :
  tpl "<text x='22' y='$' text-anchor='middle' dominant-baseline='middle' font-family='$' font-size='11' font-weight='700' fill='#000000'>$</text>"
    [y; f; n]
  = tpl "<text x='22' y='$' text-anchor='middle' dominant-baseline='middle' font-family='$' font-size='11' font-weight='700' fill='#000000'"
      [y; f]
    ++ tpl ">$</text>" [n].
Proof. eval_tpl. reflexivity. Qed.

Lemma cut_marker_plain (x y f n : str) :
  tpl "<text x='$' y='$' text-anchor='middle' dominant-baseline='middle' font-family='$' font-size='13' font-weight='700' fill='#000000'>$</text>"
    [x; y; f; n]
  = tpl "<text x='$' y='$' text-anchor='middle' dominant-baseline='middle' font-family='$' font-size='13' font-weight='700' fill='#000000'"
      [x; y; f]
    ++ tpl ">$</text>" [n].
Proof. eval_tpl. reflexivity. Qed.

Lemma marker_same_but_numeral o m m' fx y fc :
  Forall2 same_but_numeral (Svg.marker o m fx y fc) (Svg.marker o m' fx y fc).
Proof.
  unfold Svg.marker. destruct (coloredNumbers o).
  - rewrite !cut_marker_badge, !cut_marker_margin.
    constructor; [left; reflexivity |].
    constructor; [right; eauto |].
    constructor; [left; reflexivity |].
    constructor; [right; eauto |]. constructor.
  - rewrite !cut_marker_plain.
    constructor; [right; eauto |]. constructor.
Qed.

Lemma message_same_but_numeral d o l m m' :
  same_but_displayStep m m' ->
  Forall2 same_but_numeral (Svg.message d o l m) (Svg.message d o l m').
Proof.
  intros (Hf & Ht & Hx & Ha & Hs). unfold Svg.message.
  rewrite Hf, Ht, Hs. apply Forall2_app; [| apply marker_same_but_numeral].
  replace (Svg.self_message o l m) with (Svg.self_message o l m').
  2:{ unfold Svg.self_message, Svg.dashAttr, Svg.pillW. rewrite Hx, Ha. reflexivity. }
  replace (Svg.cross_message o l m) with (Svg.cross_message o l m').
  2:{ unfold Svg.cross_message, Svg.dashAttr, Svg.pillW. rewrite Hx, Ha. reflexivity. }
  apply Forall2_same, same_but_numeral_refl.
Qed.

Lemma parts_same_but_numeral d d' o l :
  participants d = participants d' -> title d = title d' ->
  Forall2 same_but_displayStep (messages d) (messages d') ->
  Forall2 same_but_numeral (Svg.parts d o l) (Svg.parts d' o l).
Proof.
  intros Hp Ht Hm. pose proof (Forall2_length _ _ _ Hm) as Hlen.
  unfold Svg.parts.
  replace (Svg.canvas d' o l) with (Svg.canvas d o l).
  2:{ unfold Svg.canvas, Svg.W, Svg.H, Svg.N_ps, Svg.diagramTitle, Svg.ps, Svg.ms.
      rewrite Hp, Ht, Hlen. reflexivity. }
  replace (Svg.lifeline d' o l) with (Svg.lifeline d o l).
  2:{ unfold Svg.lifeline, Svg.lb, Svg.H, Svg.ms. rewrite Hlen. reflexivity. }
  replace (Svg.H d' l) with (Svg.H d l).
  2:{ unfold Svg.H, Svg.ms. rewrite Hlen. reflexivity. }
  unfold Svg.ps, Svg.ms. rewrite <- Hp.
  repeat apply Forall2_app; try apply Forall2_same, same_but_numeral_refl.
  eapply Forall2_concat_map; [| exact Hm].
  intros m m' Hmm.
  replace (Svg.message d' o l m') with (Svg.message d o l m').
  2:{ unfold Svg.message, Svg.column, Svg.idx, Svg.color_at, Svg.ps.
      rewrite Hp. reflexivity. }
  apply message_same_but_numeral, Hmm.
Qed.

End Relabelling.

(** ** Escaping *)

Section Escaping.


Lemma single_chr c : single (chr c) (N.eqb c).
Proof. intros i [| a s]; reflexivity. Qed.

Lemma single_word_1 c : single (seqs [chr c]) (N.eqb c).
Proof. intros i [| a s]; reflexivity. Qed.

Lemma search_single r p (Hr : single r p) s : forall i,
  search r i s
  = match s with
    | [] => None
    | a :: s' =>
        if p a then Some (i, S i, [a], ∅) else search r (S i) s'
    end.
Proof.
  intros i. destruct s as [| a s']; simpl; rewrite Hr; [reflexivity |].
  destruct (p a); [| reflexivity].
  replace (S i - i) with 1 by lia. reflexivity.
Qed.

Lemma search_single_bounds r p (Hr : single r p) s : forall i b e w c,
  search r i s = Some (b, e, w, c) -> i <= b /\ e = S b.
Proof.
  induction s as [| a s IH]; intros i b e w c H;
    rewrite (search_single r p Hr) in H; [discriminate |].
  destruct (p a).
  - inversion H; subst. lia.
  - apply IH in H. lia.
Qed.

Lemma replace_single r p (Hr : single r p) f s : forall fuel i,
  length s < fuel ->
  replace_from fuel r f i s
  = flat_map (fun a => if p a then f [a] ∅ else [a]) s.
Proof.
  induction s as [| a s IH]; intros fuel i Hlen;
    (destruct fuel as [| fuel]; [simpl in Hlen; lia |]).
  - simpl. rewrite Hr. reflexivity.
  - cbn [replace_from flat_map]. rewrite (search_single r p Hr).
    destruct (p a) eqn:Hp.
    + rewrite (proj2 (Nat.ltb_lt i (S i))) by lia.
      rewrite Nat.sub_diag. replace (S i - i) with 1 by lia.
      cbn [take drop app]. rewrite drop_0.
      rewrite IH by (simpl in Hlen; lia). reflexivity.
    + rewrite <- (IH (S fuel) (S i)) by (simpl in Hlen; lia).
      cbn [replace_from app].
      destruct (search r (S i) s) as [[[[b e] w] c] |] eqn:Hs; [| reflexivity].
      apply (search_single_bounds r p Hr) in Hs as [Hb ->].
      rewrite !(proj2 (Nat.ltb_lt b (S b))) by lia.
      replace (b - i) with (S (b - S i)) by lia.
      replace (S b - i) with (S (S b - S i)) by lia.
      reflexivity.
Qed.

Lemma replace_all_single r p (Hr : single r p) f s :
  replace_all r f s = flat_map (fun a => if p a then f [a] ∅ else [a]) s.
Proof. unfold replace_all. apply (replace_single r p Hr). lia. Qed.

Lemma flat_map_flat_map {A B C} (g : B -> list C) (h : A -> list B) xs :
  flat_map g (flat_map h xs) = flat_map (fun a => flat_map g (h a)) xs.
Proof.
  induction xs as [| x xs IH]; simpl; [reflexivity |].
  rewrite flat_map_app, IH. reflexivity.
Qed.

Lemma esc_chars s : esc s = flat_map esc_char s.
Proof.
  unfold esc.
  rewrite (replace_all_single _ _ (single_chr dq)).
  rewrite (replace_all_single _ _ (single_word_1 62%N)).
  rewrite (replace_all_single _ _ (single_word_1 60%N)).
  rewrite (replace_all_single _ _ (single_word_1 38%N)).
  rewrite !flat_map_flat_map. apply flat_map_ext. intros a.
  unfold esc_char.
  destruct (N.eqb a 38) eqn:E1;
    [apply N.eqb_eq in E1; subst a; vm_compute; reflexivity |].
  rewrite N.eqb_sym, E1. cbn [flat_map app].
  destruct (N.eqb a 60) eqn:E2;
    [apply N.eqb_eq in E2; subst a; vm_compute; reflexivity |].
  rewrite N.eqb_sym, E2. cbn [flat_map app].
  destruct (N.eqb a 62) eqn:E3;
    [apply N.eqb_eq in E3; subst a; vm_compute; reflexivity |].
  rewrite N.eqb_sym, E3. cbn [flat_map app].
  unfold dq. rewrite (N.eqb_sym 34 a).
  destruct (N.eqb a 34) eqn:E4; reflexivity.
Qed.

(** The text [esc] returns holds none of the three delimiters. *)
Lemma esc_safe s :
  Forall (fun c => c <> 60%N /\ c <> 62%N /\ c <> 34%N) (esc s).
Proof.
  rewrite esc_chars. induction s as [| a s IH]; simpl; [constructor |].
  apply Forall_app. split; [| exact IH]. unfold esc_char.
  destruct (N.eqb a 38); [repeat constructor; discriminate |].
  destruct (N.eqb a 60) eqn:E2; [repeat constructor; discriminate |].
  destruct (N.eqb a 62) eqn:E3; [repeat constructor; discriminate |].
  destruct (N.eqb a 34) eqn:E4; [repeat constructor; discriminate |].
  apply N.eqb_neq in E2, E3, E4. repeat constructor; assumption.
Qed.

End Escaping.



Section TextElements.

Lemma fill_app t : forall args tail rest,
  holes t = length args ->
  fill (t ++ tail) (args ++ rest) = fill t args ++ fill tail rest.
Proof.
  induction t as [| c t IH]; intros args tail rest H; simpl in H.
  - destruct args; [reflexivity | discriminate].
  - cbn [app fill]. destruct (N.eqb c 36).
    + destruct args as [| a args]; [discriminate |].
      cbn [app]. rewrite <- app_assoc. f_equal. apply IH.
      simpl in H. lia.
    + cbn [app]. f_equal. apply IH. exact H.
Qed.

(** A text element of the renderer, cut before its content. *)
Lemma cut_text (T : string) (args : list str) (u : str) :
  let t := lit T in
  let k := length t - 9 in
  drop k t = lit ">$</text>" ->
  holes (take k t) = length args ->
  tpl T (args ++ [u]) = fill (take k t) args ++ tpl ">$</text>" [u].
Proof.
  cbv zeta. intros Htail Hholes. unfold tpl.
  rewrite <- (take_drop (length (lit T) - 9) (lit T)) at 1.
  rewrite Htail. apply fill_app, Hholes.
Qed.

Lemma same_but_text_refl e : same_but_text e e.
Proof. left. reflexivity. Qed.

Lemma same_text_element (T : string) (args : list str) (u u' : str) :
  let t := lit T in
  let k := length t - 9 in
  drop k t = lit ">$</text>" ->
  holes (take k t) = length args ->
  same_but_text (tpl T (args ++ [esc u])) (tpl T (args ++ [esc u'])).
Proof.
  cbv zeta. intros Htail Hholes. right.
  exists (fill (take (length (lit T) - 9) (lit T)) args), u, u'.
  split; apply cut_text; assumption.
Qed.

Ltac text_element :=
  lazymatch goal with
  | |- same_but_text (tpl ?T [?a; ?b; ?c; esc _]) _ =>
      apply (same_text_element T [a; b; c]); reflexivity
  | |- same_but_text (tpl ?T [?a; ?b; ?c; ?d; esc _]) _ =>
      apply (same_text_element T [a; b; c; d]); reflexivity
  | |- same_but_text (tpl ?T [?a; ?b; ?c; ?d; ?e; esc _]) _ =>
      apply (same_text_element T [a; b; c; d; e]); reflexivity
  end.

Lemma imap_Forall2_eq {A B} (R : A -> A -> Prop) (xs ys : list A) :
  Forall2 R xs ys -> forall f g : nat -> A -> B,
  (forall i x y, R x y -> f i x = g i y) -> imap f xs = imap g ys.
Proof.
  induction 1 as [| x y xs ys Hxy _ IH]; intros f g Hfg; simpl; [reflexivity |].
  f_equal; [apply Hfg, Hxy |]. apply IH. intros i. apply Hfg.
Qed.

Lemma Forall2_concat_imap {A B} (R : A -> A -> Prop) (S : B -> B -> Prop)
    (xs ys : list A) :
  Forall2 R xs ys -> forall f g : nat -> A -> list B,
  (forall i x y, R x y -> Forall2 S (f i x) (g i y)) ->
  Forall2 S (concat (imap f xs)) (concat (imap g ys)).
Proof.
  induction 1 as [| x y xs ys Hxy _ IH]; intros f g Hfg; simpl; [constructor |].
  apply Forall2_app; [apply Hfg, Hxy |]. apply IH. intros i. apply Hfg.
Qed.

Variables (d d' : Diagram) (o : Opts) (l : Layout).
Hypothesis Hps : Forall2 same_but_label (participants d) (participants d').
Hypothesis Hms : Forall2 same_but_words (messages d) (messages d').

Lemma same_W : Svg.W d' l = Svg.W d l.
Proof.
  unfold Svg.W, Svg.N_ps, Svg.ps. rewrite (Forall2_length _ _ _ Hps). reflexivity.
Qed.

Lemma same_H : Svg.H d' l = Svg.H d l.
Proof.
  unfold Svg.H, Svg.ms. rewrite (Forall2_length _ _ _ Hms). reflexivity.
Qed.

Lemma same_idx : Svg.idx d' = Svg.idx d.
Proof.
  unfold Svg.idx, Svg.ps. f_equal. symmetry.
  eapply imap_Forall2_eq; [exact Hps |].
  intros i p p' [Hid _]. rewrite Hid. reflexivity.
Qed.

Lemma same_color_at fi : Svg.color_at d' fi = Svg.color_at d fi.
Proof.
  unfold Svg.color_at, Svg.ps.
  pose proof (proj1 (Forall2_lookup _ _ _) Hps fi) as HL.
  destruct HL as [p p' [_ Hc] |]; [symmetry; exact Hc | reflexivity].
Qed.

Lemma canvas_same_but_text :
  Forall2 same_but_text (Svg.canvas d o l) (Svg.canvas d' o l).
Proof.
  unfold Svg.canvas. rewrite same_W, same_H.
  constructor; [left; reflexivity |].
  constructor; [text_element | constructor].
Qed.

Lemma lifelines_same_but_text :
  Forall2 same_but_text (concat (imap (Svg.lifeline d o l) (Svg.ps d)))
    (concat (imap (Svg.lifeline d' o l) (Svg.ps d'))).
Proof.
  eapply Forall2_concat_imap; [exact Hps |].
  intros i p p' [_ Hc]. unfold Svg.lifeline, Svg.lb. rewrite same_H, Hc.
  constructor; [left; reflexivity | constructor].
Qed.

Lemma boxes_same_but_text y :
  Forall2 same_but_text (concat (imap (Svg.box o l y) (Svg.ps d)))
    (concat (imap (Svg.box o l y) (Svg.ps d'))).
Proof.
  eapply Forall2_concat_imap; [exact Hps |].
  intros i p p' [_ Hc]. unfold Svg.box. rewrite Hc.
  constructor; [left; reflexivity |].
  constructor; [text_element | constructor].
Qed.

Lemma self_message_same_but_text m m' fx y lc tc fc :
  same_but_words m m' ->
  Forall2 same_but_text (Svg.self_message o l m fx y lc tc fc)
    (Svg.self_message o l m' fx y lc tc fc).
Proof.
  intros (_ & _ & Ha & _ & _ & Hlen).
  unfold Svg.self_message, Svg.dashAttr, Svg.pillW. rewrite Ha, Hlen.
  apply Forall2_app; [apply Forall2_same, same_but_text_refl |].
  destruct (coloredText o).
  - constructor; [left; reflexivity |].
    constructor; [text_element | constructor].
  - constructor; [text_element | constructor].
Qed.

Lemma cross_message_same_but_text m m' fx tx y lc tc fc :
  same_but_words m m' ->
  Forall2 same_but_text (Svg.cross_message o l m fx tx y lc tc fc)
    (Svg.cross_message o l m' fx tx y lc tc fc).
Proof.
  intros (_ & _ & Ha & _ & _ & Hlen).
  unfold Svg.cross_message, Svg.dashAttr, Svg.pillW. rewrite Ha, Hlen.
  apply Forall2_app; [apply Forall2_same, same_but_text_refl |].
  apply Forall2_app; [apply Forall2_same, same_but_text_refl |].
  destruct (coloredText o).
  - constructor; [left; reflexivity |].
    constructor; [text_element | constructor].
  - constructor; [text_element | constructor].
Qed.

Lemma message_same_but_text m m' :
  same_but_words m m' ->
  Forall2 same_but_text (Svg.message d o l m) (Svg.message d' o l m').
Proof.
  intros Hw. pose proof Hw as (Hf & Ht & Ha & Hs & Hd & Hlen).
  unfold Svg.message, Svg.column. rewrite same_idx, !same_color_at.
  rewrite <- Hf, <- Ht, <- Hs.
  apply Forall2_app.
  - destruct (bool_decide _);
      [apply self_message_same_but_text | apply cross_message_same_but_text];
      exact Hw.
  - unfold Svg.marker, Svg.numeral. rewrite <- Hs, <- Hd.
    apply Forall2_same, same_but_text_refl.
Qed.

Lemma parts_same_but_text :
  Forall2 same_but_text (Svg.parts d o l) (Svg.parts d' o l).
Proof.
  unfold Svg.parts. rewrite same_H.
  apply Forall2_app; [apply canvas_same_but_text |].
  apply Forall2_app; [apply lifelines_same_but_text |].
  apply Forall2_app; [apply boxes_same_but_text |].
  apply Forall2_app; [| apply boxes_same_but_text].
  eapply Forall2_concat_map; [| exact Hms].
  intros m m'. apply message_same_but_text.
Qed.

End TextElements.

Section ShownText.
Variables (d : Diagram) (o : Opts) (l : Layout).

Ltac shown :=
  lazymatch goal with
  | |- shows_text _ (tpl ?T [?a; ?b; ?c; esc _]) =>
      exists (fill (take (length (lit T) - 9) (lit T)) [a; b; c]);
      apply (cut_text T [a; b; c]); reflexivity
  | |- shows_text _ (tpl ?T [?a; ?b; ?c; ?x; esc _]) =>
      exists (fill (take (length (lit T) - 9) (lit T)) [a; b; c; x]);
      apply (cut_text T [a; b; c; x]); reflexivity
  | |- shows_text _ (tpl ?T [?a; ?b; ?c; ?x; ?y; esc _]) =>
      exists (fill (take (length (lit T) - 9) (lit T)) [a; b; c; x; y]);
      apply (cut_text T [a; b; c; x; y]); reflexivity
  end.

Lemma title_shown :
  exists e, e ∈ Svg.parts d o l
            /\ shows_text (default DEFAULT_DIAGRAM_TITLE (title d)) e.
Proof.
  eexists. split.
  - unfold Svg.parts, Svg.canvas. apply elem_of_app. left.
    apply list_elem_of_further, list_elem_of_here.
  - unfold Svg.diagramTitle. shown.
Qed.

Lemma label_shown p :
  p ∈ participants d ->
  exists e, e ∈ Svg.parts d o l /\ shows_text (label p) e.
Proof.
  intros Hp. apply list_elem_of_lookup in Hp as [i Hi].
  eexists. split.
  - unfold Svg.parts. rewrite !elem_of_app. right. right. left.
    apply elem_of_concat. exists (Svg.box o l (Svg.TITLE_H + Svg.TP) i p).
    split.
    + apply list_elem_of_lookup. exists i.
      rewrite list_lookup_imap. unfold Svg.ps. rewrite Hi. reflexivity.
    + unfold Svg.box. apply list_elem_of_further, list_elem_of_here.
  - shown.
Qed.

Lemma text_shown m :
  m ∈ messages d ->
  exists e, e ∈ Svg.parts d o l /\ shows_text (text m) e.
Proof.
  intros Hm.
  assert (H : exists e, e ∈ Svg.message d o l m /\ shows_text (text m) e).
  { unfold Svg.message, Svg.self_message, Svg.cross_message.
    destruct (bool_decide _); destruct (coloredText o); eexists.
    - split.
      { rewrite !elem_of_app. left. right.
        apply list_elem_of_further, list_elem_of_here. }
      shown.
    - split.
      { rewrite !elem_of_app. left. right. apply list_elem_of_here. }
      shown.
    - split.
      { rewrite !elem_of_app. left. right. right.
        apply list_elem_of_further, list_elem_of_here. }
      shown.
    - split.
      { rewrite !elem_of_app. left. right. right. apply list_elem_of_here. }
      shown. }
  destruct H as (e & He & Hs). exists e. split; [| exact Hs].
  eapply message_part; eassumption.
Qed.

End ShownText.

(** C9. [esc] replaces the ampersand, the angle brackets and the double
    quote by their entities, so its result holds no angle bracket and no
    double quote. The title, every participant label and every message text
    are shown as the content of a text element, escaped; and two diagrams
    that differ in these strings only (a message text keeping its length,
    which sets the width of its pill) are drawn with the same elements but
    for that escaped content, under the same root element. *)
Theorem user_text_is_escaped (d d' : Diagram) (o : Opts) (l : Layout) :
  Forall2 same_but_label (participants d) (participants d') ->
  Forall2 same_but_words (messages d) (messages d') ->
  (forall u, esc u = flat_map esc_char u
             /\ Forall (fun c => c <> 60%N /\ c <> 62%N /\ c <> 34%N) (esc u))
  /\ (exists e, e ∈ Svg.parts d o l
                /\ shows_text (default DEFAULT_DIAGRAM_TITLE (title d)) e)
  /\ (forall p, p ∈ participants d ->
        exists e, e ∈ Svg.parts d o l /\ shows_text (label p) e)
  /\ (forall m, m ∈ messages d ->
        exists e, e ∈ Svg.parts d o l /\ shows_text (text m) e)
  /\ Forall2 same_but_text (Svg.parts d o l) (Svg.parts d' o l)
  /\ ((buildSvg d o l = [] /\ buildSvg d' o l = [])
      \/ exists root,
           buildSvg d o l = root ++ concat (Svg.parts d o l) ++ lit "</svg>"
           /\ buildSvg d' o l
              = root ++ concat (Svg.parts d' o l) ++ lit "</svg>").
Proof.
  intros Hps Hms.
  split; [intros u; split; [apply esc_chars | apply esc_safe] |].
  split; [apply title_shown |].
  split; [apply label_shown |].
  split; [apply text_shown |].
  split; [apply parts_same_but_text; assumption |].
  unfold buildSvg, Svg.buildSvg, Svg.ps.
  destruct (participants d) as [| p ps] eqn:Ed;
    destruct (participants d') as [| p' ps'] eqn:Ed';
    try (inversion Hps; fail); [left; auto | right].
  rewrite !bool_decide_eq_false_2 by discriminate.
  rewrite !root_body.
  rewrite <- Ed in Hps. rewrite <- Ed' in Hps.
  rewrite (same_W d d' l Hps), (same_H d d' l Hms).
  eexists. split; reflexivity.
Qed.

Lemma user_text_is_escaped_witness :
  let nl := [10%N] in
  let d := parse (lit "title: a<b" ++ nl ++ lit "participant A as x&y" ++ nl
                  ++ lit "A->>B: p>q") in
  let d' := parse (lit "title: zz" ++ nl ++ lit "participant A as Al" ++ nl
                   ++ lit "A->>B: abc") in
  Forall2 same_but_label (participants d) (participants d')
  /\ Forall2 same_but_words (messages d) (messages d')
  /\ esc (lit "a<b") = lit "a&lt;b"
  /\ Forall2 same_but_text (Svg.parts d DEFAULT_OPTS DEFAULT_LAYOUT)
       (Svg.parts d' DEFAULT_OPTS DEFAULT_LAYOUT).
Proof.
  cbv zeta.
  match goal with
  | |- Forall2 _ (participants ?a) (participants ?b) /\ _ =>
      set (d := a); set (d' := b)
  end.
  assert (Hps : Forall2 same_but_label (participants d) (participants d'))
    by (vm_compute; repeat constructor).
  assert (Hms : Forall2 same_but_words (messages d) (messages d'))
    by (vm_compute; repeat constructor).
  pose proof (user_text_is_escaped d d' DEFAULT_OPTS DEFAULT_LAYOUT Hps Hms)
    as (Hesc & _ & _ & _ & Hparts & _).
  split; [exact Hps |]. split; [exact Hms |].
  split; [destruct (Hesc (lit "a<b")) as [-> _]; vm_compute; reflexivity |].
  exact Hparts.
Defined.

(** ** Telling the elements apart *)

Section Kinds.

Lemma startsWith_app_le p : forall s r,
  length p <= length s -> startsWith p (s ++ r) = startsWith p s.
Proof.
  induction p as [| a p IH]; intros s r H; [reflexivity |].
  destruct s as [| b s]; [simpl in H; lia |].
  cbn [app startsWith]. rewrite IH by (simpl in H; lia). reflexivity.
Qed.

Lemma startsWith_differ p : forall s r,
  startsWith (take (length s) p) s = false -> startsWith p (s ++ r) = false.
Proof.
  induction p as [| a p IH]; intros s r H.
  - rewrite take_nil in H. discriminate.
  - destruct s as [| b s]; [discriminate |].
    cbn [length take startsWith] in H. cbn [app startsWith].
    destruct (N.eqb a b); [| reflexivity].
    cbn [andb] in *. apply IH, H.
Qed.

Lemma endsWith_tail p a q :
  length p <= length q -> endsWith p (a ++ q) = endsWith p q.
Proof.
  intros H. unfold endsWith. rewrite rev_app_distr.
  apply startsWith_app_le. rewrite !length_rev. exact H.
Qed.

Lemma endsWith_differ p a q :
  startsWith (take (length q) (rev p)) (rev q) = false ->
  endsWith p (a ++ q) = false.
Proof.
  intros H. unfold endsWith. rewrite rev_app_distr.
  apply startsWith_differ. rewrite length_rev. exact H.
Qed.

(** A text element, cut before its content. *)
Lemma text_parts_cut tag u :
  Forall (fun c => c <> 62%N) u ->
  text_parts (tag ++ tpl ">$</text>" [u]) = Some (tag, u).
Proof.
  intros Hu. unfold text_parts.
  assert (Hrev : rev (tag ++ tpl ">$</text>" [u])
                 = rev (lit "</text>") ++ rev u ++ 62%N :: rev tag).
  { change (tpl ">$</text>" [u]) with (62%N :: u ++ lit "</text>").
    rewrite rev_app_distr. cbn [rev]. rewrite rev_app_distr.
    rewrite <- !app_assoc. reflexivity. }
  rewrite Hrev. rewrite startsWith_app.
  change 7 with (length (rev (lit "</text>"))). rewrite drop_app_length.
  rewrite until_stop by (apply Forall_rev, Hu).
  rewrite drop_app_length. rewrite !rev_involutive. reflexivity.
Qed.

Lemma text_parts_none a : text_parts (a ++ lit "/>") = None.
Proof.
  unfold text_parts. rewrite rev_app_distr. reflexivity.
Qed.

(** An element that closes itself is no numeral. *)
Lemma closed_element_kind (T : string) (args : list str) :
  let t := lit T in
  let j := length t - 2 in
  drop j t = lit "/>" ->
  holes (take j t) = length args ->
  is_step_numeral (tpl T args) = false.
Proof.
  cbv zeta. intros Htail Hholes. unfold tpl, is_step_numeral.
  rewrite <- (take_drop (length (lit T) - 2) (lit T)) at 1.
  rewrite Htail. rewrite <- (app_nil_r args).
  rewrite fill_app by exact Hholes.
  change (fill (lit "/>") []) with (lit "/>").
  rewrite text_parts_none. reflexivity.
Qed.

(** A text element is a numeral or not by the end of its opening tag: [j]
    is a place in the template after which all that is substituted is
    known. *)
Lemma text_kind_by_tag (T : string) (args1 args2 : list str) (u : str)
    (j : nat) (b : bool) :
  let t := lit T in
  let k := length t - 9 in
  let q := fill (drop j (take k t)) args2 in
  let p := tpl " font-weight='700' fill='#000000'" [] in
  drop k t = lit ">$</text>" ->
  holes (take k t) = length (args1 ++ args2) ->
  holes (take j (take k t)) = length args1 ->
  Forall (fun c => c <> 62%N) u ->
  (if b then (length p <=? length q) && endsWith p q
   else negb (startsWith (take (length q) (rev p)) (rev q))) = true ->
  is_step_numeral (tpl T ((args1 ++ args2) ++ [u])) = b.
Proof.
  cbv zeta. intros Htail Hk Hj Hu Hq. unfold is_step_numeral.
  rewrite cut_text by assumption.
  rewrite text_parts_cut by exact Hu.
  rewrite <- (take_drop j (take (length (lit T) - 9) (lit T))) at 1.
  rewrite fill_app by exact Hj.
  destruct b.
  - apply andb_true_iff in Hq as [Hlen Hq]. apply Nat.leb_le in Hlen.
    rewrite endsWith_tail by exact Hlen. exact Hq.
  - apply negb_true_iff in Hq. apply endsWith_differ, Hq.
Qed.

Lemma circle_kind (T : string) (args : list str) (b : bool) :
  let t := lit T in
  holes (take 8 t) = 0 ->
  length (fill (take 8 t) []) = 8 ->
  startsWith (lit "<circle ") (fill (take 8 t) []) = b ->
  is_circle (tpl T args) = b.
Proof.
  cbv zeta. intros Hholes Hlen Hb. unfold is_circle, tpl.
  rewrite <- (take_drop 8 (lit T)) at 1.
  change args with ([] ++ args).
  rewrite fill_app by exact Hholes.
  rewrite startsWith_app_le by (rewrite Hlen; reflexivity). exact Hb.
Qed.

Lemma closed_element_text (T : string) (args : list str) :
  let t := lit T in
  let j := length t - 2 in
  drop j t = lit "/>" ->
  holes (take j t) = length args ->
  is_text (tpl T args) = false.
Proof.
  cbv zeta. intros Htail Hholes. unfold tpl, is_text.
  rewrite <- (take_drop (length (lit T) - 2) (lit T)) at 1.
  rewrite Htail. rewrite <- (app_nil_r args).
  rewrite fill_app by exact Hholes.
  change (fill (lit "/>") []) with (lit "/>").
  rewrite text_parts_none. reflexivity.
Qed.

Lemma text_element_text (T : string) (args : list str) (u : str) :
  let t := lit T in
  let k := length t - 9 in
  drop k t = lit ">$</text>" ->
  holes (take k t) = length args ->
  Forall (fun c => c <> 62%N) u ->
  is_text (tpl T (args ++ [u])) = true.
Proof.
  cbv zeta. intros Htail Hk Hu. unfold is_text.
  rewrite cut_text by assumption.
  rewrite text_parts_cut by exact Hu. reflexivity.
Qed.

Lemma esc_no_gt u : Forall (fun c => c <> 62%N) (esc u).
Proof.
  eapply Forall_impl; [apply esc_safe |]. intros c (_ & H & _). exact H.
Qed.

Lemma num_no_gt n : Forall (fun c => c <> 62%N) (Svg.num n).
Proof. apply numeric_not; [reflexivity | apply to_string_numeric]. Qed.

Lemma filter_none {A} (f : A -> bool) (xs : list A) :
  Forall (fun x => f x = false) xs -> List.filter f xs = [].
Proof.
  induction 1 as [| x xs Hx _ IH]; [reflexivity |].
  cbn [List.filter]. rewrite Hx. exact IH.
Qed.

Lemma filter_concat_length {A B} (f : B -> bool) (g : A -> list B) (n : nat)
    (xs : list A) :
  (forall x, x ∈ xs -> length (List.filter f (g x)) = n) ->
  length (List.filter f (concat (List.map g xs))) = n * length xs.
Proof.
  induction xs as [| x xs IH]; intros H; cbn [List.map concat length].
  - cbn [List.filter length]. lia.
  - rewrite List.filter_app, length_app.
    rewrite (H x) by apply list_elem_of_here.
    rewrite IH by (intros z Hz; apply H, list_elem_of_further, Hz). lia.
Qed.

Lemma Forall_concat_imap {A B} (P : B -> Prop) (g : nat -> A -> list B)
    (xs : list A) :
  (forall i x, Forall P (g i x)) -> Forall P (concat (imap g xs)).
Proof.
  intros H. revert g H. induction xs as [| x xs IH]; intros g H;
    cbn [imap concat]; [constructor |].
  apply Forall_app. split; [apply H |]. apply IH. intros i z. apply H.
Qed.

Lemma filter_concat_imap_length {A B} (f : B -> bool) (n : nat)
    (xs : list A) : forall g : nat -> A -> list B,
  (forall i x, length (List.filter f (g i x)) = n) ->
  length (List.filter f (concat (imap g xs))) = n * length xs.
Proof.
  induction xs as [| x xs IH]; intros g H; cbn [imap concat length].
  - cbn [List.filter length]. lia.
  - rewrite List.filter_app, length_app, H.
    rewrite IH by (intros i z; apply H). lia.
Qed.

End Kinds.

(** Settles the kind of an element that closes itself. *)
Ltac closed_element :=
  lazymatch goal with
  | |- is_step_numeral (tpl ?T ?args) = false =>
      apply (closed_element_kind T args); reflexivity
  end.

Ltac circle_or_not :=
  lazymatch goal with
  | |- is_circle (tpl ?T ?args) = ?b =>
      apply (circle_kind T args b); reflexivity
  end.


(** Settles the kind of a text element: [n] is how many code units of the
    end of the opening tag are looked at, [args2] the known substitutions
    among them. *)
Ltac text_kind n args2 :=
  lazymatch goal with
  | |- is_step_numeral (tpl ?T ?args) = ?r =>
      let side :=
        (first [ reflexivity | apply esc_no_gt | apply num_no_gt ]) in
      lazymatch args with
      | [?a; ?b; ?u] =>
          apply (text_kind_by_tag T [a; b] args2 u (length (lit T) - 9 - n) r);
          side
      | [?a; ?b; ?c; ?u] =>
          apply (text_kind_by_tag T [a; b; c] args2 u (length (lit T) - 9 - n) r);
          side
      | [?a; ?b; ?c; ?x; ?u] =>
          lazymatch args2 with
          | [] =>
              apply (text_kind_by_tag T [a; b; c; x] args2 u
                       (length (lit T) - 9 - n) r); side
          end
      | [?a; ?b; ?c; ?x; ?y; ?u] =>
          apply (text_kind_by_tag T [a; b; c; x] [y] u
                   (length (lit T) - 9 - n) r); side
      end
  end.

(** Rewrites the kind [e] of an element with its value, found by [tac]. *)
Ltac kind_of e tac :=
  let H := fresh in
  first [ assert (H : e = true) by tac | assert (H : e = false) by tac ];
  rewrite H; clear H.

Ltac plain_kind n args2 :=
  split; [circle_or_not | first [closed_element | text_kind n args2]].

Ltac text_or_not :=
  idtac;
  lazymatch goal with
  | |- is_text (tpl ?T ?args) = false =>
      apply (closed_element_text T args); reflexivity
  | |- is_text (tpl ?T ?args) = true =>
      let a := eval cbv [removelast] in (removelast args) in
      apply (text_element_text T a);
      first [ reflexivity | apply esc_no_gt | apply num_no_gt ]
  end.

(** Settles the kinds of the elements of the goal. *)
Ltac kinds :=
  repeat match goal with
    | |- context [is_circle (tpl ?T ?args)] =>
        kind_of (is_circle (tpl T args)) ltac:(circle_or_not)
    | |- context [is_step_numeral (tpl ?T ?args)] =>
        kind_of (is_step_numeral (tpl T args))
          ltac:(first [closed_element | text_kind 40 (@nil str)])
    | |- context [is_text (tpl ?T ?args)] =>
        kind_of (is_text (tpl T args)) ltac:(text_or_not)
    end.

Ltac shown_text :=
  lazymatch goal with
  | |- shows_text _ (tpl ?T ?args) =>
      let a := eval cbv [removelast] in (removelast args) in
      exists (fill (take (length (lit T) - 9) (lit T)) a);
      apply (cut_text T a); reflexivity
  end.

Section MessageKinds.
Variables (d : Diagram) (o : Opts) (l : Layout).

Lemma canvas_plain : Forall plain_element (Svg.canvas d o l).
Proof.
  unfold Svg.canvas.
  constructor; [plain_kind 20 (@nil str) |].
  constructor; [plain_kind 20 (@nil str) |]. constructor.
Qed.

Lemma lifeline_plain i p : Forall plain_element (Svg.lifeline d o l i p).
Proof.
  unfold Svg.lifeline. cbv zeta.
  constructor; [plain_kind 20 (@nil str) |]. constructor.
Qed.

Lemma box_plain y i p : Forall plain_element (Svg.box o l y i p).
Proof.
  unfold Svg.box. cbv zeta.
  constructor; [plain_kind 20 (@nil str) |].
  constructor; [plain_kind 20 (@nil str) |]. constructor.
Qed.

Lemma self_message_plain msg fx y lc fc :
  Forall plain_element
    (Svg.self_message o l msg fx y lc
       (if coloredText o then fc else lit "#1e293b") fc).
Proof.
  unfold Svg.self_message. cbv zeta.
  destruct (coloredText o); cbn [app];
    repeat (constructor; [first [plain_kind 20 (@nil str) | plain_kind 9 [lit "#1e293b"]] |]);
    constructor.
Qed.

Lemma cross_message_plain msg fx tx y lc fc :
  Forall plain_element
    (Svg.cross_message o l msg fx tx y lc
       (if coloredText o then fc else lit "#1e293b") fc).
Proof.
  unfold Svg.cross_message. cbv zeta.
  destruct (coloredText o), (arrow msg), (fx <? tx)%float;
    match goal with
    | |- context [(?a =? ?b)%float] => destruct (a =? b)%float
    end;
    cbn [app];
    repeat (constructor; [first [plain_kind 20 (@nil str) | plain_kind 9 [lit "#1e293b"]] |]);
    constructor.
Qed.

Lemma plain_no_circle es :
  Forall plain_element es -> List.filter is_circle es = [].
Proof.
  intros H. apply filter_none. eapply Forall_impl; [exact H |].
  intros e [He _]. exact He.
Qed.

Lemma plain_no_numeral es :
  Forall plain_element es -> List.filter is_step_numeral es = [].
Proof.
  intros H. apply filter_none. eapply Forall_impl; [exact H |].
  intros e [_ He]. exact He.
Qed.

(** The circles and the numerals of a marker. *)
Lemma marker_kinds msg fx y fc :
  let m := Svg.marker o msg fx y fc in
  if coloredNumbers o then
    exists c1 t1 c2 t2,
      m = [c1; t1; c2; t2]
      /\ List.filter is_circle m = [c1; c2]
      /\ List.filter is_step_numeral m = [t1; t2]
  else
    exists t1,
      m = [t1]
      /\ List.filter is_circle m = []
      /\ List.filter is_step_numeral m = [t1].
Proof.
  cbv zeta. unfold Svg.marker.
  destruct (coloredNumbers o);
    [do 4 eexists | eexists]; (split; [reflexivity |]); cbn [List.filter];
    kinds; split; reflexivity.
Qed.

(** What is drawn for a message before its marker holds no circle and no
    numeral. *)
Lemma message_kinds msg :
  let mk := Svg.marker o msg (Svg.cx l (Svg.column d (from msg)))
              (Svg.msgY l (JsNumber.of_Z (step msg)))
              (Svg.color_at d (Svg.column d (from msg))) in
  List.filter is_circle (Svg.message d o l msg) = List.filter is_circle mk
  /\ List.filter is_step_numeral (Svg.message d o l msg)
     = List.filter is_step_numeral mk.
Proof.
  cbv zeta. unfold Svg.message. cbv zeta. rewrite !List.filter_app.
  destruct (bool_decide _).
  - rewrite plain_no_circle, plain_no_numeral by apply self_message_plain.
    split; reflexivity.
  - rewrite plain_no_circle, plain_no_numeral by apply cross_message_plain.
    split; reflexivity.
Qed.

Lemma message_marker_count msg :
  length (List.filter is_circle (Svg.message d o l msg))
  = (if coloredNumbers o then 2 else 0)
  /\ length (List.filter is_step_numeral (Svg.message d o l msg))
     = (if coloredNumbers o then 2 else 1).
Proof.
  destruct (message_kinds msg) as [-> ->].
  pose proof (marker_kinds msg (Svg.cx l (Svg.column d (from msg)))
                (Svg.msgY l (JsNumber.of_Z (step msg)))
                (Svg.color_at d (Svg.column d (from msg)))) as H.
  cbv zeta in H. destruct (coloredNumbers o).
  - destruct H as (c1 & t1 & c2 & t2 & _ & -> & ->). split; reflexivity.
  - destruct H as (t1 & _ & -> & ->). split; reflexivity.
Qed.

(** The texts of a marker are its numerals. *)
Lemma marker_texts msg fx y fc :
  List.filter is_text (Svg.marker o msg fx y fc)
  = List.filter is_step_numeral (Svg.marker o msg fx y fc).
Proof.
  unfold Svg.marker.
  destruct (coloredNumbers o); cbn [List.filter]; kinds; reflexivity.
Qed.

Lemma self_message_texts msg fx y lc tc fc :
  exists label,
    List.filter is_text (Svg.self_message o l msg fx y lc tc fc) = [label]
    /\ shows_text (text msg) label.
Proof.
  unfold Svg.self_message. cbv zeta.
  destruct (coloredText o); cbn [app List.filter]; kinds;
    eexists; (split; [reflexivity | shown_text]).
Qed.

Lemma cross_message_texts msg fx tx y lc tc fc :
  exists label,
    List.filter is_text (Svg.cross_message o l msg fx tx y lc tc fc) = [label]
    /\ shows_text (text msg) label.
Proof.
  unfold Svg.cross_message. cbv zeta.
  destruct (coloredText o), (arrow msg), (fx <? tx)%float;
    match goal with
    | |- context [(?a =? ?b)%float] => destruct (a =? b)%float
    end;
    cbn [app List.filter]; kinds;
    eexists; (split; [reflexivity | shown_text]).
Qed.

(** The texts drawn for a message are its own text and its numerals. *)
Lemma message_texts msg :
  exists label,
    List.filter is_text (Svg.message d o l msg)
    = label :: List.filter is_step_numeral (Svg.message d o l msg)
    /\ shows_text (text msg) label.
Proof.
  destruct (message_kinds msg) as [_ ->]. cbv zeta.
  unfold Svg.message. cbv zeta. rewrite List.filter_app, marker_texts.
  destruct (bool_decide _).
  - destruct (self_message_texts msg (Svg.cx l (Svg.column d (from msg)))
      (Svg.msgY l (JsNumber.of_Z (step msg)))
      (if coloredLines o then Svg.color_at d (Svg.column d (from msg))
       else lit "#374151")
      (if coloredText o then Svg.color_at d (Svg.column d (from msg))
       else lit "#1e293b")
      (Svg.color_at d (Svg.column d (from msg)))) as (label & -> & Hs).
    exists label. split; [reflexivity | exact Hs].
  - destruct (cross_message_texts msg (Svg.cx l (Svg.column d (from msg)))
      (Svg.cx l (Svg.column d (to msg)))
      (Svg.msgY l (JsNumber.of_Z (step msg)))
      (if coloredLines o then Svg.color_at d (Svg.column d (from msg))
       else lit "#374151")
      (if coloredText o then Svg.color_at d (Svg.column d (from msg))
       else lit "#1e293b")
      (Svg.color_at d (Svg.column d (from msg)))) as (label & -> & Hs).
    exists label. split; [reflexivity | exact Hs].
Qed.

(** The texts of the drawing: the title, two labels for every participant,
    and for every message its text and its numerals. *)
Lemma parts_text_count :
  length (List.filter is_text (Svg.parts d o l))
  = 1 + 2 * length (participants d)
    + (if coloredNumbers o then 3 else 2) * length (messages d).
Proof.
  unfold Svg.parts. rewrite !List.filter_app, !length_app.
  assert (Hcanvas : length (List.filter is_text (Svg.canvas d o l)) = 1).
  { unfold Svg.canvas. cbn [List.filter]. kinds. reflexivity. }
  assert (Hlines : length (List.filter is_text
                             (concat (imap (Svg.lifeline d o l) (Svg.ps d))))
                   = 0 * length (Svg.ps d)).
  { apply filter_concat_imap_length. intros i p.
    unfold Svg.lifeline. cbv zeta. cbn [List.filter]. kinds. reflexivity. }
  assert (Hboxes : forall y,
    length (List.filter is_text (concat (imap (Svg.box o l y) (Svg.ps d))))
    = 1 * length (Svg.ps d)).
  { intros y. apply filter_concat_imap_length. intros i p.
    unfold Svg.box. cbv zeta. cbn [List.filter]. kinds. reflexivity. }
  assert (Hmsgs : length (List.filter is_text
                            (concat (List.map (Svg.message d o l) (Svg.ms d))))
                  = (if coloredNumbers o then 3 else 2) * length (Svg.ms d)).
  { apply filter_concat_length. intros msg _.
    destruct (message_texts msg) as (label & -> & _).
    cbn [length]. rewrite (proj2 (message_marker_count msg)).
    destruct (coloredNumbers o); reflexivity. }
  rewrite Hcanvas, Hlines, !Hboxes, Hmsgs. unfold Svg.ps, Svg.ms. lia.
Qed.

(** Outside the messages nothing is a circle or a numeral. *)
Lemma parts_marker_count :
  length (List.filter is_circle (Svg.parts d o l))
  = (if coloredNumbers o then 2 else 0) * length (messages d)
  /\ length (List.filter is_step_numeral (Svg.parts d o l))
     = (if coloredNumbers o then 2 else 1) * length (messages d).
Proof.
  unfold Svg.parts. rewrite !List.filter_app, !length_app.
  rewrite !(plain_no_circle (Svg.canvas d o l)),
          !(plain_no_numeral (Svg.canvas d o l)) by apply canvas_plain.
  rewrite !(plain_no_circle (concat (imap _ _))),
          !(plain_no_numeral (concat (imap _ _)))
    by (apply Forall_concat_imap; intros i p;
        first [apply lifeline_plain | apply box_plain]).
  cbn [length]. rewrite !Nat.add_0_r. unfold Svg.ms.
  split; apply filter_concat_length; intros msg _;
    apply message_marker_count.
Qed.

End MessageKinds.

(** C1, as the code has it. For a diagram with participants and a message
    of it: with the step-number-coloring toggle on, the elements drawn for
    the message hold two circles and two numerals, a circle and the numeral
    on the lifeline of the source (the first column when the source is no
    participant) at the row of the message, and a circle and the numeral at
    x-position 22; with the toggle off they hold no circle and one numeral,
    on the lifeline. The numeral is the display step when there is one, the
    sequence index otherwise, and each of these elements is in the markup.
    The only other text drawn for the message is its own. In the whole
    drawing there are as many circles and numerals as the messages account
    for, two of each for every message with the toggle on, no circle and
    one numeral for every message with it off; and the texts of the
    drawing are the title, two labels for every participant and, for every
    message, its text and its numerals. *)
Theorem step_markers_by_toggle
    (d : Diagram) (o : Opts) (l : Layout) (msg : SeqMsg) :
  participants d <> [] -> msg ∈ messages d ->
  let x := Svg.cx l (Svg.column d (from msg)) in
  let y := Svg.msgY l (JsNumber.of_Z (step msg)) in
  let n := default (JsNumber.of_Z (step msg)) (displayStep msg) in
  let elements := Svg.message d o l msg in
  let drawn e := occurs_in e (buildSvg d o l) in
  (if coloredNumbers o then
     exists c1 t1 c2 t2,
       List.filter is_circle elements = [c1; c2]
       /\ List.filter is_step_numeral elements = [t1; t2]
       /\ circle_at x y c1 /\ numeral_at x (y + 1) n t1
       /\ circle_at 22 y c2 /\ numeral_at 22 (y + 1) n t2
       /\ drawn c1 /\ drawn t1 /\ drawn c2 /\ drawn t2
   else
     exists t1,
       List.filter is_circle elements = []
       /\ List.filter is_step_numeral elements = [t1]
       /\ numeral_at x (y + 1) n t1 /\ drawn t1)
  /\ (exists label,
        List.filter is_text elements
        = label :: List.filter is_step_numeral elements
        /\ shows_text (text msg) label)
  /\ length (List.filter is_circle (Svg.parts d o l))
     = (if coloredNumbers o then 2 else 0) * length (messages d)
  /\ length (List.filter is_step_numeral (Svg.parts d o l))
     = (if coloredNumbers o then 2 else 1) * length (messages d)
  /\ length (List.filter is_text (Svg.parts d o l))
     = 1 + 2 * length (participants d)
       + (if coloredNumbers o then 3 else 2) * length (messages d).
Proof.
  intros Hne Hmsg. cbv zeta.
  split; [| split; [apply message_texts |
                    split; [apply parts_marker_count |
                            split; [apply parts_marker_count |
                                    apply parts_text_count]]]].
  assert (Hdrawn : forall e,
    e ∈ Svg.marker o msg (Svg.cx l (Svg.column d (from msg)))
          (Svg.msgY l (JsNumber.of_Z (step msg)))
          (Svg.color_at d (Svg.column d (from msg))) ->
    occurs_in e (buildSvg d o l)).
  { intros e He. apply part_occurs; [exact Hne |].
    eapply message_part; [exact Hmsg |]. apply marker_part, He. }
  destruct (message_kinds d o l msg) as [-> ->].
  pose proof (marker_kinds o msg (Svg.cx l (Svg.column d (from msg)))
                (Svg.msgY l (JsNumber.of_Z (step msg)))
                (Svg.color_at d (Svg.column d (from msg)))) as Hk.
  cbv zeta in Hk. destruct (coloredNumbers o) eqn:E.
  - destruct Hk as (c1 & t1 & c2 & t2 & Hm & -> & ->).
    exists c1, t1, c2, t2.
    split; [reflexivity |]. split; [reflexivity |].
    rewrite Hm in Hdrawn.
    unfold Svg.marker, Svg.numeral in Hm. rewrite E in Hm.
    injection Hm as <- <- <- <-.
    split; [apply circle_at_lifeline |].
    split; [apply numeral_at_lifeline_badge |].
    split; [apply circle_at_margin |].
    split; [apply numeral_at_margin |].
    repeat split; apply Hdrawn.
    + apply list_elem_of_here.
    + apply list_elem_of_further, list_elem_of_here.
    + do 2 apply list_elem_of_further. apply list_elem_of_here.
    + do 3 apply list_elem_of_further. apply list_elem_of_here.
  - destruct Hk as (t1 & Hm & -> & ->). exists t1.
    split; [reflexivity |]. split; [reflexivity |].
    rewrite Hm in Hdrawn.
    unfold Svg.marker, Svg.numeral in Hm. rewrite E in Hm.
    injection Hm as <-.
    split; [apply numeral_at_lifeline_plain |].
    apply Hdrawn, list_elem_of_here.
Qed.

Lemma step_markers_by_toggle_witness :
  let d := parse (lit "A-->>B: 3. Done") in
  let msg := {| from := lit "A"; to := lit "B"; text := lit "Done";
                arrow := dashed; step := 1; displayStep := Some 3%float |} in
  let plain := {| coloredLines := true; coloredNumbers := false;
                  coloredText := true; font := lit "Inter";
                  lifelineDash := lit "circle" |} in
  let x := Svg.cx DEFAULT_LAYOUT (Svg.column d (lit "A")) in
  let y := Svg.msgY DEFAULT_LAYOUT (JsNumber.of_Z 1) in
  participants d <> [] /\ msg ∈ messages d
  /\ (exists c1 t1 c2 t2,
       List.filter is_circle (Svg.message d DEFAULT_OPTS DEFAULT_LAYOUT msg)
       = [c1; c2]
       /\ List.filter is_step_numeral
            (Svg.message d DEFAULT_OPTS DEFAULT_LAYOUT msg) = [t1; t2]
       /\ circle_at x y c1 /\ numeral_at x (y + 1) 3 t1
       /\ circle_at 22 y c2 /\ numeral_at 22 (y + 1) 3 t2
       /\ occurs_in c1 (buildSvg d DEFAULT_OPTS DEFAULT_LAYOUT)
       /\ occurs_in t1 (buildSvg d DEFAULT_OPTS DEFAULT_LAYOUT)
       /\ occurs_in c2 (buildSvg d DEFAULT_OPTS DEFAULT_LAYOUT)
       /\ occurs_in t2 (buildSvg d DEFAULT_OPTS DEFAULT_LAYOUT))
  /\ (exists t1,
       List.filter is_circle (Svg.message d plain DEFAULT_LAYOUT msg) = []
       /\ List.filter is_step_numeral (Svg.message d plain DEFAULT_LAYOUT msg)
          = [t1]
       /\ numeral_at x (y + 1) 3 t1
       /\ occurs_in t1 (buildSvg d plain DEFAULT_LAYOUT)).
Proof.
  cbv zeta.
  assert (Hne : participants (parse (lit "A-->>B: 3. Done")) <> [])
    by (vm_compute; discriminate).
  assert (Hin : {| from := lit "A"; to := lit "B"; text := lit "Done";
                   arrow := dashed; step := 1; displayStep := Some 3%float |}
                ∈ messages (parse (lit "A-->>B: 3. Done")))
    by (vm_compute; apply list_elem_of_here).
  split; [exact Hne |]. split; [exact Hin |].
  split.
  - exact (proj1 (step_markers_by_toggle _ DEFAULT_OPTS DEFAULT_LAYOUT _
                    Hne Hin)).
  - exact (proj1 (step_markers_by_toggle _
                    {| coloredLines := true; coloredNumbers := false;
                       coloredText := true; font := lit "Inter";
                       lifelineDash := lit "circle" |}
                    DEFAULT_LAYOUT _ Hne Hin)).
Defined.

(** C1 fails as stated: with the toggle off the markup of a one-message
    diagram shows the numeral once and has no numeral at x-position 22. *)
Lemma no_margin_marker_in_plain_mode :
  let d := parse (lit "A->>B: Hello") in
  let plain := {| coloredLines := true; coloredNumbers := false;
                  coloredText := true; font := lit "Inter";
                  lifelineDash := lit "circle" |} in
  participants d <> []
  /\ length (messages d) = 1
  /\ occurrences (lit ">1</text>") (buildSvg d plain DEFAULT_LAYOUT) = 1
  /\ occurrences (lit ">1</text>") (buildSvg d DEFAULT_OPTS DEFAULT_LAYOUT) = 2
  /\ forall y n e,
       numeral_at 22 y n e -> ~ occurs_in e (buildSvg d plain DEFAULT_LAYOUT).
Proof.
  cbv zeta. split; [vm_compute; discriminate |].
  split; [vm_compute; reflexivity |].
  split; [vm_compute; reflexivity |].
  split; [vm_compute; reflexivity |].
  intros y n e He Hocc.
  apply numeral_at_margin_prefix in He as [rest ->].
  apply occurs_in_includes in Hocc.
  vm_compute in Hocc. discriminate.
Qed.

(** ** The elements of a row *)

Section Rows.

(** An element, cut after its first attributes. *)
Lemma tpl_prefix (T T1 : string) (args1 args2 : list str) :
  let t := lit T in
  let t1 := lit T1 in
  take (length t1) t = t1 ->
  holes t1 = length args1 ->
  tpl T (args1 ++ args2) = tpl T1 args1 ++ fill (drop (length t1) t) args2.
Proof.
  cbv zeta. intros Htake Hholes. unfold tpl.
  rewrite <- (take_drop (length (lit T1)) (lit T)) at 1.
  rewrite Htake. apply fill_app, Hholes.
Qed.

End Rows.

(** Cuts the element of the goal after its first [n] substitutions, which
    are those of the template [T1]. *)
Ltac cut_after T1 n :=
  lazymatch goal with
  | |- tpl ?T ?args = _ =>
      let a1 := eval cbv [firstn] in (firstn n args) in
      let a2 := eval cbv [skipn] in (skipn n args) in
      exact (tpl_prefix T T1 a1 a2 eq_refl eq_refl)
  end.

Section RowsOfMessages.
Variables (o : Opts) (l : Layout).

Lemma self_message_at_row msg fx y lc tc fc :
  let es := Svg.self_message o l msg fx y lc tc fc in
  Forall (at_row l y) es
  /\ Exists (shaft_at true y) es
  /\ Exists (fun e => label_at true (coloredText o) l y e
                      /\ shows_text (text msg) e) es.
Proof.
  cbv zeta.
  assert (Hshaft : shaft_at true y
    (tpl "<path d='M$ $ H$ V$ H$' fill='none' stroke='$' stroke-width='1.5'$/>"
       [Svg.num fx; Svg.num y; Svg.num (fx + Svg.SW);
        Svg.num (y + Svg.SH); Svg.num fx; lc; Svg.dashAttr msg])).
  { eexists fx, (fx + Svg.SW)%float, _. unfold Svg.SH.
    cut_after "<path d='M$ $ H$ V$ H$'"%string 5. }
  assert (Hhead : head_at true y
    (tpl "<polygon points='$,$ $,$ $,$' fill='$'/>"
       [Svg.num fx; Svg.num (y + Svg.SH); Svg.num (fx + Svg.AH);
        Svg.num (y + Svg.SH - 5); Svg.num (fx + Svg.AH);
        Svg.num (y + Svg.SH + 5); lc])).
  { eexists fx, (fx + Svg.AH)%float, _. left. unfold tip_y, Svg.SH.
    cut_after "<polygon points='$,$ $,$ $,$'"%string 6. }
  unfold Svg.self_message. cbv zeta.
  destruct (coloredText o); cbn [app].
  - assert (Hpill : pill_at true l y
      (tpl "<rect x='$' y='$' width='$' height='$' rx='$' fill='$'/>"
         [Svg.num (fx + Svg.SW + 5);
          Svg.num (y + Svg.SH / 2 - (Svg.FS l + 8) / 2);
          Svg.num (Svg.pillW l msg); Svg.num (Svg.FS l + 8);
          Svg.num ((Svg.FS l + 8) / 2); fc])).
    { eexists (fx + Svg.SW + 5)%float, (Svg.pillW l msg), _.
      unfold pill_y, pill_height, Svg.SH, Svg.FS.
      cut_after "<rect x='$' y='$' width='$' height='$'"%string 4. }
    assert (Hlabel : label_at true true l y
      (tpl "<text x='$' y='$' text-anchor='middle' dominant-baseline='middle' font-family='$' font-size='$' font-weight='600' fill='#000000'>$</text>"
         [Svg.num (fx + Svg.SW + 5 + Svg.pillW l msg / 2);
          Svg.num (y + Svg.SH / 2 - (Svg.FS l + 8) / 2 + (Svg.FS l + 8) / 2 + 1);
          Svg.f o; Svg.num (Svg.FS l); esc (text msg)])).
    { eexists (fx + Svg.SW + 5 + Svg.pillW l msg / 2)%float, _.
      unfold label_y, pill_y, pill_height, Svg.SH, Svg.FS.
      cut_after "<text x='$' y='$'"%string 2. }
    split; [| split].
    + repeat (apply Forall_cons; split); [| | | | constructor];
        left; exists true.
      * left. exact Hshaft.
      * right. left. exact Hhead.
      * right. right. left. exact Hpill.
      * right. right. right. exists true. exact Hlabel.
    + constructor. exact Hshaft.
    + do 3 apply Exists_cons_tl. constructor. split; [exact Hlabel | shown_text].
  - assert (Hlabel : label_at true false l y
      (tpl "<text x='$' y='$' dominant-baseline='middle' font-family='$' font-size='$' fill='$'>$</text>"
         [Svg.num (fx + Svg.SW + 5); Svg.num (y + Svg.SH / 2 + 1);
          Svg.f o; Svg.num (Svg.FS l); tc; esc (text msg)])).
    { eexists (fx + Svg.SW + 5)%float, _.
      unfold label_y, Svg.SH.
      cut_after "<text x='$' y='$'"%string 2. }
    split; [| split].
    + repeat (apply Forall_cons; split); [| | | constructor];
        left; exists true.
      * left. exact Hshaft.
      * right. left. exact Hhead.
      * right. right. right. exists false. exact Hlabel.
    + constructor. exact Hshaft.
    + do 2 apply Exists_cons_tl. constructor. split; [exact Hlabel | shown_text].
Qed.

Lemma cross_message_at_row msg fx tx y lc tc fc :
  let es := Svg.cross_message o l msg fx tx y lc tc fc in
  Forall (at_row l y) es
  /\ Exists (shaft_at false y) es
  /\ Exists (fun e => label_at false (coloredText o) l y e
                      /\ shows_text (text msg) e) es.
Proof.
  cbv zeta.
  assert (Hshaft : forall x2, shaft_at false y
    (tpl "<line x1='$' y1='$' x2='$' y2='$' stroke='$' stroke-width='1.5'$/>"
       [Svg.num fx; Svg.num y; Svg.num x2; Svg.num y; lc; Svg.dashAttr msg])).
  { intros x2. eexists fx, x2, _.
    cut_after "<line x1='$' y1='$' x2='$' y2='$'"%string 4. }
  assert (Hpolygon : forall x2, head_at false y
    (tpl "<polygon points='$,$ $,$ $,$' fill='$'/>"
       [Svg.num tx; Svg.num y; Svg.num x2; Svg.num (y - 5); Svg.num x2;
        Svg.num (y + 5); lc])).
  { intros x2. eexists tx, x2, _. left. unfold tip_y.
    cut_after "<polygon points='$,$ $,$ $,$'"%string 6. }
  assert (Hpolyline : forall x2, head_at false y
    (tpl "<polyline points='$,$ $,$ $,$' fill='none' stroke='$' stroke-width='1.5'/>"
       [Svg.num x2; Svg.num (y - 5); Svg.num tx; Svg.num y; Svg.num x2;
        Svg.num (y + 5); lc])).
  { intros x2. eexists tx, x2, _. right. unfold tip_y.
    cut_after "<polyline points='$,$ $,$ $,$'"%string 6. }
  unfold Svg.cross_message. cbv zeta.
  set (dir := (if (fx <? tx)%float then 1%float else (-1)%float)).
  set (head := match arrow msg with solid => _ | dashed => _ end).
  assert (Hhead : head_at false y head).
  { subst head. destruct (arrow msg), (dir =? 1)%float;
      first [apply Hpolygon | apply Hpolyline]. }
  clearbody head dir.
  destruct (coloredText o); cbn [app].
  - assert (Hpill : pill_at false l y
      (tpl "<rect x='$' y='$' width='$' height='$' rx='$' fill='$'/>"
         [Svg.num ((fx + tx) / 2 - Svg.pillW l msg / 2);
          Svg.num (y - (Svg.FS l + 8) - 10);
          Svg.num (Svg.pillW l msg); Svg.num (Svg.FS l + 8);
          Svg.num ((Svg.FS l + 8) / 2); fc])).
    { eexists ((fx + tx) / 2 - Svg.pillW l msg / 2)%float, (Svg.pillW l msg), _.
      unfold pill_y, pill_height, Svg.FS.
      cut_after "<rect x='$' y='$' width='$' height='$'"%string 4. }
    assert (Hlabel : label_at false true l y
      (tpl "<text x='$' y='$' text-anchor='middle' dominant-baseline='middle' font-family='$' font-size='$' font-weight='600' fill='#000000'>$</text>"
         [Svg.num ((fx + tx) / 2);
          Svg.num (y - (Svg.FS l + 8) - 10 + (Svg.FS l + 8) / 2 + 1);
          Svg.f o; Svg.num (Svg.FS l); esc (text msg)])).
    { eexists ((fx + tx) / 2)%float, _.
      unfold label_y, pill_y, pill_height, Svg.FS.
      cut_after "<text x='$' y='$'"%string 2. }
    split; [| split].
    + repeat (apply Forall_cons; split); [| | | | constructor];
        left; exists false.
      * left. apply Hshaft.
      * right. left. exact Hhead.
      * right. right. left. exact Hpill.
      * right. right. right. exists true. exact Hlabel.
    + constructor. apply Hshaft.
    + do 3 apply Exists_cons_tl. constructor. split; [exact Hlabel | shown_text].
  - assert (Hlabel : label_at false false l y
      (tpl "<text x='$' y='$' text-anchor='middle' font-family='$' font-size='$' fill='$'>$</text>"
         [Svg.num ((fx + tx) / 2); Svg.num (y - 8);
          Svg.f o; Svg.num (Svg.FS l); tc; esc (text msg)])).
    { eexists ((fx + tx) / 2)%float, _. unfold label_y.
      cut_after "<text x='$' y='$'"%string 2. }
    split; [| split].
    + repeat (apply Forall_cons; split); [| | | constructor];
        left; exists false.
      * left. apply Hshaft.
      * right. left. exact Hhead.
      * right. right. right. exists false. exact Hlabel.
    + constructor. apply Hshaft.
    + do 2 apply Exists_cons_tl. constructor. split; [exact Hlabel | shown_text].
Qed.

Lemma marker_at_row msg fx y fc :
  Forall (at_row l y) (Svg.marker o msg fx y fc).
Proof.
  unfold Svg.marker. destruct (coloredNumbers o).
  - repeat (apply Forall_cons; split); [| | | | constructor]; right.
    + left. exists fx. apply circle_at_lifeline.
    + right. exists fx, (Svg.numeral msg). apply numeral_at_lifeline_badge.
    + left. exists 22%float. apply circle_at_margin.
    + right. exists 22%float, (Svg.numeral msg). apply numeral_at_margin.
  - repeat (apply Forall_cons; split); [| constructor]; right.
    right. exists fx, (Svg.numeral msg). apply numeral_at_lifeline_plain.
Qed.

(** Every element drawn for a message lies on its row, and the shaft of
    its arrow and its text are among them. *)
Lemma message_at_row d msg :
  let Y := row_y l (step msg) in
  let loop :=
    bool_decide (Svg.column d (from msg) = Svg.column d (to msg)) in
  let es := Svg.message d o l msg in
  Forall (at_row l Y) es
  /\ Exists (shaft_at loop Y) es
  /\ Exists (fun e => label_at loop (coloredText o) l Y e
                      /\ shows_text (text msg) e) es.
Proof.
  cbv zeta. unfold Svg.message. cbv zeta.
  change (Svg.msgY l (JsNumber.of_Z (step msg))) with (row_y l (step msg)).
  generalize (row_y l (step msg)). intros Y.
  rewrite Forall_app, !Exists_app.
  destruct (bool_decide _).
  - destruct (self_message_at_row msg (Svg.cx l (Svg.column d (from msg))) Y
      (if coloredLines o then Svg.color_at d (Svg.column d (from msg))
       else lit "#374151")
      (if coloredText o then Svg.color_at d (Svg.column d (from msg))
       else lit "#1e293b")
      (Svg.color_at d (Svg.column d (from msg)))) as (H1 & H2 & H3).
    split; [split; [exact H1 | apply marker_at_row] |].
    split; left; assumption.
  - destruct (cross_message_at_row msg (Svg.cx l (Svg.column d (from msg)))
      (Svg.cx l (Svg.column d (to msg))) Y
      (if coloredLines o then Svg.color_at d (Svg.column d (from msg))
       else lit "#374151")
      (if coloredText o then Svg.color_at d (Svg.column d (from msg))
       else lit "#1e293b")
      (Svg.color_at d (Svg.column d (from msg)))) as (H1 & H2 & H3).
    split; [split; [exact H1 | apply marker_at_row] |].
    split; left; assumption.
Qed.

End RowsOfMessages.

(** C8. The row of a message lies at a y-coordinate fixed by its sequence
    index and the layout, and every element drawn for the message is placed
    by that y-coordinate and the layout: the shaft and the head of its
    arrow, its text with its pill, its circles and its numerals; the shaft
    and the text are among them, and all of them are elements of the
    drawing. Two diagrams that differ in the display steps of their
    messages only are drawn with the same elements, but for the numerals
    shown by the markers, which are digits and signs and hold no
    coordinate; the root element is the same too. *)
Theorem display_step_changes_numeral_only
    (d d' : Diagram) (o : Opts) (l : Layout) :
  participants d = participants d' ->
  title d = title d' ->
  Forall2 same_but_displayStep (messages d) (messages d') ->
  (forall s, Svg.msgY l s
             = (38 + 66 + box_height l + 44 + (s - 1) * stepHeight l)%float)
  /\ (forall msg, msg ∈ messages d ->
        let Y := row_y l (step msg) in
        let loop :=
          bool_decide (Svg.column d (from msg) = Svg.column d (to msg)) in
        let es := Svg.message d o l msg in
        Forall (fun e => at_row l Y e /\ e ∈ Svg.parts d o l) es
        /\ Exists (shaft_at loop Y) es
        /\ Exists (fun e => label_at loop (coloredText o) l Y e
                            /\ shows_text (text msg) e) es)
  /\ (forall n, Forall (fun c => is_numeric_char c = true) (Svg.num n))
  /\ Forall2 same_but_numeral (Svg.parts d o l) (Svg.parts d' o l)
  /\ ((buildSvg d o l = [] /\ buildSvg d' o l = [])
      \/ exists root,
           buildSvg d o l = root ++ concat (Svg.parts d o l) ++ lit "</svg>"
           /\ buildSvg d' o l
              = root ++ concat (Svg.parts d' o l) ++ lit "</svg>").
Proof.
  intros Hp Ht Hm. split; [reflexivity |].
  split.
  { intros msg Hmsg. cbv zeta.
    destruct (message_at_row o l d msg) as (Hall & Hshaft & Hlabel).
    split; [| split; assumption].
    apply Forall_forall. intros e He. split.
    - revert e He. apply Forall_forall, Hall.
    - eapply message_part; eassumption. }
  split; [intros n; apply to_string_numeric |].
  split; [apply parts_same_but_numeral; assumption |].
  pose proof (Forall2_length _ _ _ Hm) as Hlen.
  unfold buildSvg, Svg.buildSvg, Svg.ps. rewrite <- Hp.
  destruct (bool_decide (participants d = [])); [left; auto | right].
  rewrite !root_body.
  replace (Svg.W d' l) with (Svg.W d l)
    by (unfold Svg.W, Svg.N_ps, Svg.ps; rewrite Hp; reflexivity).
  replace (Svg.H d' l) with (Svg.H d l)
    by (unfold Svg.H, Svg.ms; rewrite Hlen; reflexivity).
  eexists. split; reflexivity.
Qed.

Lemma display_step_changes_numeral_only_witness :
  let d := parse (lit "A->>B: Hello") in
  let d' := parse (lit "A->>B: 7. Hello") in
  let msg := {| from := lit "A"; to := lit "B"; text := lit "Hello";
                arrow := solid; step := 1; displayStep := None |} in
  let es := Svg.message d DEFAULT_OPTS DEFAULT_LAYOUT msg in
  participants d = participants d'
  /\ title d = title d'
  /\ Forall2 same_but_displayStep (messages d) (messages d')
  /\ msg ∈ messages d
  /\ row_y DEFAULT_LAYOUT 1 = 192%float
  /\ Forall (fun e => at_row DEFAULT_LAYOUT (row_y DEFAULT_LAYOUT 1) e
                      /\ e ∈ Svg.parts d DEFAULT_OPTS DEFAULT_LAYOUT) es
  /\ Exists (shaft_at false (row_y DEFAULT_LAYOUT 1)) es
  /\ Exists (fun e => label_at false true DEFAULT_LAYOUT
                        (row_y DEFAULT_LAYOUT 1) e
                      /\ shows_text (lit "Hello") e) es
  /\ Forall2 same_but_numeral (Svg.parts d DEFAULT_OPTS DEFAULT_LAYOUT)
       (Svg.parts d' DEFAULT_OPTS DEFAULT_LAYOUT).
Proof.
  cbv zeta.
  assert (Hp : participants (parse (lit "A->>B: Hello"))
               = participants (parse (lit "A->>B: 7. Hello")))
    by (vm_compute; reflexivity).
  assert (Ht : title (parse (lit "A->>B: Hello"))
               = title (parse (lit "A->>B: 7. Hello")))
    by (vm_compute; reflexivity).
  assert (Hm : Forall2 same_but_displayStep
                 (messages (parse (lit "A->>B: Hello")))
                 (messages (parse (lit "A->>B: 7. Hello"))))
    by (vm_compute; repeat constructor).
  assert (Hin : {| from := lit "A"; to := lit "B"; text := lit "Hello";
                   arrow := solid; step := 1; displayStep := None |}
                ∈ messages (parse (lit "A->>B: Hello")))
    by (vm_compute; apply list_elem_of_here).
  assert (Hloop : bool_decide
                    (Svg.column (parse (lit "A->>B: Hello")) (lit "A")
                     = Svg.column (parse (lit "A->>B: Hello")) (lit "B"))
                  = false)
    by (vm_compute; reflexivity).
  split; [exact Hp |]. split; [exact Ht |]. split; [exact Hm |].
  split; [exact Hin |]. split; [vm_compute; reflexivity |].
  pose proof (display_step_changes_numeral_only _ _
                DEFAULT_OPTS DEFAULT_LAYOUT Hp Ht Hm)
    as (_ & Hrow & _ & Hparts & _).
  specialize (Hrow _ Hin). cbv zeta in Hrow.
  cbn [from to text step] in Hrow. rewrite Hloop in Hrow.
  destruct Hrow as (H1 & H2 & H3).
  split; [exact H1 |]. split; [exact H2 |]. split; [exact H3 | exact Hparts].
Defined.

(** ** What [parse] returns, line by line *)

Section Parsed.

Lemma parse_messages code :
  messages (parse code) = numbered 0 (message_lines code).
Proof.
  unfold parse, result. simpl. rewrite run_lines_messages. reflexivity.
Qed.

Lemma parse_ids code :
  List.map id_ (participants (parse code)) = first_seen (mentioned code).
Proof.
  unfold parse, result. simpl.
  change (List.map id_ (st_participants (run_lines init (split_lines code))))
    with (ids (run_lines init (split_lines code))).
  rewrite run_lines_ids by apply consistent_init. reflexivity.
Qed.

Lemma parse_ids_elem code id :
  id ∈ List.map id_ (participants (parse code)) <-> id ∈ mentioned code.
Proof.
  rewrite parse_ids. unfold first_seen. rewrite fold_see_elem.
  split; [intros [H | H]; [inversion H | exact H] | tauto].
Qed.

Lemma parse_ids_NoDup code : NoDup (List.map id_ (participants (parse code))).
Proof. rewrite parse_ids. apply fold_see_NoDup, NoDup_nil_2. Qed.

Lemma numbered_elem m fs : forall n,
  m ∈ numbered n fs ->
  exists f a t r k, (f, a, t, r) ∈ fs /\ m = make_message f a t r k.
Proof.
  induction fs as [| [[[f a] t] r] fs IH]; intros n H; simpl in H;
    [inversion H |].
  apply elem_of_cons in H as [-> | H].
  - exists f, a, t, r, (n + 1)%Z. split; [apply list_elem_of_here | reflexivity].
  - apply IH in H as (f' & a' & t' & r' & k & Hin & ->).
    exists f', a', t', r', k. split; [apply list_elem_of_further, Hin | reflexivity].
Qed.

Lemma lines_of_elem ln code :
  ln ∈ lines_of code ->
  exists raw, raw ∈ split_lines code /\ classify (trim raw) = ln.
Proof.
  unfold lines_of. rewrite list_elem_of_In, in_map_iff.
  intros (raw & H1 & H2). exists raw. rewrite list_elem_of_In. auto.
Qed.

Lemma message_lines_elem f a t r code :
  (f, a, t, r) ∈ message_lines code -> Message f a t r ∈ lines_of code.
Proof.
  unfold message_lines. rewrite list_elem_of_In, in_flat_map.
  intros (ln & H1 & H2). destruct ln; simpl in H2; try contradiction.
  destruct H2 as [H2 | []]. inversion H2; subst.
  apply list_elem_of_In, H1.
Qed.

(** A message of [parse] is what a message line of the text makes. *)
Lemma parsed_message code m :
  m ∈ messages (parse code) ->
  exists f a t r k,
    Message f a t r ∈ lines_of code /\ m = make_message f a t r k.
Proof.
  rewrite parse_messages. intros H.
  apply numbered_elem in H as (f & a & t & r & k & Hin & ->).
  exists f, a, t, r, k. split; [apply message_lines_elem, Hin | reflexivity].
Qed.

Lemma mentioned_message f a t r code :
  Message f a t r ∈ lines_of code -> f ∈ mentioned code /\ t ∈ mentioned code.
Proof.
  intros H. unfold mentioned. rewrite !list_elem_of_In, !in_flat_map.
  apply list_elem_of_In in H.
  split; exists (Message f a t r); (split; [exact H |]); simpl; auto.
Qed.

End Parsed.

(** X1. Every message of [parse] runs between two registered participants:
    its source and its destination are ids of the participant list, which
    holds each id once. *)
Theorem message_endpoints_registered (code : str) :
  NoDup (List.map id_ (participants (parse code)))
  /\ Forall (fun m => from m ∈ List.map id_ (participants (parse code))
                      /\ to m ∈ List.map id_ (participants (parse code)))
       (messages (parse code)).
Proof.
  split; [apply parse_ids_NoDup |].
  apply Forall_forall. intros m Hm.
  apply parsed_message in Hm as (f & a & t & r & k & Hin & ->).
  rewrite !parse_ids_elem. simpl. eapply mentioned_message, Hin.
Qed.

(** X2. The source and the destination of every message of [parse] are
    non-empty runs of word characters (letters, digits, underscore). *)
Theorem message_endpoints_are_words (code : str) :
  Forall (fun m => from m <> [] /\ Forall (fun c => is_word c = true) (from m)
                   /\ to m <> [] /\ Forall (fun c => is_word c = true) (to m))
    (messages (parse code)).
Proof.
  apply Forall_forall. intros m Hm.
  apply parsed_message in Hm as (f & a & t & r & k & Hin & ->).
  apply lines_of_elem in Hin as (raw & _ & Hc).
  apply classify_message in Hc as (whole & mm & He & -> & _ & -> & _).
  apply message_shape in He
    as (f & ws1 & a' & ws2 & t & ws3 & txt & _ & Hfne & Hf & _ & _ & _ & Htne
        & Ht & _ & _ & E1 & _ & E3 & _).
  simpl. unfold group. rewrite E1, E3. simpl. auto.
Qed.

(** ** Trimming *)

Section Trimming.

Lemma trimStart_head s a :
  head (trimStart s) = Some a -> is_space a = false.
Proof.
  induction s as [| c s IH]; simpl; [discriminate |].
  destruct (is_space c) eqn:E; [exact IH |].
  simpl. intros [= <-]. exact E.
Qed.

Lemma trimStart_fixed s :
  (forall a, head s = Some a -> is_space a = false) -> trimStart s = s.
Proof.
  destruct s as [| c s]; [reflexivity |]. intros H. simpl.
  rewrite (H c eq_refl). reflexivity.
Qed.

Lemma last_rev_head (s : str) : last (rev s) = head s.
Proof.
  destruct s as [| c s]; [reflexivity |]. simpl. apply last_snoc.
Qed.

Lemma head_rev_last (s : str) : head (rev s) = last s.
Proof. rewrite <- (rev_involutive s) at 2. symmetry. apply last_rev_head. Qed.

Lemma trimEnd_last s a : last (trimEnd s) = Some a -> is_space a = false.
Proof. unfold trimEnd. rewrite last_rev_head. apply trimStart_head. Qed.

Lemma trimStart_split s :
  exists ws, s = ws ++ trimStart s /\ Forall (fun c => is_space c = true) ws.
Proof.
  induction s as [| c s (ws & IH & Hws)]; [exists []; auto |].
  simpl. destruct (is_space c) eqn:E.
  - exists (c :: ws). split; [simpl; f_equal; exact IH | constructor; assumption].
  - exists []. auto.
Qed.

Lemma trimEnd_split s :
  exists ws, s = trimEnd s ++ ws /\ Forall (fun c => is_space c = true) ws.
Proof.
  destruct (trimStart_split (rev s)) as (ws & H & Hws).
  exists (rev ws). split.
  - unfold trimEnd. rewrite <- rev_app_distr, <- H, rev_involutive. reflexivity.
  - apply Forall_forall. intros c Hc. rewrite Forall_forall in Hws.
    apply Hws. apply list_elem_of_In. apply list_elem_of_In in Hc.
    apply in_rev. exact Hc.
Qed.

Lemma trimEnd_head s a : head (trimEnd s) = Some a -> head s = Some a.
Proof.
  destruct (trimEnd_split s) as (ws & H & _). intros Ha.
  rewrite H. destruct (trimEnd s); [discriminate | exact Ha].
Qed.

Lemma trim_trimmed s : trimmed (trim s).
Proof.
  split; intros a Ha.
  - apply trimEnd_head in Ha. eapply trimStart_head, Ha.
  - eapply trimEnd_last, Ha.
Qed.

Lemma trimEnd_fixed s :
  (forall a, last s = Some a -> is_space a = false) -> trimEnd s = s.
Proof.
  intros H. unfold trimEnd. rewrite trimStart_fixed.
  - apply rev_involutive.
  - intros a Ha. rewrite head_rev_last in Ha. apply H, Ha.
Qed.

Lemma trimmed_trim s : trimmed s -> trim s = s.
Proof.
  intros [H1 H2]. unfold trim. rewrite (trimStart_fixed s H1).
  apply trimEnd_fixed, H2.
Qed.

(** A string that ends with something else than white space does not trim
    to nothing. *)
Lemma trim_nonempty s z :
  last s = Some z -> is_space z = false -> trim s <> [].
Proof.
  intros Hl Hz Ht.
  destruct (trimStart_split s) as (ws1 & H1 & Hws1).
  destruct (trimEnd_split (trimStart s)) as (ws2 & H2 & Hws2).
  fold (trim s) in H2. rewrite Ht in H2. simpl in H2.
  rewrite H2 in H1. rewrite H1 in Hl.
  assert (Hall : Forall (fun c => is_space c = true) (ws1 ++ ws2))
    by (apply Forall_app; auto).
  destruct (last_Some (ws1 ++ ws2) z) as [Hsome _].
  destruct (Hsome Hl) as [l' El]. rewrite El in Hall.
  apply Forall_app in Hall as [_ Hall]. inversion Hall; subst. congruence.
Qed.

Lemma make_message_text_trimmed f a t r k :
  trimmed (text (make_message f a t r k)).
Proof.
  unfold make_message. simpl.
  destruct (exec re_numPfx _) as [[? c] |]; apply trim_trimmed.
Qed.

End Trimming.

(** ** The title *)

Section Titles.

Lemma run_lines_title ls : forall st,
  st_title (run_lines st ls)
  = match last (flat_map title_of
                  (List.map (fun raw => classify (trim raw)) ls)) with
    | Some t => Some t
    | None => st_title st
    end.
Proof.
  induction ls as [| raw ls IH] using rev_ind; intros st; [reflexivity |].
  rewrite run_lines_app, List.map_app, flat_map_app. simpl.
  unfold step_line at 1.
  destruct (classify (trim raw)) eqn:E; simpl; rewrite ?app_nil_r;
    try apply IH.
  - rewrite last_snoc. reflexivity.
  - rewrite addP_title. apply IH.
  - rewrite !addP_title. apply IH.
Qed.

Lemma parse_title code : title (parse code) = last (titles code).
Proof.
  unfold parse, result. simpl. rewrite run_lines_title.
  fold (lines_of code). fold (titles code).
  destruct (last (titles code)); reflexivity.
Qed.

Lemma matches_chars_i cs : forall i s c i' s' c',
  matches (seqs (List.map chr_i cs)) i s c i' s' c' ->
  (exists w, s = w ++ s') /\ c' = c.
Proof.
  induction cs as [| a cs IH]; intros i s c i' s' c' H; simpl in H.
  - apply matches_eps_inv in H as (_ & -> & ->). split; [exists []|]; auto.
  - apply matches_seq_inv in H as (i1 & s1 & c1 & H1 & H2).
    apply matches_chr_inv in H1 as (b & Hb & -> & -> & ->).
    apply IH in H2 as ((w & ->) & ->). split; [exists (b :: w) |]; auto.
Qed.

(** What a title line captures is the non-empty end of the line. *)
Lemma title_shape l whole tm :
  exec re_title l = Some (whole, tm) ->
  exists pre g, l = pre ++ g /\ g <> [] /\ tm !! 1 = Some g.
Proof.
  unfold exec. intros H.
  destruct (search re_title 0 l) as [[[[b e] w] c] |] eqn:Hs; [| discriminate].
  inversion H; subst w c. clear H.
  apply search_sound in Hs as (_ & _ & s' & Hm).
  rewrite Nat.sub_0_r in Hm.
  cbv [re_title seqs foldr] in Hm.
  apply matches_seq_inv in Hm as (i0 & s0 & c0 & H0 & Hm).
  apply matches_bol_inv in H0 as (Hb & Hi0 & Hs0 & Hc0). subst b i0 s0 c0.
  rewrite drop_0 in Hm.
  apply matches_seq_inv in Hm as (i1 & s1 & c1 & H1 & Hm).
  apply matches_chars_i in H1 as ((w1 & Hl1) & ->).
  apply matches_seq_inv in Hm as (i2 & s2 & c2 & H2 & Hm).
  apply matches_star_chr in H2 as (ws & Hws & _ & ->).
  apply matches_seq_inv in Hm as (i3 & s3 & c3 & H3 & Hm).
  apply matches_grp_inv in H3 as (g & c3' & H3 & Hl & Hi3 & Hc3).
  apply matches_plus_chr in H3 as (g' & Hg & Hgne & _ & ->).
  rewrite Hl in Hg. apply app_inv_tail in Hg. subst g'.
  apply matches_seq_inv in Hm as (i4 & s4 & c4 & H4 & Hm).
  apply matches_eol_inv in H4 as (Hs3 & _ & -> & ->).
  apply matches_eps_inv in Hm as (_ & _ & ->).
  subst. exists (w1 ++ ws), g. rewrite app_nil_r, <- app_assoc.
  split; [reflexivity |]. split; [assumption |]. by simplify_map_eq.
Qed.

Lemma classify_title l t :
  classify l = Title t ->
  exists whole tm, exec re_title l = Some (whole, tm) /\ t = trim (group tm 1).
Proof.
  unfold classify. intros H.
  destruct (bool_decide (l = []) || test re_skip l)%bool; [discriminate |].
  destruct (exec re_title l) as [[whole tm] |].
  - inversion H; subst. eauto.
  - destruct (exec re_participant l) as [[? ?] |]; [discriminate |].
    destruct (exec re_message l) as [[? ?] |]; discriminate.
Qed.

Lemma title_line_nonempty raw t :
  classify (trim raw) = Title t -> t <> [] /\ trimmed t.
Proof.
  intros H. apply classify_title in H as (whole & tm & He & ->).
  split; [| apply trim_trimmed].
  apply title_shape in He as (pre & g & Hl & Hg & E1).
  unfold group. rewrite E1. simpl.
  destruct (last g) as [z |] eqn:Ez;
    [| apply last_None in Ez; contradiction].
  apply (trim_nonempty g z Ez).
  destruct (trim_trimmed raw) as [_ Hlast]. apply Hlast.
  rewrite Hl. rewrite last_app, Ez. reflexivity.
Qed.

Lemma titles_elem t code :
  t ∈ titles code -> exists raw, classify (trim raw) = Title t.
Proof.
  unfold titles. rewrite list_elem_of_In, in_flat_map.
  intros (ln & H1 & H2). destruct ln; simpl in H2; try contradiction.
  destruct H2 as [-> | []].
  apply list_elem_of_In, lines_of_elem in H1 as (raw & _ & H). eauto.
Qed.

End Titles.

(** X3. The title of [parse] is that of the last title line of the text,
    and undefined when the text has none; a title is never empty and has no
    white space at its ends. *)
Theorem title_is_last_title_line (code : str) :
  title (parse code) = last (titles code)
  /\ (titles code = [] -> title (parse code) = None)
  /\ forall t, title (parse code) = Some t -> t <> [] /\ trimmed t.
Proof.
  split; [apply parse_title |]. split.
  - intros H. rewrite parse_title, H. reflexivity.
  - intros t Ht. rewrite parse_title in Ht.
    assert (Hin : t ∈ titles code).
    { apply last_Some in Ht as [l' ->]. apply elem_of_app. right.
      apply list_elem_of_here. }
    apply titles_elem in Hin as (raw & Hc).
    eapply title_line_nonempty, Hc.
Qed.

(** X4. The text of every message of [parse] has no white space at its
    ends: trimming it again changes nothing. *)
Theorem message_text_is_trimmed (code : str) :
  Forall (fun m => trimmed (text m) /\ trim (text m) = text m)
    (messages (parse code)).
Proof.
  apply Forall_forall. intros m Hm.
  apply parsed_message in Hm as (f & a & t & r & k & _ & ->).
  pose proof (make_message_text_trimmed f a t r k) as H.
  split; [exact H | apply trimmed_trim, H].
Qed.

(** ** Colors *)

Section Palette.

Lemma palette_cycled_init : palette_cycled init.
Proof. split; [reflexivity |]. intros k p H. inversion H. Qed.

Lemma addP_palette id lbl st : palette_cycled st -> palette_cycled (addP id lbl st).
Proof.
  intros [Hci Hcol]. unfold addP.
  destruct (decide (is_Some (st_map st !! id))); [split; assumption |].
  split; cbn [st_ci st_participants].
  - rewrite length_app. cbn [length]. lia.
  - intros k p Hk. apply lookup_app_Some in Hk as [Hk | [Hlen Hk]].
    + apply Hcol, Hk.
    + apply list_lookup_singleton_Some in Hk as [Hk <-]. cbn [color].
      replace k with (st_ci st) by lia. reflexivity.
Qed.

Lemma step_line_palette st raw :
  palette_cycled st -> palette_cycled (step_line st raw).
Proof.
  intros H. unfold step_line. destruct (classify (trim raw)); try exact H.
  - apply addP_palette, H.
  - exact (addP_palette tId None _ (addP_palette fId None _ H)).
Qed.

Lemma run_lines_palette ls : forall st,
  palette_cycled st -> palette_cycled (run_lines st ls).
Proof.
  induction ls as [| raw ls IH]; intros st H; [exact H |].
  apply IH, step_line_palette, H.
Qed.

End Palette.

(** X5. The k-th participant of [parse], counted from 0, has the color at
    index [k mod 12] of the palette: colors are handed out in order of first
    appearance and start over after the twelfth; no participant is left
    without a color. *)
Theorem colors_cycle_through_palette (code : str) (k : nat) (p : Participant) :
  participants (parse code) !! k = Some p ->
  PAL !! (k mod 12) = Some (color p) /\ color p ∈ PAL.
Proof.
  intros Hk.
  destruct (run_lines_palette (split_lines code) init palette_cycled_init)
    as [_ Hcol].
  specialize (Hcol k p Hk). change (length PAL) with 12 in Hcol.
  assert (Hlt : k mod 12 < length PAL)
    by (change (length PAL) with 12; apply Nat.mod_upper_bound; lia).
  apply lookup_lt_is_Some in Hlt as [c Hc].
  rewrite (nth_lookup_Some _ _ [] _ Hc) in Hcol. subst c.
  split; [exact Hc | eapply list_elem_of_lookup_2, Hc].
Qed.

Lemma colors_cycle_through_palette_witness :
  let code := lit "A->>B: hi" in
  participants (parse code) !! 1
  = Some {| id_ := lit "B"; label := lit "B"; color := lit "#f97316" |}
  /\ PAL !! (1 mod 12) = Some (lit "#f97316").
Proof.
  cbv zeta.
  assert (H : participants (parse (lit "A->>B: hi")) !! 1
              = Some {| id_ := lit "B"; label := lit "B";
                        color := lit "#f97316" |})
    by (vm_compute; reflexivity).
  split; [exact H |].
  exact (proj1 (colors_cycle_through_palette _ _ _ H)).
Defined.

(** ** Labels *)

Section Labels.

(** A pattern that begins with a character does not match at another
    one. *)
Lemma match_at_first c r1 r2 i a s :
  a <> c -> match_at (Seq (Seq (chr c) r1) r2) i (a :: s) = None.
Proof.
  intros H. unfold match_at. cbn [run chr].
  rewrite (proj2 (N.eqb_neq c a)) by congruence. reflexivity.
Qed.

(** The bracket pattern finds nothing in a text without opening bracket. *)
Lemma search_bracket_none s : forall i,
  Forall (fun c => c <> 91%N) s -> search re_bracket i s = None.
Proof.
  induction s as [| a s IH]; intros i H; [reflexivity |].
  inversion H as [| ? ? Ha Hs]; subst.
  cbn [search].
  change re_bracket
    with (Seq (Seq (chr 91) Eps) (seqs [Grp 1 (plus_lazy dot); word "]"])) at 1.
  rewrite match_at_first by exact Ha. apply IH, Hs.
Qed.

Lemma display_label_plain id :
  Forall (fun c => c <> 91%N) id -> display_label id None = id.
Proof.
  intros H. unfold display_label, replace_all. simpl.
  rewrite search_bracket_none by exact H. reflexivity.
Qed.

Lemma word_not_bracket (s : str) :
  Forall (fun c => is_word c = true) s -> Forall (fun c => c <> 91%N) s.
Proof.
  intros H. eapply Forall_impl; [exact H |]. intros c Hc ->. discriminate.
Qed.

Lemma labelled_by_more seen seen' p :
  labelled_by seen p -> labelled_by (seen ++ seen') p.
Proof.
  intros [H | (lbl & Hin & H)]; [left; exact H | right].
  exists lbl. split; [apply elem_of_app; left; exact Hin | exact H].
Qed.

Lemma addP_participants id lbl st p :
  p ∈ st_participants (addP id lbl st) ->
  p ∈ st_participants st
  \/ p = {| id_ := id; color := nth (st_ci st mod length PAL) PAL [];
            label := display_label id lbl |}.
Proof.
  unfold addP. destruct (decide (is_Some (st_map st !! id))); [auto |].
  simpl. rewrite elem_of_app, list_elem_of_singleton. auto.
Qed.

Lemma step_line_labels seen st raw :
  Forall (labelled_by seen) (st_participants st) ->
  Forall (labelled_by (seen ++ [classify (trim raw)]))
    (st_participants (step_line st raw)).
Proof.
  intros H.
  assert (Hold : forall p, p ∈ st_participants st ->
            labelled_by (seen ++ [classify (trim raw)]) p).
  { intros p Hp. apply labelled_by_more. rewrite Forall_forall in H. auto. }
  apply Forall_forall. intros p Hp. unfold step_line in Hp.
  destruct (classify (trim raw)) eqn:E; simpl in Hp; try (apply Hold, Hp).
  - apply addP_participants in Hp as [Hp | ->]; [apply Hold, Hp |].
    right. exists lbl. split; [| reflexivity].
    apply elem_of_app. right. apply list_elem_of_here.
  - apply classify_message in E as (whole & mm & He & -> & _ & -> & _).
    apply message_shape in He
      as (f & ws1 & a' & ws2 & t & ws3 & txt & _ & _ & Hf & _ & _ & _ & _
          & Ht & _ & _ & E1 & _ & E3 & _).
    unfold group in Hp. rewrite E1, E3 in Hp. simpl in Hp.
    apply addP_participants in Hp as [Hp | ->].
    + apply addP_participants in Hp as [Hp | ->]; [apply Hold, Hp |].
      left. simpl. apply display_label_plain, word_not_bracket, Hf.
    + left. simpl. apply display_label_plain, word_not_bracket, Ht.
Qed.

Lemma run_lines_labels ls : forall seen st,
  Forall (labelled_by seen) (st_participants st) ->
  Forall (labelled_by (seen ++ List.map (fun raw => classify (trim raw)) ls))
    (st_participants (run_lines st ls)).
Proof.
  induction ls as [| raw ls IH]; intros seen st H; simpl.
  - rewrite app_nil_r. exact H.
  - change (fold_left step_line ls (step_line st raw))
      with (run_lines (step_line st raw) ls).
    rewrite (cons_middle _ seen), app_assoc.
    apply IH, step_line_labels, H.
Qed.

End Labels.

(** X6. The label of a participant of [parse] is its id, unless the text
    declares the id: then it may be what the declaration makes of its alias
    (or of the id), brackets turned into parentheses. So a participant that
    only message lines mention is labelled by its id. *)
Theorem undeclared_participant_labelled_by_id (code : str) :
  Forall (fun p =>
            labelled_by (lines_of code) p
            /\ ((forall lbl, ParticipantDecl (id_ p) lbl ∉ lines_of code) ->
                label p = id_ p))
    (participants (parse code)).
Proof.
  pose proof (run_lines_labels (split_lines code) [] init (Forall_nil_2 _)) as H.
  simpl in H. fold (lines_of code) in H.
  eapply Forall_impl; [exact H |]. intros p Hp. split; [exact Hp |].
  intros Hno. destruct Hp as [Hp | (lbl & Hin & _)]; [exact Hp |].
  exfalso. eapply Hno, Hin.
Qed.

(** ** Lines that leave the state alone, and texts that grow *)

Section Stability.

Lemma untitled_addP id lbl st st' :
  untitled st = untitled st' ->
  untitled (addP id lbl st) = untitled (addP id lbl st').
Proof.
  destruct st as [ps1 mp1 ms1 n1 ci1 t1], st' as [ps2 mp2 ms2 n2 ci2 t2].
  unfold untitled. cbn [st_participants st_map st_messages st_step st_ci].
  intros [= -> -> -> -> ->].
  unfold addP. cbn [st_participants st_map st_messages st_step st_ci].
  destruct (decide _); reflexivity.
Qed.

Lemma untitled_step st st' raw :
  untitled st = untitled st' ->
  untitled (step_line st raw) = untitled (step_line st' raw).
Proof.
  intros H. unfold step_line. destruct (classify (trim raw)).
  - exact H.
  - exact H.
  - apply untitled_addP, H.
  - pose proof (untitled_addP tId None _ _ (untitled_addP fId None _ _ H)) as H2.
    unfold untitled in *.
    cbn [st_participants st_map st_messages st_step st_ci].
    injection H2 as -> -> -> -> ->. reflexivity.
  - exact H.
Qed.

Lemma untitled_run ls : forall st st',
  untitled st = untitled st' ->
  untitled (run_lines st ls) = untitled (run_lines st' ls).
Proof.
  induction ls as [| raw ls IH]; intros st st' H; [exact H |].
  apply IH, untitled_step, H.
Qed.

Lemma untitled_title_line st raw t :
  classify (trim raw) = Title t -> untitled (step_line st raw) = untitled st.
Proof. intros H. unfold step_line. rewrite H. reflexivity. Qed.

Lemma addP_extends id lbl st :
  st_participants st `prefix_of` st_participants (addP id lbl st).
Proof.
  unfold addP. destruct (decide _); [reflexivity |]. simpl.
  apply prefix_app_r. reflexivity.
Qed.

Lemma step_line_extends st raw :
  st_participants st `prefix_of` st_participants (step_line st raw)
  /\ st_messages st `prefix_of` st_messages (step_line st raw).
Proof.
  unfold step_line. destruct (classify (trim raw)); simpl;
    try (split; reflexivity).
  - split; [apply addP_extends | rewrite addP_messages; reflexivity].
  - split.
    + etrans; apply addP_extends.
    + rewrite !addP_messages. apply prefix_app_r. reflexivity.
Qed.

Lemma run_lines_extends ls : forall st,
  st_participants st `prefix_of` st_participants (run_lines st ls)
  /\ st_messages st `prefix_of` st_messages (run_lines st ls).
Proof.
  induction ls as [| raw ls IH]; intros st; [split; reflexivity |].
  destruct (step_line_extends st raw) as [H1 H2].
  destruct (IH (step_line st raw)) as [H3 H4].
  split; etrans; eassumption.
Qed.

Lemma step_line_known st raw :
  consistent st ->
  Forall (fun id => id ∈ ids st) (refs (classify (trim raw))) ->
  st_participants (step_line st raw) = st_participants st.
Proof.
  intros Hc H. unfold step_line.
  destruct (classify (trim raw)); simpl in *; try reflexivity.
  - inversion H; subst. rewrite addP_known by assumption. reflexivity.
  - inversion H as [| ? ? Hf H']; subst. inversion H' as [| ? ? Ht _]; subst.
    rewrite (addP_known fId) by assumption.
    rewrite addP_known by assumption. reflexivity.
Qed.

Lemma run_lines_known ls : forall st,
  consistent st ->
  Forall (fun id => id ∈ ids st)
    (flat_map refs (List.map (fun raw => classify (trim raw)) ls)) ->
  st_participants (run_lines st ls) = st_participants st.
Proof.
  induction ls as [| raw ls IH]; intros st Hc H; [reflexivity |].
  simpl in H. apply Forall_app in H as [H1 H2].
  pose proof (step_line_known st raw Hc H1) as Hs.
  change (st_participants (run_lines (step_line st raw) ls) = st_participants st).
  rewrite <- Hs. apply IH; [apply step_line_consistent, Hc |].
  unfold ids. rewrite Hs. exact H2.
Qed.

End Stability.

(** X7. A line that [parse] skips or does not recognize can be put anywhere
    in a text, or taken out, without any change to the diagram; a title
    line changes the title at most, never the participants or the
    messages. *)
Theorem line_without_effect (a b ln : str) :
  split_lines ln = [ln] ->
  (classify (trim ln) = Skip \/ classify (trim ln) = Unrecognized ->
   parse (a ++ [10%N] ++ ln ++ [10%N] ++ b) = parse (a ++ [10%N] ++ b)
   /\ parse (a ++ [10%N] ++ ln) = parse a
   /\ parse (ln ++ [10%N] ++ b) = parse b)
  /\ (forall t, classify (trim ln) = Title t ->
      let d := parse (a ++ [10%N] ++ ln ++ [10%N] ++ b) in
      participants d = participants (parse (a ++ [10%N] ++ b))
      /\ messages d = messages (parse (a ++ [10%N] ++ b))).
Proof.
  intros Hline. split.
  - intros Hc.
    assert (Hnoop : forall st, step_line st ln = st).
    { intros st. unfold step_line. destruct Hc as [-> | ->]; reflexivity. }
    unfold parse. simpl.
    rewrite !split_lines_app, Hline, !run_lines_app. simpl.
    rewrite !Hnoop. auto.
  - intros t Hc. cbv zeta.
    assert (Hu : untitled (run_lines init (split_lines (a ++ [10%N] ++ ln ++ [10%N] ++ b)))
                 = untitled (run_lines init (split_lines (a ++ [10%N] ++ b)))).
    { simpl. rewrite !split_lines_app, Hline, !run_lines_app. simpl.
      apply untitled_run, (untitled_title_line _ _ t), Hc. }
    unfold parse, result. simpl. unfold untitled in Hu.
    inversion Hu as [[H1 H2 H3 H4 H5]]. auto.
Qed.

Lemma line_without_effect_witness :
  let a := lit "A->>B: hi" in
  let b := lit "B-->>A: yo" in
  let ln := lit "note over A: thinking" in
  split_lines ln = [ln]
  /\ classify (trim ln) = Unrecognized
  /\ parse (a ++ [10%N] ++ ln ++ [10%N] ++ b) = parse (a ++ [10%N] ++ b).
Proof.
  cbv zeta.
  assert (H1 : split_lines (lit "note over A: thinking")
               = [lit "note over A: thinking"]) by (vm_compute; reflexivity).
  assert (H2 : classify (trim (lit "note over A: thinking")) = Unrecognized)
    by (vm_compute; reflexivity).
  split; [exact H1 |]. split; [exact H2 |].
  exact (proj1 (proj1 (line_without_effect (lit "A->>B: hi") (lit "B-->>A: yo")
                         _ H1) (or_intror H2))).
Defined.

(** X8. Text added after the end of a text leaves what was parsed in
    place: the participants and the messages of the shorter text are the
    first participants and messages of the longer one, with their colors,
    labels and sequence indices; and when the added text mentions known ids
    only, the participants are the same. *)
Theorem appended_text_extends_diagram (a b : str) :
  participants (parse a) `prefix_of` participants (parse (a ++ [10%N] ++ b))
  /\ messages (parse a) `prefix_of` messages (parse (a ++ [10%N] ++ b))
  /\ (Forall (fun id => id ∈ List.map id_ (participants (parse a)))
        (mentioned b) ->
      participants (parse (a ++ [10%N] ++ b)) = participants (parse a)).
Proof.
  unfold parse, result. simpl.
  rewrite split_lines_app, run_lines_app.
  destruct (run_lines_extends (split_lines b) (run_lines init (split_lines a)))
    as [H1 H2].
  split; [exact H1 |]. split; [exact H2 |].
  intros H. apply run_lines_known;
    [apply run_lines_consistent, consistent_init | exact H].
Qed.

(** ** More on escaping *)

Section EscapingMore.

Lemma esc_char_plain c : is_special c = false -> esc_char c = [c].
Proof.
  unfold is_special, esc_char. intros H.
  apply orb_false_iff in H as [H H4]. apply orb_false_iff in H as [H H3].
  apply orb_false_iff in H as [H1 H2]. rewrite H1, H2, H3, H4. reflexivity.
Qed.

Lemma esc_char_special c : is_special c = true -> 2 <= length (esc_char c).
Proof.
  unfold is_special, esc_char. intros H.
  destruct (N.eqb c 38); [vm_compute; lia |].
  destruct (N.eqb c 60); [vm_compute; lia |].
  destruct (N.eqb c 62); [vm_compute; lia |].
  destruct (N.eqb c 34); [vm_compute; lia | discriminate].
Qed.

Lemma esc_char_length c : 1 <= length (esc_char c).
Proof.
  destruct (is_special c) eqn:E.
  - apply esc_char_special in E. lia.
  - rewrite esc_char_plain by exact E. simpl. lia.
Qed.

(** The entities form a prefix code: what follows an escaped character
    cannot make it read as another one. *)
Lemma esc_char_inj a b x y :
  esc_char a ++ x = esc_char b ++ y -> a = b /\ x = y.
Proof.
  unfold esc_char.
  destruct (N.eqb_spec a 38) as [-> | A1]; [| destruct (N.eqb_spec a 60) as [-> | A2];
    [| destruct (N.eqb_spec a 62) as [-> | A3];
       [| destruct (N.eqb_spec a 34) as [-> | A4]]]];
  (destruct (N.eqb_spec b 38) as [-> | B1]; [| destruct (N.eqb_spec b 60) as [-> | B2];
    [| destruct (N.eqb_spec b 62) as [-> | B3];
       [| destruct (N.eqb_spec b 34) as [-> | B4]]]]);
  eval_lit; cbn [app]; intros H; try discriminate H;
  try (injection H as H; subst; try congruence; split; congruence).
Qed.

Lemma esc_inj s : forall t, esc s = esc t -> s = t.
Proof.
  intros t. rewrite !esc_chars. revert t.
  induction s as [| a s IH]; intros [| b t] H; simpl in H.
  - reflexivity.
  - pose proof (esc_char_length b) as Hb. apply (f_equal length) in H.
    rewrite length_app in H. simpl in H. lia.
  - pose proof (esc_char_length a) as Ha. apply (f_equal length) in H.
    rewrite length_app in H. simpl in H. lia.
  - apply esc_char_inj in H as [-> H]. f_equal. apply IH, H.
Qed.

Lemma esc_app a b : esc (a ++ b) = esc a ++ esc b.
Proof. rewrite !esc_chars. apply flat_map_app. Qed.

Lemma esc_length s :
  length s <= length (esc s)
  /\ (length (esc s) = length s -> Forall (fun c => is_special c = false) s).
Proof.
  rewrite esc_chars. induction s as [| a s [IH1 IH2]]; simpl;
    [split; [lia | constructor] |].
  rewrite length_app. pose proof (esc_char_length a) as Ha.
  split; [lia |]. intros H.
  destruct (is_special a) eqn:E.
  - apply esc_char_special in E. lia.
  - constructor; [exact E |]. apply IH2.
    rewrite esc_char_plain in H by exact E. simpl in H. lia.
Qed.

Lemma esc_plain s : Forall (fun c => is_special c = false) s -> esc s = s.
Proof.
  rewrite esc_chars. induction 1 as [| a s Ha _ IH]; simpl; [reflexivity |].
  rewrite esc_char_plain by exact Ha. rewrite IH. reflexivity.
Qed.

End EscapingMore.

(** X9. [esc] loses nothing: two texts with the same escaped form are the
    same text; and it works piece by piece: the escaped form of a
    concatenation is the concatenation of the escaped forms. *)
Theorem esc_is_injective (s t a b : str) :
  (esc s = esc t <-> s = t) /\ esc (a ++ b) = esc a ++ esc b.
Proof.
  split; [split; [apply esc_inj | intros ->; reflexivity] | apply esc_app].
Qed.

(** X10. [esc] never shortens a text, and it returns the text unchanged
    exactly when the text holds no ampersand, angle bracket or double
    quote. *)
Theorem esc_identity_on_plain_text (s : str) :
  length s <= length (esc s)
  /\ (esc s = s <-> Forall (fun c => is_special c = false) s).
Proof.
  destruct (esc_length s) as [H1 H2]. split; [exact H1 |].
  split; [intros H; apply H2; rewrite H; reflexivity | apply esc_plain].
Qed.

(** ** The column of a participant *)

Section ColumnLookup.
Variable d : Diagram.

Lemma fold_insert_lookup_notin (es : list (str * nat)) :
  forall (m : gmap str nat) k,
  (forall v, (k, v) ∉ es) ->
  fold_left (fun m e => <[e.1 := e.2]> m) es m !! k = m !! k.
Proof.
  induction es as [| [k' v'] es IH]; intros m k H; simpl; [reflexivity |].
  rewrite IH.
  - apply lookup_insert_ne. intros ->. apply (H v'), list_elem_of_here.
  - intros v Hv. apply (H v), list_elem_of_further, Hv.
Qed.

Lemma fold_insert_lookup_in (es : list (str * nat)) :
  forall (m : gmap str nat) k v,
  (k, v) ∈ es -> (forall v', (k, v') ∈ es -> v' = v) ->
  fold_left (fun m e => <[e.1 := e.2]> m) es m !! k = Some v.
Proof.
  induction es as [| [k' v'] es IH]; intros m k v Hin Hfun; [inversion Hin |].
  simpl. destruct (decide ((k, v) ∈ es)) as [Hes | Hes].
  - apply IH; [exact Hes |]. intros v'' Hv''.
    apply Hfun, list_elem_of_further, Hv''.
  - apply elem_of_cons in Hin as [[= <- <-] | Hin]; [| contradiction].
    rewrite fold_insert_lookup_notin.
    + apply lookup_insert_eq.
    + intros v'' Hv''.
      assert (v'' = v) by (apply Hfun, list_elem_of_further, Hv''). subst v''.
      contradiction.
Qed.

Lemma idx_unknown id :
  id ∉ List.map id_ (participants d) -> Svg.idx d !! id = None.
Proof.
  intros Hid. destruct (Svg.idx d !! id) as [i |] eqn:E; [| reflexivity].
  exfalso. apply Hid. unfold Svg.idx, Svg.ps in E.
  apply fold_insert_lookup in E as [E | E];
    [rewrite lookup_empty in E; discriminate |].
  apply elem_of_lookup_imap in E as (j & p & Heq & Hj).
  inversion Heq; subst.
  apply list_elem_of_In, in_map, list_elem_of_In.
  eapply list_elem_of_lookup_2, Hj.
Qed.

Lemma idx_known k p :
  NoDup (List.map id_ (participants d)) ->
  participants d !! k = Some p -> Svg.idx d !! id_ p = Some k.
Proof.
  intros Hnd Hk. unfold Svg.idx, Svg.ps. apply fold_insert_lookup_in.
  - apply elem_of_lookup_imap. exists k, p. auto.
  - intros k' Hk'. apply elem_of_lookup_imap in Hk' as (j & q & Heq & Hj).
    inversion Heq as [[Hid Hkj]]. subst k'.
    assert (H1 : List.map id_ (participants d) !! k = Some (id_ p)).
    { change (List.map id_ (participants d)) with (id_ <$> participants d).
      rewrite list_lookup_fmap, Hk. reflexivity. }
    assert (H2 : List.map id_ (participants d) !! j = Some (id_ p)).
    { change (List.map id_ (participants d)) with (id_ <$> participants d).
      rewrite list_lookup_fmap, Hj, Hid. reflexivity. }
    eapply NoDup_lookup; eassumption.
Qed.

Lemma column_known k p :
  NoDup (List.map id_ (participants d)) ->
  participants d !! k = Some p -> Svg.column d (id_ p) = k.
Proof.
  intros Hnd Hk. unfold Svg.column. rewrite (idx_known k p Hnd Hk). reflexivity.
Qed.

End ColumnLookup.

(** X11. In a diagram whose participant ids are distinct, the column
    [buildSvg] looks up for the id of the k-th participant is k, and the
    color it reads there is that participant's; an id that no participant
    has falls back to column 0. *)
Theorem column_of_participant (d : Diagram) :
  NoDup (List.map id_ (participants d)) ->
  (forall k p, participants d !! k = Some p ->
     Svg.column d (id_ p) = k
     /\ Svg.color_at d (Svg.column d (id_ p)) = color p)
  /\ (forall id, id ∉ List.map id_ (participants d) -> Svg.column d id = 0).
Proof.
  intros Hnd. split.
  - intros k p Hk. rewrite (column_known d k p Hnd Hk).
    split; [reflexivity |]. unfold Svg.color_at, Svg.ps. rewrite Hk. reflexivity.
  - intros id Hid. unfold Svg.column. rewrite idx_unknown by exact Hid.
    reflexivity.
Qed.

Lemma column_of_participant_witness :
  let d := parse (lit "A->>B: hi") in
  NoDup (List.map id_ (participants d))
  /\ Svg.column d (lit "B") = 1
  /\ Svg.column d (lit "C") = 0.
Proof.
  cbv zeta.
  assert (Hnd : NoDup (List.map id_ (participants (parse (lit "A->>B: hi")))))
    by apply parse_ids_NoDup.
  destruct (column_of_participant _ Hnd) as [H1 H2].
  split; [exact Hnd |]. split.
  - refine (proj1 (H1 1
      {| id_ := lit "B"; label := lit "B"; color := lit "#f97316" |} _)).
    vm_compute. reflexivity.
  - apply H2. vm_compute. intros H.
    repeat (apply elem_of_cons in H as [H | H]; [discriminate H |]).
    inversion H.
Defined.

(** X12. Every message of a parsed text is drawn between the columns of
    its own source and destination: the lookups of [buildSvg] find the two
    participants, never the fallback, and the self-message branch is taken
    exactly when source and destination are the same id. *)
Theorem parsed_message_in_own_columns (code : str) :
  let d := parse code in
  Forall (fun m =>
            id_ <$> participants d !! Svg.column d (from m) = Some (from m)
            /\ id_ <$> participants d !! Svg.column d (to m) = Some (to m)
            /\ (Svg.column d (from m) = Svg.column d (to m) <-> from m = to m))
    (messages d).
Proof.
  cbv zeta. apply Forall_forall. intros m Hm.
  assert (Hf : from m ∈ List.map id_ (participants (parse code))
               /\ to m ∈ List.map id_ (participants (parse code))).
  { apply parsed_message in Hm as (f & a & t & r & k & Hin & ->).
    rewrite !parse_ids_elem. simpl. eapply mentioned_message, Hin. }
  destruct Hf as [Hf Ht].
  assert (Hcol : forall id, id ∈ List.map id_ (participants (parse code)) ->
            id_ <$> participants (parse code) !! Svg.column (parse code) id
            = Some id).
  { intros id Hid. apply list_elem_of_In, in_map_iff in Hid as (p & <- & Hp).
    apply list_elem_of_In, list_elem_of_lookup in Hp as [k Hk].
    rewrite (column_known _ k p (parse_ids_NoDup code) Hk), Hk. reflexivity. }
  pose proof (Hcol _ Hf) as H1. pose proof (Hcol _ Ht) as H2.
  split; [exact H1 |]. split; [exact H2 |]. split.
  - intros E. rewrite E in H1. congruence.
  - intros E. rewrite E. reflexivity.
Qed.

(** X13. The markup of a parsed text is empty exactly when no line of the
    text declares a participant or carries a message. *)
Theorem markup_empty_iff_nothing_mentioned
    (code : str) (o : Opts) (l : Layout) :
  buildSvg (parse code) o l = [] <-> mentioned code = [].
Proof.
  assert (Hps : participants (parse code) = [] <-> mentioned code = []).
  { split; intros H.
    - destruct (mentioned code) as [| id rest] eqn:E; [reflexivity |].
      assert (Hin : id ∈ List.map id_ (participants (parse code)))
        by (apply parse_ids_elem; rewrite E; apply list_elem_of_here).
      rewrite H in Hin. inversion Hin.
    - pose proof (parse_ids code) as Hids. rewrite H in Hids.
      destruct (participants (parse code)); [reflexivity | discriminate]. }
  rewrite <- Hps. unfold buildSvg, Svg.buildSvg, Svg.ps.
  destruct (participants (parse code)) as [| p ps]; [split; reflexivity |].
  rewrite bool_decide_eq_false_2 by discriminate. eval_tpl.
  split; discriminate.
Qed.

(** ** Lifeline patterns *)

Section Dashes.
Variables (d : Diagram) (l : Layout).

Lemma buildSvg_ld o o' :
  coloredLines o = coloredLines o' -> coloredNumbers o = coloredNumbers o' ->
  coloredText o = coloredText o' -> font o = font o' ->
  Svg.ld o = Svg.ld o' ->
  Svg.parts d o l = Svg.parts d o' l.
Proof.
  destruct o as [cl cn ct fo k], o' as [cl' cn' ct' fo' k'].
  cbn [coloredLines coloredNumbers coloredText font].
  intros <- <- <- <- Hld.
  unfold Svg.parts, Svg.canvas, Svg.lifeline, Svg.box, Svg.message,
    Svg.self_message, Svg.cross_message, Svg.marker, Svg.f,
    Svg.lifelineSW, Svg.lifelineCapAttr.
  cbn [coloredLines coloredNumbers coloredText font].
  rewrite Hld. reflexivity.
Qed.

Lemma LIFELINE_DASH_unknown key :
  key ∉ (dash_names ++ inherited_keys) -> LIFELINE_DASH key = None.
Proof.
  intros H. unfold LIFELINE_DASH.
  rewrite elem_of_app in H. unfold dash_names in H.
  rewrite !elem_of_cons in H.
  repeat (rewrite bool_decide_eq_false_2 by (intros E; apply H; tauto)).
  reflexivity.
Qed.

End Dashes.

(** X14. A lifeline pattern that is neither a name of the dash table nor
    a property name every object inherits is drawn as the pattern
    [circle]: the markup is the same, code unit for code unit. *)
Theorem unknown_dash_drawn_as_circle (d : Diagram) (o : Opts) (l : Layout) :
  lifelineDash o ∉ (dash_names ++ inherited_keys) ->
  buildSvg d o l = buildSvg d (with_lifelineDash (lit "circle") o) l.
Proof.
  intros H. unfold buildSvg, Svg.buildSvg.
  rewrite (buildSvg_ld d l o (with_lifelineDash (lit "circle") o));
    try reflexivity.
  unfold Svg.ld. rewrite (LIFELINE_DASH_unknown _ H). reflexivity.
Qed.

Lemma unknown_dash_drawn_as_circle_witness :
  let d := parse (lit "A->>B: hi") in
  let o := with_lifelineDash (lit "dashed") DEFAULT_OPTS in
  (lifelineDash o ∉ (dash_names ++ inherited_keys))
  /\ buildSvg d o DEFAULT_LAYOUT = buildSvg d DEFAULT_OPTS DEFAULT_LAYOUT.
Proof.
  cbv zeta.
  assert (H : lifelineDash (with_lifelineDash (lit "dashed") DEFAULT_OPTS)
              ∉ (dash_names ++ inherited_keys)).
  { vm_compute. intros H.
    repeat (apply elem_of_cons in H as [H | H]; [discriminate H |]).
    inversion H. }
  split; [exact H |].
  exact (unknown_dash_drawn_as_circle (parse (lit "A->>B: hi")) _
           DEFAULT_LAYOUT H).
Defined.

(** ** The number of elements *)

Section Counting.
Variables (d : Diagram) (o : Opts) (l : Layout).

Lemma length_concat_imap {A} (g : nat -> A -> list str) n (xs : list A) :
  (forall i x, length (g i x) = n) ->
  length (concat (imap g xs)) = n * length xs.
Proof.
  intros Hg. revert g Hg. induction xs as [| x xs IH]; intros g Hg; simpl;
    [lia |].
  rewrite length_app, Hg, IH by (intros; apply Hg). lia.
Qed.

Lemma length_concat_map {A} (g : A -> list str) n (xs : list A) :
  (forall x, length (g x) = n) ->
  length (concat (List.map g xs)) = n * length xs.
Proof.
  intros Hg. induction xs as [| x xs IH]; simpl; [lia |].
  rewrite length_app, Hg, IH. lia.
Qed.

Lemma message_length msg :
  length (Svg.message d o l msg) = message_elements o.
Proof.
  unfold Svg.message, Svg.self_message, Svg.cross_message, Svg.marker,
    message_elements.
  rewrite length_app.
  destruct (bool_decide _); rewrite !length_app;
    destruct (coloredText o), (coloredNumbers o); reflexivity.
Qed.

End Counting.

(** X15. [buildSvg] draws two elements for the canvas, five for every
    participant (a lifeline, and a box with its label at the top and at the
    bottom) and, for every message, three or four for the arrow with its
    text and one or four for the step marker, by the text and number
    toggles alone: a self-message takes as many elements as any other. *)
Theorem element_count (d : Diagram) (o : Opts) (l : Layout) :
  length (Svg.parts d o l)
  = 2 + 5 * length (participants d)
    + message_elements o * length (messages d).
Proof.
  unfold Svg.parts. rewrite !length_app.
  rewrite (length_concat_imap (Svg.lifeline d o l) 1) by reflexivity.
  rewrite (length_concat_imap (Svg.box o l _) 2) by reflexivity.
  rewrite (length_concat_imap (Svg.box o l _) 2) by reflexivity.
  rewrite (length_concat_map (Svg.message d o l) (message_elements o))
    by apply message_length.
  unfold Svg.canvas, Svg.ps, Svg.ms. cbn [length]. lia.
Qed.

(** ** Matching a literal and a greedy run *)

Section Greedy.
Context {R : Type}.

Lemma run_chars cs : forall i s c (k : @cont R),
  run (seqs (List.map chr cs)) i (cs ++ s) c k = k (i + length cs) s c.
Proof.
  induction cs as [| a cs IH]; intros i s c k; simpl.
  - rewrite Nat.add_0_r. reflexivity.
  - rewrite N.eqb_refl, IH. f_equal. lia.
Qed.

(** A greedy iteration of a character class that can take a whole run,
    with a continuation that succeeds at the end of the run, stops there. *)
Lemma star_greedy (p : N -> bool) (k : @cont R) rest c x :
  match rest with [] => True | a :: _ => p a = false end ->
  forall w fuel i,
    Forall (fun a => p a = true) w -> length w <= fuel ->
    k (i + length w) rest c = Some x ->
    star_loop (run (Chr p)) true k fuel i (w ++ rest) c = Some x.
Proof.
  intros Hrest. induction w as [| a w IH]; intros fuel i Hw Hfuel Hk.
  - simpl in Hk. rewrite Nat.add_0_r in Hk. destruct fuel as [| fuel]; simpl.
    + exact Hk.
    + destruct rest as [| b rest]; [exact Hk |]. rewrite Hrest. exact Hk.
  - destruct fuel as [| fuel]; [simpl in Hfuel; lia |].
    inversion Hw as [| ? ? Ha Hw']; subst. cbn [app star_loop run].
    rewrite Ha, (proj2 (Nat.ltb_lt i (S i))) by lia.
    assert (Hloop : star_loop (run (Chr p)) true k fuel (S i) (w ++ rest) c
                    = Some x).
    { apply IH; [exact Hw' | simpl in Hfuel; lia |].
      simpl in Hk. rewrite Nat.add_succ_r in Hk. exact Hk. }
    cbn [run] in Hloop. rewrite Hloop. reflexivity.
Qed.

Lemma run_plus_greedy (p : N -> bool) (k : @cont R) w rest i c x :
  w <> [] -> Forall (fun a => p a = true) w ->
  match rest with [] => True | a :: _ => p a = false end ->
  k (i + length w) rest c = Some x ->
  run (plus (Chr p)) i (w ++ rest) c k = Some x.
Proof.
  intros Hne Hw Hrest Hk. destruct w as [| a w]; [contradiction |].
  inversion Hw as [| ? ? Ha Hw']; subst.
  unfold plus. cbn [app run]. rewrite Ha.
  apply star_greedy; [exact Hrest | exact Hw' | rewrite length_app; lia |].
  simpl in Hk. rewrite Nat.add_succ_r in Hk. exact Hk.
Qed.

End Greedy.

Section Searching.

Lemma search_hit r i s e c :
  match_at r i s = Some (e, c) -> search r i s = Some (i, e, take (e - i) s, c).
Proof. intros H. destruct s; simpl; rewrite H; reflexivity. Qed.

Lemma search_skip r i a s :
  match_at r i (a :: s) = None -> search r i (a :: s) = search r (S i) s.
Proof. intros H. simpl. rewrite H. reflexivity. Qed.

End Searching.

(** ** The numerals of a number are never empty *)

Section Nonempty.

Lemma uint_chars_nonempty d : d <> Nil -> JsNumber.uint_chars d <> [].
Proof. destruct d; [contradiction | discriminate ..]. Qed.

Lemma digits_nonempty z : JsNumber.digits z <> [].
Proof.
  destruct z; simpl; try discriminate.
  apply uint_chars_nonempty, Unsigned.to_uint_nonnil.
Qed.

Lemma app_nonempty_l (a b : str) : a <> [] -> a ++ b <> [].
Proof. destruct a; [contradiction | discriminate]. Qed.

Lemma app_nonempty_r (a b : str) : b <> [] -> a ++ b <> [].
Proof. destruct a; [trivial | discriminate]. Qed.

Lemma positive_to_string_nonempty m e : JsNumber.positive_to_string m e <> [].
Proof.
  unfold JsNumber.positive_to_string.
  destruct (JsNumber.shortest m e 17 1) as [[k s] n].
  pose proof (digits_nonempty s) as Hd.
  repeat match goal with
    | |- context [if ?b then _ else _] => destruct b
    end.
  - apply app_nonempty_l, Hd.
  - apply app_nonempty_r, app_nonempty_l. discriminate.
  - apply app_nonempty_l. discriminate.
  - apply app_nonempty_l, Hd.
  - apply app_nonempty_l, Hd.
  - apply app_nonempty_r, app_nonempty_l. discriminate.
  - apply app_nonempty_r, app_nonempty_l. discriminate.
Qed.

Lemma to_string_nonempty x : JsNumber.to_string x <> [].
Proof.
  unfold JsNumber.to_string. destruct (Prim2SF x) as [s | s | | s m e].
  - discriminate.
  - apply app_nonempty_r. discriminate.
  - discriminate.
  - apply app_nonempty_r, positive_to_string_nonempty.
Qed.

End Nonempty.

(** ** Reading the size back from the markup *)

Section Dims.
Import SequenceTool.

Lemma dims_match i wd hd rest :
  digit_run wd -> digit_run hd ->
  match_at re_dims i
    (tpl "width='" [] ++ wd ++ tpl "' height='" [] ++ hd ++ tpl "'" [] ++ rest)
  = Some (i + length (tpl "width='" [] ++ wd ++ tpl "' height='" [] ++ hd
                      ++ tpl "'" []),
          <[2 := hd]> (<[1 := wd]> ∅)).
Proof.
  intros [Hwne Hw] [Hhne Hh]. unfold match_at, re_dims, quoted.
  cbn [seqs foldr]. cbn [run]. rewrite run_chars.
  apply run_plus_greedy; [exact Hwne | exact Hw | reflexivity |].
  rewrite run_chars.
  apply run_plus_greedy; [exact Hhne | exact Hh | reflexivity |].
  rewrite run_chars.
  rewrite !length_app.
  match goal with
  | |- Some (?a, ?m) = Some (?b, ?m') =>
      replace a with b by lia; replace m with m'; [reflexivity |]
  end.
  f_equal.
  - f_equal. match goal with
    | |- _ = take ?n _ => replace n with (length hd) by lia
    end.
    rewrite take_app_length. reflexivity.
  - f_equal. match goal with
    | |- _ = take ?n _ => replace n with (length wd) by lia
    end.
    rewrite take_app_length. reflexivity.
Qed.

Lemma size_match i wd hd rest :
  digit_run wd -> digit_run hd ->
  match_at re_size i
    (tpl "width='" [] ++ wd ++ tpl "' height='" [] ++ hd ++ tpl "'" [] ++ rest)
  = Some (i + length (tpl "width='" [] ++ wd ++ tpl "' height='" [] ++ hd
                      ++ tpl "'" []),
          ∅).
Proof.
  intros [Hwne Hw] [Hhne Hh]. unfold match_at, re_size, quoted.
  cbn [seqs foldr]. cbn [run]. rewrite run_chars.
  apply run_plus_greedy; [exact Hwne | exact Hw | reflexivity |].
  rewrite run_chars.
  apply run_plus_greedy; [exact Hhne | exact Hh | reflexivity |].
  rewrite run_chars.
  rewrite !length_app. do 2 f_equal. lia.
Qed.


Lemma root_split (wd hd body : str) :
  tpl "<svg xmlns='http://www.w3.org/2000/svg' width='$' height='$' viewBox='0 0 $ $'>$</svg>"
    [wd; hd; wd; hd; body]
  = tpl "<svg xmlns='http://www.w3.org/2000/svg' " []
    ++ (tpl "width='" [] ++ wd ++ tpl "' height='" [] ++ hd ++ tpl "'" []
        ++ tpl " viewBox='0 0 $ $'>$</svg>" [wd; hd; body]).
Proof. eval_tpl. reflexivity. Qed.

(** Neither pattern matches inside the opening of the root element. *)
Lemma search_past_root r s :
  r = re_dims \/ r = re_size ->
  search r 0 (tpl "<svg xmlns='http://www.w3.org/2000/svg' " [] ++ s)
  = search r 40 s.
Proof.
  intros [-> | ->]; eval_tpl;
    repeat (rewrite search_skip by reflexivity); reflexivity.
Qed.

Lemma search_root r c0 wd hd rest :
  r = re_dims \/ r = re_size ->
  (forall i u v t, digit_run u -> digit_run v ->
     match_at r i
       (tpl "width='" [] ++ u ++ tpl "' height='" [] ++ v ++ tpl "'" [] ++ t)
     = Some (i + length (tpl "width='" [] ++ u ++ tpl "' height='" [] ++ v
                         ++ tpl "'" []), c0 u v)) ->
  digit_run wd -> digit_run hd ->
  let root := tpl "<svg xmlns='http://www.w3.org/2000/svg' " [] in
  let size := tpl "width='" [] ++ wd ++ tpl "' height='" [] ++ hd ++ tpl "'" [] in
  exists whole,
    search r 0 (root ++ size ++ rest)
    = Some (length root, length (root ++ size), whole, c0 wd hd).
Proof.
  intros Hr Hm Hw Hh. cbv zeta. rewrite <- !app_assoc.
  rewrite (search_past_root r _ Hr).
  erewrite search_hit by (apply Hm; assumption).
  eexists.
  rewrite (length_app (tpl "<svg xmlns='http://www.w3.org/2000/svg' " [])).
  reflexivity.
Qed.

End Dims.

(** The first match of the size pattern in the markup of a diagram with
    participants is in the root element. *)
Lemma exec_dims_root (d : Diagram) (o : Opts) (l : Layout) :
  participants d <> [] ->
  Forall (fun c => is_digit c = true) (Svg.num (Svg.W d l)) ->
  Forall (fun c => is_digit c = true) (Svg.num (Svg.H d l)) ->
  exists whole,
    exec SequenceTool.re_dims (buildSvg d o l)
    = Some (whole,
            <[2 := Svg.num (Svg.H d l)]> (<[1 := Svg.num (Svg.W d l)]> ∅)).
Proof.
  intros Hne Hw Hh.
  assert (Hwd : digit_run (Svg.num (Svg.W d l)))
    by (split; [apply to_string_nonempty | exact Hw]).
  assert (Hhd : digit_run (Svg.num (Svg.H d l)))
    by (split; [apply to_string_nonempty | exact Hh]).
  unfold buildSvg, Svg.buildSvg, Svg.ps.
  rewrite bool_decide_eq_false_2 by exact Hne.
  rewrite root_split. unfold exec.
  destruct (search_root SequenceTool.re_dims
              (fun u v => <[2 := v]> (<[1 := u]> ∅)) _ _
              (tpl " viewBox='0 0 $ $'>$</svg>"
                 [Svg.num (Svg.W d l); Svg.num (Svg.H d l);
                  concat (Svg.parts d o l)])
              (or_introl eq_refl)
              (fun i u v t Hu Hv => dims_match i u v t Hu Hv) Hwd Hhd)
    as [whole Hs].
  cbv zeta in Hs. rewrite <- !app_assoc in Hs.
  rewrite Hs. eexists. reflexivity.
Qed.

(** X16. The page reads the size of the canvas back from the markup: when
    the width and the height of a diagram with participants are written as
    runs of digits, [svgDims] is the pair of the numbers these digits
    denote, taken from the root element. The empty markup has no size. *)
Theorem size_read_back_from_markup (d : Diagram) (o : Opts) (l : Layout) :
  participants d <> [] ->
  Forall (fun c => is_digit c = true) (Svg.num (Svg.W d l)) ->
  Forall (fun c => is_digit c = true) (Svg.num (Svg.H d l)) ->
  SequenceTool.svgDims (buildSvg d o l)
  = Some {| SequenceTool.w := JsNumber.parseInt (Svg.num (Svg.W d l));
            SequenceTool.h := JsNumber.parseInt (Svg.num (Svg.H d l)) |}
  /\ SequenceTool.svgDims [] = None.
Proof.
  intros Hne Hw Hh. split; [| reflexivity].
  destruct (exec_dims_root d o l Hne Hw Hh) as [whole He].
  unfold SequenceTool.svgDims. rewrite He. unfold group.
  rewrite lookup_insert_ne, lookup_insert_eq, lookup_insert_eq by discriminate.
  reflexivity.
Qed.

Lemma size_read_back_from_markup_witness :
  let d := parse (lit "A->>B: Hello") in
  participants d <> []
  /\ Svg.num (Svg.W d DEFAULT_LAYOUT) = lit "491"
  /\ Svg.num (Svg.H d DEFAULT_LAYOUT) = lit "388"
  /\ SequenceTool.svgDims (buildSvg d DEFAULT_OPTS DEFAULT_LAYOUT)
     = Some {| SequenceTool.w := 491; SequenceTool.h := 388 |}.
Proof.
  cbv zeta.
  assert (Hne : participants (parse (lit "A->>B: Hello")) <> [])
    by (vm_compute; discriminate).
  assert (Hw : Svg.num (Svg.W (parse (lit "A->>B: Hello")) DEFAULT_LAYOUT)
               = lit "491") by (vm_compute; reflexivity).
  assert (Hh : Svg.num (Svg.H (parse (lit "A->>B: Hello")) DEFAULT_LAYOUT)
               = lit "388") by (vm_compute; reflexivity).
  split; [exact Hne |]. split; [exact Hw |]. split; [exact Hh |].
  assert (Hwd : Forall (fun c => is_digit c = true)
                  (Svg.num (Svg.W (parse (lit "A->>B: Hello")) DEFAULT_LAYOUT)))
    by (rewrite Hw; vm_compute; repeat constructor).
  assert (Hhd : Forall (fun c => is_digit c = true)
                  (Svg.num (Svg.H (parse (lit "A->>B: Hello")) DEFAULT_LAYOUT)))
    by (rewrite Hh; vm_compute; repeat constructor).
  rewrite (proj1 (size_read_back_from_markup _ DEFAULT_OPTS DEFAULT_LAYOUT
                    Hne Hwd Hhd)).
  rewrite Hw, Hh. vm_compute. reflexivity.
Defined.

(** X17. Zooming changes the size the root element asks for and nothing
    else: for a diagram whose width and height are written as runs of
    digits, the markup the page displays is the markup of [buildSvg] with
    the two attributes of the root element scaled and rounded, the view box
    and every drawn element being as they were. The empty markup stays
    empty. *)
Theorem zoom_rescales_root_only
    (d : Diagram) (o : Opts) (l : Layout) (zoom : number) :
  participants d <> [] ->
  Forall (fun c => is_digit c = true) (Svg.num (Svg.W d l)) ->
  Forall (fun c => is_digit c = true) (Svg.num (Svg.H d l)) ->
  let wd := Svg.num (Svg.W d l) in
  let hd := Svg.num (Svg.H d l) in
  SequenceTool.displaySvg (buildSvg d o l) zoom
  = tpl "<svg xmlns='http://www.w3.org/2000/svg' width='$' height='$' viewBox='0 0 $ $'>$</svg>"
      [Svg.num (JsNumber.round (JsNumber.parseInt wd * zoom));
       Svg.num (JsNumber.round (JsNumber.parseInt hd * zoom));
       wd; hd; concat (Svg.parts d o l)]
  /\ SequenceTool.displaySvg [] zoom = [].
Proof.
  intros Hne Hw Hh. cbv zeta. split; [| reflexivity].
  assert (Hwd : digit_run (Svg.num (Svg.W d l)))
    by (split; [apply to_string_nonempty | exact Hw]).
  assert (Hhd : digit_run (Svg.num (Svg.H d l)))
    by (split; [apply to_string_nonempty | exact Hh]).
  unfold SequenceTool.displaySvg.
  destruct (exec_dims_root d o l Hne Hw Hh) as [whole0 He].
  unfold SequenceTool.svgDims. rewrite He. unfold group.
  rewrite lookup_insert_ne, lookup_insert_eq, lookup_insert_eq by discriminate.
  cbn [SequenceTool.w SequenceTool.h default].
  assert (Hsvg : buildSvg d o l <> []).
  { unfold buildSvg, Svg.buildSvg, Svg.ps.
    rewrite bool_decide_eq_false_2 by exact Hne. eval_tpl. discriminate. }
  rewrite bool_decide_eq_false_2 by exact Hsvg.
  unfold buildSvg, Svg.buildSvg, Svg.ps.
  rewrite bool_decide_eq_false_2 by exact Hne.
  rewrite !root_split. unfold SequenceTool.replace_first.
  destruct (search_root SequenceTool.re_size (fun _ _ => ∅) _ _
              (tpl " viewBox='0 0 $ $'>$</svg>"
                 [Svg.num (Svg.W d l); Svg.num (Svg.H d l);
                  concat (Svg.parts d o l)])
              (or_intror eq_refl)
              (fun i u v t Hu Hv => size_match i u v t Hu Hv) Hwd Hhd)
    as [whole Hs].
  cbv zeta in Hs. rewrite <- !app_assoc in Hs.
  rewrite Hs.
  rewrite take_app_length.
  match goal with
  | |- context [drop (length ?p) ?s] =>
      replace s with (p ++ tpl " viewBox='0 0 $ $'>$</svg>"
                            [Svg.num (Svg.W d l); Svg.num (Svg.H d l);
                             concat (Svg.parts d o l)])
        by (rewrite <- !app_assoc; reflexivity)
  end.
  rewrite drop_app_length. eval_tpl. reflexivity.
Qed.

Lemma zoom_rescales_root_only_witness :
  let d := parse (lit "A->>B: Hello") in
  let shown := SequenceTool.displaySvg (buildSvg d DEFAULT_OPTS DEFAULT_LAYOUT) 2 in
  participants d <> []
  /\ Svg.num (Svg.W d DEFAULT_LAYOUT) = lit "491"
  /\ Svg.num (Svg.H d DEFAULT_LAYOUT) = lit "388"
  /\ attribute "width" shown = Some (lit "982")
  /\ attribute "height" shown = Some (lit "776")
  /\ attribute "viewBox" shown = Some (lit "0 0 491 388").
Proof.
  cbv zeta.
  assert (Hne : participants (parse (lit "A->>B: Hello")) <> [])
    by (vm_compute; discriminate).
  assert (Hw : Svg.num (Svg.W (parse (lit "A->>B: Hello")) DEFAULT_LAYOUT)
               = lit "491") by (vm_compute; reflexivity).
  assert (Hh : Svg.num (Svg.H (parse (lit "A->>B: Hello")) DEFAULT_LAYOUT)
               = lit "388") by (vm_compute; reflexivity).
  split; [exact Hne |]. split; [exact Hw |]. split; [exact Hh |].
  assert (Hwd : Forall (fun c => is_digit c = true)
                  (Svg.num (Svg.W (parse (lit "A->>B: Hello")) DEFAULT_LAYOUT)))
    by (rewrite Hw; vm_compute; repeat constructor).
  assert (Hhd : Forall (fun c => is_digit c = true)
                  (Svg.num (Svg.H (parse (lit "A->>B: Hello")) DEFAULT_LAYOUT)))
    by (rewrite Hh; vm_compute; repeat constructor).
  rewrite (proj1 (zoom_rescales_root_only _ DEFAULT_OPTS DEFAULT_LAYOUT 2
                    Hne Hwd Hhd)).
  rewrite Hw, Hh. repeat split; vm_compute; reflexivity.
Defined.

(** ** Pasting *)

Section Pasting.

Lemma two_distinct_elements (xs : list str) :
  NoDup xs ->
  (2 <= length xs <-> exists a b, a <> b /\ a ∈ xs /\ b ∈ xs).
Proof.
  intros Hnd. split.
  - destruct xs as [| a [| b xs]]; simpl; try lia. intros _.
    exists a, b. split.
    + intros ->. apply NoDup_cons in Hnd as [Hnd _]. apply Hnd.
      apply list_elem_of_here.
    + split; [apply list_elem_of_here |].
      apply list_elem_of_further, list_elem_of_here.
  - intros (a & b & Hab & Ha & Hb).
    destruct xs as [| x [| y xs]]; simpl; try lia.
    + inversion Ha.
    + apply list_elem_of_singleton in Ha, Hb. congruence.
Qed.

End Pasting.

(** X18. A pasted text sets off the celebration exactly when it mentions
    two different participant ids, in declarations or as message
    endpoints. *)
Theorem paste_celebrated_iff_two_ids (pasted : str) :
  SequenceTool.handlePaste pasted = true
  <-> exists a b, a <> b /\ a ∈ mentioned pasted /\ b ∈ mentioned pasted.
Proof.
  unfold SequenceTool.handlePaste. rewrite Nat.leb_le.
  rewrite <- (length_map id_).
  rewrite (two_distinct_elements _ (parse_ids_NoDup pasted)).
  split; intros (a & b & Hab & Ha & Hb); exists a, b;
    (split; [exact Hab |]); rewrite ?parse_ids_elem in *; auto.
Qed.

(** ** More on greedy and lazy iteration *)

Section Iteration.
Context {R : Type}.

Lemma run_star_greedy (p : N -> bool) (k : @cont R) w rest i c x :
  Forall (fun a => p a = true) w ->
  match rest with [] => True | a :: _ => p a = false end ->
  k (i + length w) rest c = Some x ->
  run (star (Chr p)) i (w ++ rest) c k = Some x.
Proof.
  intros Hw Hrest Hk.
  change (star_loop (run (Chr p)) true k (S (length (w ++ rest))) i
            (w ++ rest) c = Some x).
  apply star_greedy; [exact Hrest | exact Hw | rewrite length_app; lia |].
  exact Hk.
Qed.

(** A lazy iteration stops at the first place where its continuation
    succeeds. *)
Lemma star_lazy_until (p : N -> bool) (k : @cont R) rest c x :
  forall w fuel i,
    Forall (fun a => p a = true /\ forall j s', k j (a :: s') c = None) w ->
    length w <= fuel ->
    k (i + length w) rest c = Some x ->
    star_loop (run (Chr p)) false k fuel i (w ++ rest) c = Some x.
Proof.
  induction w as [| a w IH]; intros fuel i Hw Hfuel Hk.
  - simpl in Hk. rewrite Nat.add_0_r in Hk.
    destruct fuel as [| fuel]; simpl; [exact Hk | rewrite Hk; reflexivity].
  - destruct fuel as [| fuel]; [simpl in Hfuel; lia |].
    inversion Hw as [| ? ? [Ha Hfail] Hw']; subst.
    assert (Hloop : star_loop (run (Chr p)) false k fuel (S i) (w ++ rest) c
                    = Some x).
    { apply IH; [exact Hw' | simpl in Hfuel; lia |].
      simpl in Hk. rewrite Nat.add_succ_r in Hk. exact Hk. }
    cbn [app star_loop run]. rewrite Hfail, Ha.
    rewrite (proj2 (Nat.ltb_lt i (S i))) by lia.
    cbn [run] in Hloop. exact Hloop.
Qed.

Lemma run_plus_lazy (p : N -> bool) (k : @cont R) a w rest i c x :
  p a = true ->
  Forall (fun a => p a = true /\ forall j s', k j (a :: s') c = None) w ->
  k (S i + length w) rest c = Some x ->
  run (plus_lazy (Chr p)) i (a :: w ++ rest) c k = Some x.
Proof.
  intros Ha Hw Hk. unfold plus_lazy. cbn [run]. rewrite Ha.
  change (star_loop (run (Chr p)) false k (S (length (w ++ rest))) (S i)
            (w ++ rest) c = Some x).
  apply star_lazy_until; [exact Hw | rewrite length_app; lia | exact Hk].
Qed.

End Iteration.

Section Heads.

Lemma head_not (p : N -> bool) (s : str) :
  (forall a, head s = Some a -> p a = false) ->
  match s with [] => True | a :: _ => p a = false end.
Proof. destruct s as [| a s]; [trivial |]. intros H. apply H. reflexivity. Qed.

Lemma trim_trimStart s : trim (trimStart s) = trim s.
Proof.
  unfold trim. f_equal. apply trimStart_fixed. apply trimStart_head.
Qed.

End Heads.

(** ** The numeric prefix of a message text *)

Section NumericPrefix.

Lemma numPfx_shape s whole c :
  exec re_numPfx s = Some (whole, c) ->
  exists ds g, numeric_prefix s ds g /\ c !! 1 = Some ds /\ c !! 2 = Some g.
Proof.
  unfold exec. intros H.
  destruct (search re_numPfx 0 s) as [[[[b e] w] c0] |] eqn:Hs; [| discriminate].
  inversion H; subst w c0. clear H.
  apply search_sound in Hs as (_ & _ & s' & Hm).
  rewrite Nat.sub_0_r in Hm.
  cbv [re_numPfx seqs foldr] in Hm.
  apply matches_seq_inv in Hm as (i0 & s0 & c0 & H0 & Hm).
  apply matches_bol_inv in H0 as (Hb & Hi0 & Hs0 & Hc0). subst b i0 s0 c0.
  rewrite drop_0 in Hm.
  apply matches_seq_inv in Hm as (i1 & s1 & c1 & H1 & Hm).
  apply matches_grp_inv in H1 as (ds & c1' & H1 & Hl & Hi1 & Hc1).
  apply matches_plus_chr in H1 as (ds' & Hds & Hdne & Hdd & Hc1').
  rewrite Hl in Hds. apply app_inv_tail in Hds. subst ds' c1' c1 i1 s.
  apply matches_seq_inv in Hm as (i2 & s2 & c2 & H2 & Hm).
  apply matches_word in H2 as (Hw & Hc2). subst s1 c2.
  apply matches_seq_inv in Hm as (i3 & s3 & c3 & H3 & Hm).
  apply matches_plus_chr in H3 as (ws & Hws & Hwne & Hwsp & Hc3). subst s2 c3.
  apply matches_seq_inv in Hm as (i4 & s4 & c4 & H4 & Hm).
  apply matches_grp_inv in H4 as (g & c4' & H4 & Hl & Hi4 & Hc4).
  apply matches_star_chr in H4 as (g' & Hg & _ & Hc4').
  rewrite Hl in Hg. apply app_inv_tail in Hg. subst g' c4' c4 s3.
  apply matches_seq_inv in Hm as (i5 & s5 & c5 & H5 & Hm).
  apply matches_eol_inv in H5 as (Hs4 & _ & Hs5 & Hc5). subst s4 s5 c5.
  apply matches_eps_inv in Hm as (_ & _ & Hc). subst c.
  exists ds, g. split.
  - exists ws. rewrite app_nil_r. repeat split; assumption.
  - split; by simplify_map_eq.
Qed.

Lemma numPfx_match ds ws g :
  digit_run ds -> ws <> [] -> Forall (fun c => is_space c = true) ws ->
  (forall a, head g = Some a -> is_space a = false) ->
  exists whole,
    exec re_numPfx (ds ++ lit "." ++ ws ++ g)
    = Some (whole, <[2 := g]> (<[1 := ds]> ∅)).
Proof.
  intros [Hdne Hd] Hwne Hw Hg. unfold exec.
  assert (Hm : match_at re_numPfx 0 (ds ++ lit "." ++ ws ++ g)
               = Some (length (ds ++ lit "." ++ ws ++ g),
                       <[2 := g]> (<[1 := ds]> ∅))).
  { unfold match_at, re_numPfx. cbn [seqs foldr]. cbn [run Nat.eqb].
    apply run_plus_greedy; [exact Hdne | exact Hd | reflexivity |].
    unfold word. rewrite run_chars.
    apply run_plus_greedy; [exact Hwne | exact Hw | apply head_not, Hg |].
    rewrite <- (app_nil_r g) at 1 2.
    apply run_star_greedy;
      [apply Forall_forall; reflexivity | exact I |].
    cbn [run]. rewrite !length_app.
    match goal with
    | |- Some (?a, ?m) = Some (?b, ?m') =>
        assert (Hi : a = b) by (simpl; lia);
        assert (Hc : m = m');
        [| exact (f_equal2 (fun u v => Some (u, v)) Hi Hc)]
    end.
    clear Hi. f_equal.
    - f_equal. apply take_ge. lia.
    - f_equal. match goal with
      | |- take ?n _ = _ => replace n with (length ds) by lia
      end.
      rewrite take_app_length. reflexivity. }
  rewrite (search_hit _ _ _ _ _ Hm). eexists. reflexivity.
Qed.

End NumericPrefix.

(** X19. A message gets a display step exactly when its text, with line
    breaks turned into spaces and trimmed, reads: digits, a dot, white
    space, a rest. The display step is then the number the digits denote
    and the text is the trimmed rest; otherwise the text is kept as it
    is. *)
Theorem display_step_from_numeric_prefix (f a t r : str) (k : Z) :
  let cleaned := trim (replace_all re_br (fun _ _ => lit " ") r) in
  let m := make_message f a t r k in
  (forall ds g, numeric_prefix cleaned ds g ->
     displayStep m = Some (JsNumber.parseInt ds) /\ text m = trim g)
  /\ (forall n, displayStep m = Some n ->
        exists ds g, numeric_prefix cleaned ds g
                     /\ n = JsNumber.parseInt ds /\ text m = trim g)
  /\ (displayStep m = None -> text m = cleaned).
Proof.
  cbv zeta. unfold make_message. cbn [displayStep text].
  set (cleaned := trim (replace_all re_br (fun _ _ => lit " ") r)).
  split; [| split].
  - intros ds g (ws & Hc & Hd & Hwne & Hw).
    destruct (trimStart_split g) as (ws' & Hg & Hws').
    assert (Hc' : cleaned = ds ++ lit "." ++ (ws ++ ws') ++ trimStart g)
      by (rewrite Hc, Hg at 1; rewrite <- !app_assoc; reflexivity).
    destruct (numPfx_match ds (ws ++ ws') (trimStart g) Hd) as [whole He].
    + destruct ws; [contradiction | discriminate].
    + apply Forall_app. auto.
    + apply trimStart_head.
    + rewrite Hc', He. unfold group.
      rewrite lookup_insert_ne, lookup_insert_eq, lookup_insert_eq by discriminate.
      split; [reflexivity | apply trim_trimStart].
  - intros n Hn.
    destruct (exec re_numPfx cleaned) as [[whole c] |] eqn:He; [| discriminate].
    apply numPfx_shape in He as (ds & g & Hp & E1 & E2).
    exists ds, g. unfold group in *. rewrite E1 in Hn. rewrite E2.
    inversion Hn. auto.
  - intros Hn.
    destruct (exec re_numPfx cleaned) as [[whole c] |]; [discriminate |].
    reflexivity.
Qed.

(** ** Brackets in labels *)

Section Brackets.

Lemma search_bracket_skip pre s : forall i,
  Forall (fun c => c <> 91%N) pre ->
  search re_bracket i (pre ++ s) = search re_bracket (i + length pre) s.
Proof.
  induction pre as [| a pre IH]; intros i H; simpl.
  - rewrite Nat.add_0_r. reflexivity.
  - inversion H as [| ? ? Ha Hp]; subst.
    change re_bracket
      with (Seq (Seq (chr 91) Eps) (seqs [Grp 1 (plus_lazy dot); word "]"])) at 1.
    rewrite match_at_first by exact Ha.
    rewrite IH by exact Hp. f_equal. lia.
Qed.

Lemma run_first_fail {R} c0 cs a s' j c (k : @cont R) :
  a <> c0 -> run (seqs (List.map chr (c0 :: cs))) j (a :: s') c k = None.
Proof.
  intros H. cbn [run seqs foldr List.map chr].
  rewrite (proj2 (N.eqb_neq c0 a)) by congruence. reflexivity.
Qed.

Lemma bracket_match i x rest :
  x <> [] -> Forall (fun c => c <> 93%N /\ is_line_terminator c = false) x ->
  match_at re_bracket i (lit "[" ++ x ++ lit "]" ++ rest)
  = Some (i + length (lit "[" ++ x ++ lit "]"), <[1 := x]> ∅).
Proof.
  intros Hne Hx. destruct x as [| a x]; [contradiction |].
  inversion Hx as [| ? ? [Ha93 Halt] Hx']; subst.
  unfold match_at, re_bracket. cbn [seqs foldr]. cbn [run].
  unfold word. rewrite run_chars.
  apply run_plus_lazy.
  - unfold dot. simpl. rewrite Halt. reflexivity.
  - eapply Forall_impl; [exact Hx' |]. intros b [Hb93 Hblt]. split.
    + rewrite Hblt. reflexivity.
    + intros j s'. cbv beta. change (lit "]") with [93%N].
      apply run_first_fail. exact Hb93.
  - rewrite run_chars. cbn [run]. rewrite !length_app. f_equal. f_equal.
    + simpl. lia.
    + f_equal. match goal with
      | |- take ?n _ = _ => replace n with (length (a :: x)) by (simpl; lia)
      end.
      rewrite (take_app_length (a :: x)). reflexivity.
Qed.

Lemma replace_bracket_segment fuel i pre x rest :
  bracket_segment (pre, x) ->
  replace_from (S fuel) re_bracket (fun _ c => lit "(" ++ group c 1 ++ lit ")")
    i (pre ++ lit "[" ++ x ++ lit "]" ++ rest)
  = pre ++ lit "(" ++ x ++ lit ")"
    ++ replace_from fuel re_bracket
         (fun _ c => lit "(" ++ group c 1 ++ lit ")")
         (i + length (pre ++ lit "[" ++ x ++ lit "]")) rest.
Proof.
  intros (Hpre & Hne & Hx). cbn [fst snd] in *. cbn [replace_from].
  rewrite search_bracket_skip by exact Hpre.
  rewrite (search_hit _ _ _ _ _ (bracket_match (i + length pre) x rest Hne Hx)).
  rewrite !length_app.
  rewrite (proj2 (Nat.ltb_lt _ _)) by (simpl; lia).
  replace (i + length pre - i) with (length pre) by lia.
  rewrite take_app_length. unfold group. rewrite lookup_insert_eq. simpl default.
  rewrite <- !app_assoc. do 4 f_equal.
  match goal with
  | |- replace_from _ _ _ ?e (drop ?n ?s) = replace_from _ _ _ ?e' _ =>
      replace e with e' by (simpl; lia);
      replace s with ((pre ++ lit "[" ++ x ++ lit "]") ++ rest)
        by (rewrite <- !app_assoc; reflexivity)
  end.
  f_equal. apply drop_app_length'. rewrite !length_app. simpl. lia.
Qed.

Lemma replace_bracketed segs post :
  Forall bracket_segment segs -> Forall (fun c => c <> 91%N) post ->
  forall fuel i,
    length (bracketed (lit "[") (lit "]") segs post) < fuel ->
    replace_from fuel re_bracket (fun _ c => lit "(" ++ group c 1 ++ lit ")")
      i (bracketed (lit "[") (lit "]") segs post)
    = bracketed (lit "(") (lit ")") segs post.
Proof.
  intros Hsegs Hpost. induction Hsegs as [| [pre x] segs Hseg _ IH];
    intros fuel i Hlen; (destruct fuel as [| fuel]; [lia |]).
  - cbn [bracketed replace_from].
    rewrite search_bracket_none by exact Hpost. reflexivity.
  - cbn [bracketed]. rewrite replace_bracket_segment by exact Hseg.
    rewrite IH; [reflexivity |].
    cbn [bracketed] in Hlen. rewrite !length_app in Hlen. simpl in Hlen. lia.
Qed.

End Brackets.

(** X20. In a label, every bracketed piece is put in parentheses: for an
    alias made of pieces in square brackets, each non-empty, on one line
    and without closing bracket inside, with bracket-free text before,
    between and after them, the label is the alias with each pair of
    brackets replaced by a pair of parentheses. *)
Theorem brackets_become_parentheses
    (id : str) (segs : list (str * str)) (post : str) :
  Forall bracket_segment segs -> Forall (fun c => c <> 91%N) post ->
  display_label id (Some (bracketed (lit "[") (lit "]") segs post))
  = bracketed (lit "(") (lit ")") segs post.
Proof.
  intros Hsegs Hpost. unfold display_label, replace_all.
  cbn [from_option Datatypes.id].
  apply replace_bracketed; [exact Hsegs | exact Hpost | lia].
Qed.

Lemma brackets_become_parentheses_witness :
  let segs := [(lit "Web ", lit "App"); (lit " ", lit "v2")] in
  Forall bracket_segment segs
  /\ Forall (fun c => c <> 91%N) (lit "!")
  /\ bracketed (lit "[") (lit "]") segs (lit "!") = lit "Web [App] [v2]!"
  /\ display_label (lit "W") (Some (lit "Web [App] [v2]!"))
     = lit "Web (App) (v2)!".
Proof.
  cbv zeta.
  assert (H1 : Forall bracket_segment
                 [(lit "Web ", lit "App"); (lit " ", lit "v2")]).
  { repeat constructor; simpl; try discriminate;
      repeat (constructor; [split; [discriminate | reflexivity] |]);
      constructor. }
  assert (H2 : Forall (fun c => c <> 91%N) (lit "!"))
    by (repeat constructor; discriminate).
  split; [exact H1 |]. split; [exact H2 |].
  split; [vm_compute; reflexivity |].
  exact (brackets_become_parentheses (lit "W") _ _ H1 H2).
Defined.

(** ** Recognizing the lines of the grammar *)

(** Turns the comparisons of a character class into propositions. *)
Ltac class_props H :=
  repeat first [ rewrite orb_true_iff in H | rewrite andb_true_iff in H
               | rewrite N.leb_le in H | rewrite N.eqb_eq in H ].

Ltac class_goal :=
  repeat first [ rewrite orb_true_iff | rewrite andb_true_iff
               | rewrite N.leb_le | rewrite N.eqb_eq ].

Section Classes.

Lemma space_not_word a : is_space a = true -> is_word a = false.
Proof.
  intros H. destruct (is_word a) eqn:E; [exfalso | reflexivity].
  unfold is_space, is_line_terminator in H. unfold is_word, is_digit in E.
  class_props H. class_props E. lia.
Qed.

Lemma word_not_space a : is_word a = true -> is_space a = false.
Proof.
  intros H. destruct (is_space a) eqn:E; [| reflexivity].
  apply space_not_word in E. congruence.
Qed.

Lemma canonicalize_upper a u :
  (65 <= u <= 90)%N -> canonicalize a = u ->
  is_word a = true /\ (a = u \/ a = (u + 32)%N).
Proof.
  unfold canonicalize. intros Hu.
  destruct (N.leb 97 a && N.leb a 122)%bool eqn:E; intros H.
  - rewrite andb_true_iff, !N.leb_le in E.
    split; [| right; lia].
    unfold is_word, is_digit. class_goal. lia.
  - subst u. split; [| left; reflexivity].
    unfold is_word, is_digit. class_goal. lia.
Qed.

Lemma canonicalize_other a u :
  (u < 65 \/ 90 < u)%N -> (u < 97 \/ 122 < u)%N -> canonicalize a = u -> a = u.
Proof.
  unfold canonicalize. intros H1 H2.
  destruct (N.leb 97 a && N.leb a 122)%bool eqn:E; intros H; [| exact H].
  apply andb_true_iff in E as [E1 E2]. apply N.leb_le in E1, E2. lia.
Qed.

(** A keyword of lower-case letters, in any case, is a run of word
    characters. *)
Lemma same_letters_word w cs :
  List.map canonicalize w = List.map canonicalize cs ->
  Forall (fun b => (97 <= b <= 122)%N) cs ->
  Forall (fun a => is_word a = true) w.
Proof.
  revert w. induction cs as [| b cs IH]; intros [| a w] H Hcs;
    try discriminate; [constructor |].
  inversion Hcs as [| ? ? Hb Hcs']; subst. simpl in H.
  injection H as Ha Hw. constructor; [| apply IH; assumption].
  assert (Hu : canonicalize b = (b - 32)%N).
  { unfold canonicalize. destruct Hb as [H1 H2].
    apply N.leb_le in H1, H2. rewrite H1, H2. reflexivity. }
  rewrite Hu in Ha.
  apply (canonicalize_upper a (b - 32)) in Ha as [Ha _]; [exact Ha | lia].
Qed.

Lemma word_prefix_unique p1 : forall p2 c1 c2 r1 r2,
  Forall (fun a => is_word a = true) p1 -> is_word c1 = false ->
  Forall (fun a => is_word a = true) p2 -> is_word c2 = false ->
  p1 ++ c1 :: r1 = p2 ++ c2 :: r2 -> p1 = p2 /\ c1 = c2 /\ r1 = r2.
Proof.
  induction p1 as [| a p1 IH]; intros [| b p2] c1 c2 r1 r2 H1 Hc1 H2 Hc2 H;
    simpl in H; injection H as Hh Ht.
  - auto.
  - subst. inversion H2; subst. congruence.
  - subst. inversion H1; subst. congruence.
  - subst. inversion H1; inversion H2; subst.
    destruct (IH _ _ _ _ _ H4 Hc1 H8 Hc2 Ht) as (-> & -> & ->). auto.
Qed.

End Classes.

Section Anchored.

Lemma search_bol_later r s : forall i,
  0 < i -> search (Seq Bol r) i s = None.
Proof.
  assert (Hm : forall i s', 0 < i -> match_at (Seq Bol r) i s' = None).
  { intros i s' Hi. unfold match_at. cbn [run].
    destruct i; [lia | reflexivity]. }
  induction s as [| a s IH]; intros i Hi; simpl; rewrite Hm by exact Hi.
  - reflexivity.
  - apply IH. lia.
Qed.

Lemma exec_anchored r s :
  exec (Seq Bol r) s
  = match match_at (Seq Bol r) 0 s with
    | Some (e, c) => Some (take e s, c)
    | None => None
    end.
Proof.
  unfold exec. destruct s as [| a s]; simpl search.
  - destruct (match_at (Seq Bol r) 0 []) as [[e c] |];
      rewrite ?Nat.sub_0_r; reflexivity.
  - destruct (match_at (Seq Bol r) 0 (a :: s)) as [[e c] |].
    + rewrite Nat.sub_0_r. reflexivity.
    + rewrite search_bol_later by lia. reflexivity.
Qed.

End Anchored.

Section Groups.
Context {R : Type}.

Lemma run_grp_plus n (p : N -> bool) (k : @cont R) w rest i c x :
  w <> [] -> Forall (fun a => p a = true) w ->
  match rest with [] => True | a :: _ => p a = false end ->
  k (i + length w) rest (<[n := w]> c) = Some x ->
  run (Grp n (plus (Chr p))) i (w ++ rest) c k = Some x.
Proof.
  intros Hne Hw Hrest Hk. cbn [run].
  apply run_plus_greedy; [exact Hne | exact Hw | exact Hrest |].
  replace (i + length w - i) with (length w) by lia.
  rewrite take_app_length. exact Hk.
Qed.

Lemma run_grp_star n (p : N -> bool) (k : @cont R) w rest i c x :
  Forall (fun a => p a = true) w ->
  match rest with [] => True | a :: _ => p a = false end ->
  k (i + length w) rest (<[n := w]> c) = Some x ->
  run (Grp n (star (Chr p))) i (w ++ rest) c k = Some x.
Proof.
  intros Hw Hrest Hk. cbn [run].
  apply run_star_greedy; [exact Hw | exact Hrest |].
  replace (i + length w - i) with (length w) by lia.
  rewrite take_app_length. exact Hk.
Qed.

Lemma run_chars_i cs : forall w i s c (k : @cont R),
  List.map canonicalize w = List.map canonicalize cs ->
  run (seqs (List.map chr_i cs)) i (w ++ s) c k = k (i + length w) s c.
Proof.
  induction cs as [| b cs IH]; intros [| a w] i s c k H; try discriminate.
  - simpl. rewrite Nat.add_0_r. reflexivity.
  - simpl in H. injection H as Ha Hw. cbn [List.map seqs foldr app run chr_i].
    rewrite Ha, N.eqb_refl.
    change (foldr Seq Eps (List.map chr_i cs)) with (seqs (List.map chr_i cs)).
    rewrite IH by exact Hw. f_equal. simpl. lia.
Qed.

Lemma run_chars_mismatch cs1 c0 cs2 a s : forall i c (k : @cont R),
  a <> c0 ->
  run (seqs (List.map chr (cs1 ++ c0 :: cs2))) i (cs1 ++ a :: s) c k = None.
Proof.
  induction cs1 as [| b cs1 IH]; intros i c k H; simpl.
  - rewrite (proj2 (N.eqb_neq c0 a)) by congruence. reflexivity.
  - rewrite N.eqb_refl. apply IH, H.
Qed.

(** The arrow pattern takes the token the text has, when no [>] follows
    it. *)
Lemma run_arrow arr rest i c (k : @cont R) x :
  arr ∈ arrow_tokens ->
  match rest with [] => True | a :: _ => a <> 62%N end ->
  k (i + length arr) rest c = Some x ->
  run re_arrow i (arr ++ rest) c k = Some x.
Proof.
  intros Harr Hrest Hk. unfold arrow_tokens in Harr.
  repeat (apply elem_of_cons in Harr as [-> | Harr]);
    [| | | | inversion Harr];
    unfold re_arrow; cbn [alts]; unfold word.
  - cbn [run]. rewrite run_chars, Hk. reflexivity.
  - cbn [run]. rewrite run_chars, Hk.
    replace (run (seqs (List.map chr (lit "-->>"))) i (lit "->>" ++ rest) c k)
      with (@None R) by reflexivity.
    reflexivity.
  - cbn [run]. rewrite run_chars, Hk.
    replace (run (seqs (List.map chr (lit "->>"))) i (lit "-->" ++ rest) c k)
      with (@None R) by reflexivity.
    replace (run (seqs (List.map chr (lit "-->>"))) i (lit "-->" ++ rest) c k)
      with (@None R); [reflexivity |].
    symmetry. destruct rest as [| a rest']; [reflexivity |].
    change (lit "-->>") with (lit "-->" ++ 62%N :: []).
    apply run_chars_mismatch, Hrest.
  - cbn [run]. rewrite run_chars, Hk.
    replace (run (seqs (List.map chr (lit "-->"))) i (lit "->" ++ rest) c k)
      with (@None R) by reflexivity.
    replace (run (seqs (List.map chr (lit "-->>"))) i (lit "->" ++ rest) c k)
      with (@None R) by reflexivity.
    replace (run (seqs (List.map chr (lit "->>"))) i (lit "->" ++ rest) c k)
      with (@None R); [reflexivity |].
    symmetry. destruct rest as [| a rest']; [reflexivity |].
    change (lit "->>") with (lit "->" ++ 62%N :: []).
    apply run_chars_mismatch, Hrest.
Qed.

End Groups.

Section Shapes.

Lemma matches_chars_i_letters cs : forall i s c i' s' c',
  matches (seqs (List.map chr_i cs)) i s c i' s' c' ->
  exists w, s = w ++ s'
            /\ List.map canonicalize w = List.map canonicalize cs /\ c' = c.
Proof.
  induction cs as [| a cs IH]; intros i s c i' s' c' H; simpl in H.
  - apply matches_eps_inv in H as (_ & -> & ->). exists []. auto.
  - apply matches_seq_inv in H as (i1 & s1 & c1 & H1 & H2).
    apply matches_chr_inv in H1 as (b & Hb & -> & -> & ->).
    apply N.eqb_eq in Hb.
    apply IH in H2 as (w & -> & Hw & ->). exists (b :: w).
    split; [reflexivity |]. split; [simpl; rewrite Hb, Hw; reflexivity |].
    reflexivity.
Qed.

(** A line that passes the skip test begins with one of the markers. *)
Lemma skip_shape l :
  test re_skip l = true -> exists p, p ∈ skip_markers /\ startsWith p l = true.
Proof.
  unfold test.
  destruct (search re_skip 0 l) as [[[[b e] w] c] |] eqn:Hs; [| discriminate].
  intros _. apply search_sound in Hs as (_ & _ & s' & Hm).
  rewrite Nat.sub_0_r in Hm. cbv [re_skip seqs foldr] in Hm.
  apply matches_seq_inv in Hm as (i0 & s0 & c0 & H0 & Hm).
  apply matches_bol_inv in H0 as (Hb & Hi0 & Hs0 & Hc0). subst b i0 s0 c0.
  rewrite drop_0 in Hm.
  apply matches_seq_inv in Hm as (i1 & s1 & c1 & H1 & _).
  apply matches_grp_inv in H1 as (p & c1' & H1 & Hl & _ & _).
  exists p. cbn [alts] in H1.
  repeat (apply matches_alt_inv in H1 as [H1 | H1]);
    apply matches_word in H1 as (Hw & _); rewrite Hl in Hw;
    apply app_inv_tail in Hw; subst p; (split; [| rewrite Hl; apply startsWith_app]);
    unfold skip_markers; set_solver.
Qed.

Lemma not_skipped l :
  l <> [] -> Forall (fun p => startsWith p l = false) skip_markers ->
  (bool_decide (l = []) || test re_skip l)%bool = false.
Proof.
  intros Hne Hs. rewrite bool_decide_eq_false_2 by exact Hne. simpl.
  destruct (test re_skip l) eqn:E; [| reflexivity].
  apply skip_shape in E as (p & Hp & Hst).
  rewrite Forall_forall in Hs. rewrite (Hs p Hp) in Hst. discriminate.
Qed.

(** What matches the title pattern begins with the keyword and its
    colon; what matches the declaration pattern, with the keyword and a
    white space. *)
Lemma title_keyword l whole tm :
  exec re_title l = Some (whole, tm) ->
  exists kw rest, l = kw ++ rest /\ same_letters kw "title:".
Proof.
  unfold exec. intros H.
  destruct (search re_title 0 l) as [[[[b e] w] c] |] eqn:Hs; [| discriminate].
  clear H. apply search_sound in Hs as (_ & _ & s' & Hm).
  rewrite Nat.sub_0_r in Hm. cbv [re_title seqs foldr] in Hm.
  apply matches_seq_inv in Hm as (i0 & s0 & c0 & H0 & Hm).
  apply matches_bol_inv in H0 as (Hb & Hi0 & Hs0 & Hc0). subst b i0 s0 c0.
  rewrite drop_0 in Hm.
  apply matches_seq_inv in Hm as (i1 & s1 & c1 & H1 & _).
  apply matches_chars_i_letters in H1 as (kw & Hl & Hkw & _).
  exists kw, s1. auto.
Qed.

Lemma participant_keyword l whole pm :
  exec re_participant l = Some (whole, pm) ->
  exists kw sp rest,
    l = kw ++ sp :: rest /\ same_letters kw "participant"
    /\ is_space sp = true.
Proof.
  unfold exec. intros H.
  destruct (search re_participant 0 l) as [[[[b e] w] c] |] eqn:Hs;
    [| discriminate].
  clear H. apply search_sound in Hs as (_ & _ & s' & Hm).
  rewrite Nat.sub_0_r in Hm. cbv [re_participant seqs foldr] in Hm.
  apply matches_seq_inv in Hm as (i0 & s0 & c0 & H0 & Hm).
  apply matches_bol_inv in H0 as (Hb & Hi0 & Hs0 & Hc0). subst b i0 s0 c0.
  rewrite drop_0 in Hm.
  apply matches_seq_inv in Hm as (i1 & s1 & c1 & H1 & Hm).
  apply matches_chars_i_letters in H1 as (kw & Hl & Hkw & _).
  apply matches_seq_inv in Hm as (i2 & s2 & c2 & H2 & _).
  apply matches_plus_chr in H2 as (ws & Hws & Hne & Hsp & _).
  destruct ws as [| sp ws]; [contradiction |].
  inversion Hsp; subst. exists kw, sp, (ws ++ s2). auto.
Qed.

Lemma keyword_then (kw : string) (w : str) :
  same_letters w kw ->
  Forall (fun b => (97 <= b <= 122)%N) (lit kw) ->
  Forall (fun a => is_word a = true) w.
Proof. intros H Hkw. eapply same_letters_word; eassumption. Qed.

(** A line that begins with a word followed by white space or a dash is
    no title line; it is no declaration either, unless the word is the
    keyword and white space follows. *)
Lemma not_title_after_word f c rest :
  Forall (fun a => is_word a = true) f ->
  is_space c = true \/ c = 45%N ->
  exec re_title (f ++ c :: rest) = None.
Proof.
  intros Hf Hc.
  destruct (exec re_title (f ++ c :: rest)) as [[whole tm] |] eqn:He;
    [exfalso | reflexivity].
  apply title_keyword in He as (kw & rest' & Hl & Hkw).
  unfold same_letters in Hkw.
  change (lit "title:") with (lit "title" ++ [58%N]) in Hkw.
  rewrite List.map_app in Hkw.
  apply map_eq_app in Hkw as (w5 & w1 & -> & H5 & H1).
  destruct w1 as [| c6 [| ? ?]]; try discriminate.
  injection H1 as H1.
  change (canonicalize 58) with 58%N in H1.
  apply (canonicalize_other c6 58) in H1; [| left; lia | left; lia]. subst c6.
  assert (Hw5 : Forall (fun a => is_word a = true) w5).
  { eapply same_letters_word; [exact H5 |].
    vm_compute. repeat constructor; discriminate. }
  rewrite <- app_assoc in Hl. simpl in Hl.
  assert (Hcw : is_word c = false).
  { destruct Hc as [Hc | ->]; [apply space_not_word, Hc | reflexivity]. }
  apply word_prefix_unique in Hl as (_ & -> & _);
    [| assumption | assumption | assumption | reflexivity].
  destruct Hc as [Hc | Hc]; discriminate.
Qed.

Lemma not_participant_after_word f c rest :
  Forall (fun a => is_word a = true) f ->
  is_word c = false ->
  is_space c = false \/ List.map canonicalize f <> lit "PARTICIPANT" ->
  exec re_participant (f ++ c :: rest) = None.
Proof.
  intros Hf Hcw Hc.
  destruct (exec re_participant (f ++ c :: rest)) as [[whole pm] |] eqn:He;
    [exfalso | reflexivity].
  apply participant_keyword in He as (kw & sp & rest' & Hl & Hkw & Hsp).
  assert (Hkww : Forall (fun a => is_word a = true) kw).
  { eapply same_letters_word; [exact Hkw |].
    vm_compute. repeat constructor; discriminate. }
  apply word_prefix_unique in Hl as (-> & -> & _);
    [| assumption | assumption | assumption | apply space_not_word, Hsp].
  destruct Hc as [Hc | Hc]; [congruence |].
  apply Hc. exact Hkw.
Qed.

End Shapes.

Section Matching.

Lemma run_seq {R} r1 r2 i s c (k : @cont R) :
  run (Seq r1 r2) i s c k
  = run r1 i s c (fun i' s' c' => run r2 i' s' c' k).
Proof. reflexivity. Qed.

Lemma run_bol {R} s c (k : @cont R) : run Bol 0 s c k = k 0 s c.
Proof. reflexivity. Qed.

Lemma run_end {R} i c (k : @cont R) :
  run (Seq Eol Eps) i [] c k = k i [] c.
Proof. reflexivity. Qed.

Lemma run_opt_take {R} r i s c (k : @cont R) x :
  run r i s c k = Some x -> run (opt r) i s c k = Some x.
Proof. intros H. unfold opt. cbn [run]. rewrite H. reflexivity. Qed.

Lemma run_opt_skip {R} r i s c (k : @cont R) :
  run r i s c k = None -> run (opt r) i s c k = k i s c.
Proof. intros H. unfold opt. cbn [run]. rewrite H. reflexivity. Qed.

Lemma run_grp_arrow {R} n arr rest i c (k : @cont R) x :
  arr ∈ arrow_tokens ->
  match rest with [] => True | a :: _ => a <> 62%N end ->
  k (i + length arr) rest (<[n := arr]> c) = Some x ->
  run (Grp n re_arrow) i (arr ++ rest) c k = Some x.
Proof.
  intros Harr Hrest Hk. cbn [run].
  apply run_arrow; [exact Harr | exact Hrest |].
  replace (i + length arr - i) with (length arr) by lia.
  rewrite take_app_length. exact Hk.
Qed.

Lemma ahead_app (P : N -> Prop) (s r : str) :
  Forall P s -> match r with [] => True | a :: _ => P a end ->
  match s ++ r with [] => True | a :: _ => P a end.
Proof. intros Hs Hr. destruct Hs; [exact Hr | assumption]. Qed.

Lemma ahead_first (P : N -> Prop) (s r : str) :
  s <> [] -> Forall P s -> match s ++ r with [] => True | a :: _ => P a end.
Proof. intros Hne Hs. destruct Hs; [contradiction | assumption]. Qed.

Lemma arrow_dash arr : arr ∈ arrow_tokens -> exists arr', arr = 45%N :: arr'.
Proof.
  unfold arrow_tokens. intros H.
  repeat (apply elem_of_cons in H as [-> | H]); [eexists; reflexivity .. |].
  inversion H.
Qed.

Lemma dots (s : str) :
  Forall (fun a => is_line_terminator a = false) s ->
  Forall (fun a => negb (is_line_terminator a) = true) s.
Proof.
  intros H. eapply Forall_impl; [exact H |]. intros a Ha. rewrite Ha.
  reflexivity.
Qed.

Lemma nonspaces (s : str) :
  Forall (fun a => is_space a = false) s ->
  Forall (fun a => negb (is_space a) = true) s.
Proof.
  intros H. eapply Forall_impl; [exact H |]. intros a Ha. rewrite Ha.
  reflexivity.
Qed.

Lemma message_match f ws1 arr ws2 t ws3 txt :
  f <> [] -> Forall (fun a => is_word a = true) f ->
  Forall (fun a => is_space a = true) ws1 ->
  arr ∈ arrow_tokens ->
  Forall (fun a => is_space a = true) ws2 ->
  t <> [] -> Forall (fun a => is_word a = true) t ->
  Forall (fun a => is_space a = true) ws3 ->
  Forall (fun a => is_line_terminator a = false) txt ->
  no_space_ahead txt ->
  match_at re_message 0
    (f ++ ws1 ++ arr ++ ws2 ++ t ++ lit ":" ++ ws3 ++ txt)
  = Some (length (f ++ ws1 ++ arr ++ ws2 ++ t ++ lit ":" ++ ws3 ++ txt),
          <[4 := txt]> (<[3 := t]> (<[2 := arr]> (<[1 := f]> ∅)))).
Proof.
  intros Hfne Hf Hws1 Harr Hws2 Htne Ht Hws3 Htxt Hahead.
  destruct (arrow_dash arr Harr) as [arr' Earr].
  rewrite <- (app_nil_r txt) at 1.
  unfold match_at, re_message. cbn [seqs foldr].
  rewrite run_seq, run_bol. cbv beta. rewrite run_seq.
  apply run_grp_plus; [exact Hfne | exact Hf | |].
  { apply (ahead_app (fun a => is_word a = false));
      [eapply Forall_impl; [exact Hws1 | apply space_not_word] |].
    rewrite Earr. reflexivity. }
  cbv beta. rewrite run_seq.
  apply run_star_greedy; [exact Hws1 | rewrite Earr; reflexivity |].
  cbv beta. rewrite run_seq.
  apply run_grp_arrow; [exact Harr | |].
  { apply (ahead_app (fun a => a <> 62%N)).
    - eapply Forall_impl; [exact Hws2 |]. intros a Ha ->. discriminate.
    - apply (ahead_first (fun a => a <> 62%N)); [exact Htne |].
      eapply Forall_impl; [exact Ht |]. intros a Ha ->. discriminate. }
  cbv beta. rewrite run_seq.
  apply run_star_greedy; [exact Hws2 | |].
  { apply (ahead_first (fun a => is_space a = false)); [exact Htne |].
    eapply Forall_impl; [exact Ht | apply word_not_space]. }
  cbv beta. rewrite run_seq.
  apply run_grp_plus; [exact Htne | exact Ht | reflexivity |].
  cbv beta. rewrite run_seq. unfold word. rewrite run_chars.
  rewrite run_seq.
  apply run_star_greedy; [exact Hws3 | |].
  { destruct txt as [| a txt']; [exact I |]. apply Hahead. reflexivity. }
  cbv beta. rewrite run_seq.
  apply run_grp_star; [apply dots, Htxt | exact I |].
  cbv beta. rewrite run_end.
  rewrite ?app_nil_r, !length_app. do 2 f_equal. simpl. lia.
Qed.

Lemma title_match kw ws g :
  same_letters kw "title:" ->
  Forall (fun a => is_space a = true) ws ->
  g <> [] -> Forall (fun a => is_line_terminator a = false) g ->
  no_space_ahead g ->
  match_at re_title 0 (kw ++ ws ++ g)
  = Some (length (kw ++ ws ++ g), <[1 := g]> ∅).
Proof.
  intros Hkw Hws Hgne Hg Hahead.
  rewrite <- (app_nil_r g) at 1.
  unfold match_at, re_title. cbn [seqs foldr].
  rewrite run_seq, run_bol. cbv beta. rewrite run_seq.
  unfold word_i. rewrite run_chars_i by exact Hkw.
  rewrite run_seq.
  apply run_star_greedy; [exact Hws | |].
  { destruct g as [| a g']; [exact I |]. apply Hahead. reflexivity. }
  cbv beta. rewrite run_seq.
  apply run_grp_plus; [exact Hgne | apply dots, Hg | exact I |].
  cbv beta. rewrite run_end.
  rewrite ?app_nil_r, !length_app. do 2 f_equal. lia.
Qed.

Lemma participant_match kw ws1 id :
  same_letters kw "participant" ->
  ws1 <> [] -> Forall (fun a => is_space a = true) ws1 ->
  id <> [] -> Forall (fun a => is_space a = false) id ->
  match_at re_participant 0 (kw ++ ws1 ++ id)
  = Some (length (kw ++ ws1 ++ id), <[1 := id]> ∅).
Proof.
  intros Hkw Hwne Hws Hine Hid.
  rewrite <- (app_nil_r id) at 1.
  unfold match_at, re_participant. cbn [seqs foldr].
  rewrite run_seq, run_bol. cbv beta. rewrite run_seq.
  unfold word_i. rewrite run_chars_i by exact Hkw.
  rewrite run_seq.
  apply run_plus_greedy; [exact Hwne | exact Hws | |].
  { apply (ahead_first (fun a => is_space a = false)); assumption. }
  cbv beta. rewrite run_seq.
  apply run_grp_plus; [exact Hine | apply nonspaces, Hid | exact I |].
  cbv beta. rewrite run_seq. rewrite run_opt_skip by reflexivity.
  rewrite run_end.
  rewrite ?app_nil_r, !length_app. do 2 f_equal. lia.
Qed.

Lemma participant_alias_match kw ws1 id ws2 kw2 ws3 alias :
  same_letters kw "participant" ->
  ws1 <> [] -> Forall (fun a => is_space a = true) ws1 ->
  id <> [] -> Forall (fun a => is_space a = false) id ->
  ws2 <> [] -> Forall (fun a => is_space a = true) ws2 ->
  same_letters kw2 "as" ->
  ws3 <> [] -> Forall (fun a => is_space a = true) ws3 ->
  alias <> [] -> Forall (fun a => is_line_terminator a = false) alias ->
  no_space_ahead alias ->
  match_at re_participant 0 (kw ++ ws1 ++ id ++ ws2 ++ kw2 ++ ws3 ++ alias)
  = Some (length (kw ++ ws1 ++ id ++ ws2 ++ kw2 ++ ws3 ++ alias),
          <[2 := alias]> (<[1 := id]> ∅)).
Proof.
  intros Hkw Hw1ne Hws1 Hine Hid Hw2ne Hws2 Hkw2 Hw3ne Hws3 Hane Ha Hahead.
  assert (Hkw2w : Forall (fun a => is_word a = true) kw2).
  { eapply same_letters_word; [exact Hkw2 |].
    vm_compute. repeat constructor; discriminate. }
  assert (Hkw2ne : kw2 <> []) by (intros ->; discriminate Hkw2).
  rewrite <- (app_nil_r alias) at 1.
  unfold match_at, re_participant. cbn [seqs foldr].
  rewrite run_seq, run_bol. cbv beta. rewrite run_seq.
  unfold word_i. rewrite run_chars_i by exact Hkw.
  rewrite run_seq.
  apply run_plus_greedy; [exact Hw1ne | exact Hws1 | |].
  { apply (ahead_first (fun a => is_space a = false)); assumption. }
  cbv beta. rewrite run_seq.
  apply run_grp_plus; [exact Hine | apply nonspaces, Hid | |].
  { apply (ahead_first (fun a => negb (is_space a) = false)); [exact Hw2ne |].
    eapply Forall_impl; [exact Hws2 |]. intros a Ha'. rewrite Ha'. reflexivity. }
  cbv beta. rewrite run_seq. apply run_opt_take.
  rewrite run_seq.
  apply run_plus_greedy; [exact Hw2ne | exact Hws2 | |].
  { apply (ahead_first (fun a => is_space a = false)); [exact Hkw2ne |].
    eapply Forall_impl; [exact Hkw2w | apply word_not_space]. }
  cbv beta. rewrite run_seq. rewrite run_chars_i by exact Hkw2.
  rewrite run_seq.
  apply run_plus_greedy; [exact Hw3ne | exact Hws3 | |].
  { destruct alias as [| a alias']; [exact I |]. apply Hahead. reflexivity. }
  cbv beta. rewrite run_seq.
  apply run_grp_plus; [exact Hane | apply dots, Ha | exact I |].
  cbv beta. cbn [run]. rewrite ?app_nil_r, !length_app. do 2 f_equal. lia.
Qed.

End Matching.

Section Classified.

Lemma startsWith_first_differs p0 p a s :
  a <> p0 -> startsWith (p0 :: p) (a :: s) = false.
Proof.
  intros H. simpl. rewrite (proj2 (N.eqb_neq p0 a)) by congruence. reflexivity.
Qed.

Lemma exec_message l :
  exec re_message l
  = match match_at re_message 0 l with
    | Some (e, c) => Some (take e l, c)
    | None => None
    end.
Proof. exact (exec_anchored _ l). Qed.

Lemma exec_title l :
  exec re_title l
  = match match_at re_title 0 l with
    | Some (e, c) => Some (take e l, c)
    | None => None
    end.
Proof. exact (exec_anchored _ l). Qed.

Lemma exec_participant l :
  exec re_participant l
  = match match_at re_participant 0 l with
    | Some (e, c) => Some (take e l, c)
    | None => None
    end.
Proof. exact (exec_anchored _ l). Qed.

(** What follows the first word of a message line. *)
Lemma after_source ws1 arr rest :
  Forall (fun a => is_space a = true) ws1 -> arr ∈ arrow_tokens ->
  exists c rest',
    ws1 ++ arr ++ rest = c :: rest'
    /\ is_word c = false
    /\ (is_space c = true \/ c = 45%N)
    /\ (ws1 = [] -> is_space c = false).
Proof.
  intros Hws Harr. destruct (arrow_dash arr Harr) as [arr' ->].
  destruct Hws as [| c ws1 Hc Hws].
  - exists 45%N, (arr' ++ rest). repeat split; auto.
  - exists c, (ws1 ++ (45%N :: arr') ++ rest).
    split; [reflexivity |]. split; [apply space_not_word, Hc |].
    split; [left; exact Hc | discriminate].
Qed.

(** A line that begins with a letter other than [t] is no title line. *)
Lemma not_title_other_letter a s :
  canonicalize a <> 84%N -> exec re_title (a :: s) = None.
Proof.
  intros Ha.
  destruct (exec re_title (a :: s)) as [[whole tm] |] eqn:He;
    [exfalso | reflexivity].
  apply title_keyword in He as (kw & rest & Hl & Hkw).
  destruct kw as [| b kw]; [discriminate Hkw |].
  injection Hl as -> _. injection Hkw as Hb _. apply Ha. exact Hb.
Qed.

End Classified.

(** X21. A line that reads: a word, an arrow token, a word, a colon and a
    text, with optional white space around the token and after the colon,
    is taken for a message between the two words with that token and that
    text, provided the line does not begin with one of the two skipped
    directives and the first word is not the declaration keyword followed
    by white space. *)
Theorem message_line_recognized (f ws1 arr ws2 t ws3 txt : str) :
  let l := f ++ ws1 ++ arr ++ ws2 ++ t ++ lit ":" ++ ws3 ++ txt in
  f <> [] -> Forall (fun a => is_word a = true) f ->
  arr ∈ arrow_tokens ->
  t <> [] -> Forall (fun a => is_word a = true) t ->
  Forall (fun a => is_space a = true) (ws1 ++ ws2 ++ ws3) ->
  Forall (fun a => is_line_terminator a = false) txt ->
  no_space_ahead txt ->
  startsWith (lit "sequenceDiagram") l = false ->
  startsWith (lit "autonumber") l = false ->
  ws1 = [] \/ List.map canonicalize f <> lit "PARTICIPANT" ->
  classify l = Message f arr t txt.
Proof.
  cbv zeta. intros Hfne Hf Harr Htne Ht Hws Htxt Hahead Hsd Han Hkw.
  apply Forall_app in Hws as [Hws1 Hws]. apply Forall_app in Hws as [Hws2 Hws3].
  destruct (after_source ws1 arr (ws2 ++ t ++ lit ":" ++ ws3 ++ txt) Hws1 Harr)
    as (c & rest' & Hrest & Hcw & Hc & Hc0).
  pose proof (message_match f ws1 arr ws2 t ws3 txt Hfne Hf Hws1 Harr Hws2
                Htne Ht Hws3 Htxt Hahead) as Hm.
  rewrite <- ?app_assoc in Hrest.
  set (l := f ++ ws1 ++ arr ++ ws2 ++ t ++ lit ":" ++ ws3 ++ txt) in *.
  assert (Hl : l = f ++ c :: rest') by (unfold l; rewrite Hrest; reflexivity).
  unfold classify.
  rewrite not_skipped.
  - rewrite Hl at 1. rewrite not_title_after_word by assumption.
    rewrite Hl at 1. rewrite not_participant_after_word.
    + rewrite exec_message, Hm. unfold group.
      rewrite !lookup_insert_ne by discriminate.
      rewrite (lookup_insert_ne _ 4 3), (lookup_insert_ne _ 4 2) by discriminate.
      rewrite (lookup_insert_ne _ 3 2) by discriminate.
      rewrite !lookup_insert_eq. reflexivity.
    + exact Hf.
    + exact Hcw.
    + destruct Hkw as [-> | Hkw]; [left; apply Hc0; reflexivity | right; exact Hkw].
  - unfold l. destruct f; [contradiction | discriminate].
  - destruct f as [| a f']; [contradiction |].
    inversion Hf as [| ? ? Ha _]; subst.
    unfold is_word, is_digit in Ha. class_props Ha.
    unfold skip_markers. repeat constructor;
      try exact Hsd; try exact Han;
      unfold l; eval_lit; cbn [app]; apply startsWith_first_differs; lia.
Qed.

Lemma message_line_recognized_witness :
  let f := lit "A" in
  let t := lit "B" in
  let txt := lit "3. Done" in
  classify (f ++ lit " " ++ lit "-->>" ++ [] ++ t ++ lit ":" ++ lit " " ++ txt)
  = Message f (lit "-->>") t txt
  /\ lit "A -->>B: 3. Done"
     = f ++ lit " " ++ lit "-->>" ++ [] ++ t ++ lit ":" ++ lit " " ++ txt.
Proof.
  cbv zeta. split; [| vm_compute; reflexivity].
  apply (message_line_recognized (lit "A") (lit " ") (lit "-->>") []
           (lit "B") (lit " ") (lit "3. Done")).
  - discriminate.
  - repeat constructor.
  - unfold arrow_tokens. apply list_elem_of_here.
  - discriminate.
  - repeat constructor.
  - repeat constructor.
  - vm_compute. repeat constructor.
  - intros a Ha. vm_compute in Ha. injection Ha as <-. reflexivity.
  - vm_compute. reflexivity.
  - vm_compute. reflexivity.
  - right. vm_compute. discriminate.
Defined.

(** X22. A line that reads: the keyword [title:] in any letter case,
    optional white space and a non-empty text on one line, is taken for a
    title line, and the title is the trimmed text. *)
Theorem title_line_recognized (kw ws g : str) :
  same_letters kw "title:" ->
  Forall (fun a => is_space a = true) ws ->
  g <> [] -> Forall (fun a => is_line_terminator a = false) g ->
  no_space_ahead g ->
  classify (kw ++ ws ++ g) = Title (trim g).
Proof.
  intros Hkw Hws Hgne Hg Hahead.
  pose proof (title_match kw ws g Hkw Hws Hgne Hg Hahead) as Hm.
  destruct kw as [| a kw']; [discriminate Hkw |].
  assert (Ha : a = 84%N \/ a = 116%N).
  { injection Hkw as Ha _. change (canonicalize 116) with 84%N in Ha.
    apply (canonicalize_upper a 84) in Ha as [_ Ha]; [exact Ha | lia]. }
  unfold classify. rewrite not_skipped.
  - rewrite exec_title, Hm. unfold group. rewrite lookup_insert_eq. reflexivity.
  - discriminate.
  - unfold skip_markers. repeat constructor; eval_lit; cbn [app];
      apply startsWith_first_differs; lia.
Qed.

Lemma title_line_recognized_witness :
  classify (lit "Title:" ++ lit "  " ++ lit "Checkout flow")
  = Title (lit "Checkout flow")
  /\ lit "Title:  Checkout flow"
     = lit "Title:" ++ lit "  " ++ lit "Checkout flow".
Proof.
  split; [| vm_compute; reflexivity].
  change (lit "Checkout flow") with (trim (lit "Checkout flow")) at 2.
  apply (title_line_recognized (lit "Title:") (lit "  ") (lit "Checkout flow")).
  - vm_compute. reflexivity.
  - repeat constructor.
  - discriminate.
  - vm_compute. repeat constructor.
  - intros a Ha. vm_compute in Ha. injection Ha as <-. reflexivity.
Defined.

(** X23. A line that reads: the keyword [participant] in any letter case,
    white space and an id without white space, is taken for a declaration
    of that id without alias; followed by white space, the word [as] in any
    letter case, white space and a non-empty text on one line, it is taken
    for a declaration of the id with that text for alias. *)
Theorem declaration_recognized (kw ws1 id : str) :
  same_letters kw "participant" ->
  ws1 <> [] -> Forall (fun a => is_space a = true) ws1 ->
  id <> [] -> Forall (fun a => is_space a = false) id ->
  classify (kw ++ ws1 ++ id) = ParticipantDecl id None
  /\ forall ws2 kw2 ws3 alias,
       ws2 <> [] -> Forall (fun a => is_space a = true) ws2 ->
       same_letters kw2 "as" ->
       ws3 <> [] -> Forall (fun a => is_space a = true) ws3 ->
       alias <> [] -> Forall (fun a => is_line_terminator a = false) alias ->
       no_space_ahead alias ->
       classify (kw ++ ws1 ++ id ++ ws2 ++ kw2 ++ ws3 ++ alias)
       = ParticipantDecl id (Some alias).
Proof.
  intros Hkw Hw1ne Hws1 Hine Hid.
  assert (Hfirst : exists a kw', kw = a :: kw' /\ (a = 80%N \/ a = 112%N)).
  { destruct kw as [| a kw']; [discriminate Hkw |]. exists a, kw'.
    split; [reflexivity |]. injection Hkw as Ha _.
    change (canonicalize 112) with 80%N in Ha.
    apply (canonicalize_upper a 80) in Ha as [_ Ha]; [exact Ha | lia]. }
  destruct Hfirst as (a & kw' & Ekw & Ha).
  assert (Hcommon : forall rest,
    (bool_decide (kw ++ rest = []) || test re_skip (kw ++ rest))%bool = false
    /\ exec re_title (kw ++ rest) = None).
  { intros rest. rewrite Ekw. cbn [app]. split.
    - apply not_skipped; [discriminate |].
      unfold skip_markers. repeat constructor; eval_lit;
        apply startsWith_first_differs; lia.
    - apply not_title_other_letter. unfold canonicalize.
      destruct Ha as [-> | ->]; discriminate. }
  split.
  - destruct (Hcommon (ws1 ++ id)) as [Hs Ht].
    unfold classify. rewrite Hs, Ht.
    rewrite exec_participant, (participant_match kw ws1 id) by assumption.
    unfold group. rewrite lookup_insert_eq.
    rewrite lookup_insert_ne, lookup_empty by discriminate. reflexivity.
  - intros ws2 kw2 ws3 alias Hw2ne Hws2 Hkw2 Hw3ne Hws3 Hane Halias Hahead.
    destruct (Hcommon (ws1 ++ id ++ ws2 ++ kw2 ++ ws3 ++ alias)) as [Hs Ht].
    unfold classify. rewrite Hs, Ht.
    rewrite exec_participant,
      (participant_alias_match kw ws1 id ws2 kw2 ws3 alias) by assumption.
    unfold group.
    rewrite (lookup_insert_ne _ 2 1), !lookup_insert_eq by discriminate.
    reflexivity.
Qed.

Lemma declaration_recognized_witness :
  classify (lit "participant" ++ lit " " ++ lit "DB")
  = ParticipantDecl (lit "DB") None
  /\ classify (lit "Participant" ++ lit " " ++ lit "DB" ++ lit " " ++ lit "AS"
               ++ lit " " ++ lit "Data [store]")
     = ParticipantDecl (lit "DB") (Some (lit "Data [store]")).
Proof.
  split.
  - apply (declaration_recognized (lit "participant") (lit " ") (lit "DB")).
    + vm_compute. reflexivity.
    + discriminate.
    + repeat constructor.
    + discriminate.
    + repeat constructor.
  - refine (proj2 (declaration_recognized (lit "Participant") (lit " ")
                     (lit "DB") _ _ _ _ _) (lit " ") (lit "AS") (lit " ")
                  (lit "Data [store]") _ _ _ _ _ _ _ _).
    + vm_compute. reflexivity.
    + discriminate.
    + repeat constructor.
    + discriminate.
    + repeat constructor.
    + discriminate.
    + repeat constructor.
    + vm_compute. reflexivity.
    + discriminate.
    + repeat constructor.
    + discriminate.
    + vm_compute. repeat constructor.
    + intros a Ha. vm_compute in Ha. injection Ha as <-. reflexivity.
Defined.

(** ** The ids of the registry *)

Section Ids.

Lemma participant_shape l whole pm :
  exec re_participant l = Some (whole, pm) ->
  exists id, pm !! 1 = Some id /\ id <> []
             /\ Forall (fun a => is_space a = false) id.
Proof.
  unfold exec. intros H.
  destruct (search re_participant 0 l) as [[[[b e] w] c] |] eqn:Hs;
    [| discriminate].
  inversion H; subst w c. clear H.
  apply search_sound in Hs as (_ & _ & s' & Hm).
  rewrite Nat.sub_0_r in Hm. cbv [re_participant seqs foldr] in Hm.
  apply matches_seq_inv in Hm as (i0 & s0 & c0 & H0 & Hm).
  apply matches_bol_inv in H0 as (Hb & Hi0 & Hs0 & Hc0). subst b i0 s0 c0.
  rewrite drop_0 in Hm.
  apply matches_seq_inv in Hm as (i1 & s1 & c1 & H1 & Hm).
  apply matches_chars_i_letters in H1 as (kw & Hl & Hkw & ->).
  apply matches_seq_inv in Hm as (i2 & s2 & c2 & H2 & Hm).
  apply matches_plus_chr in H2 as (ws & Hws & Hne & Hsp & ->).
  apply matches_seq_inv in Hm as (i3 & s3 & c3 & H3 & Hm).
  apply matches_grp_inv in H3 as (id & c3' & H3 & Hid & Hi3 & Hc3).
  apply matches_plus_chr in H3 as (id' & Hid' & Hine & Hns & ->).
  rewrite Hid in Hid'. apply app_inv_tail in Hid'. subst id'.
  exists id.
  assert (Hns' : Forall (fun a => is_space a = false) id).
  { eapply Forall_impl; [exact Hns |]. intros a Ha.
    apply negb_true_iff in Ha. exact Ha. }
  split; [| split; assumption].
  apply matches_seq_inv in Hm as (i4 & s4 & c4 & H4 & Hm).
  apply matches_seq_inv in Hm as (i5 & s5 & c5 & H5 & Hm).
  apply matches_eol_inv in H5 as (_ & _ & _ & ->).
  apply matches_eps_inv in Hm as (_ & _ & ->).
  unfold opt in H4. apply matches_alt_inv in H4 as [H4 | H4].
  - cbn [foldr] in H4.
    apply matches_seq_inv in H4 as (j1 & t1 & d1 & G1 & H4).
    apply matches_plus_chr in G1 as (? & _ & _ & _ & ->).
    apply matches_seq_inv in H4 as (j2 & t2 & d2 & G2 & H4).
    apply matches_chars_i_letters in G2 as (? & _ & _ & ->).
    apply matches_seq_inv in H4 as (j3 & t3 & d3 & G3 & H4).
    apply matches_plus_chr in G3 as (? & _ & _ & _ & ->).
    apply matches_seq_inv in H4 as (j4 & t4 & d4 & G4 & H4).
    apply matches_grp_inv in G4 as (al & d4' & G4 & _ & _ & ->).
    apply matches_plus_chr in G4 as (? & _ & _ & _ & ->).
    apply matches_eps_inv in H4 as (_ & _ & ->).
    subst c3. by simplify_map_eq.
  - apply matches_eps_inv in H4 as (_ & _ & ->). subst c3. by simplify_map_eq.
Qed.

Lemma classify_participant l id lbl :
  classify l = ParticipantDecl id lbl ->
  exists whole pm, exec re_participant l = Some (whole, pm) /\ id = group pm 1.
Proof.
  unfold classify. intros H.
  destruct (bool_decide (l = []) || test re_skip l)%bool; [discriminate |].
  destruct (exec re_title l) as [[? ?] |]; [discriminate |].
  destruct (exec re_participant l) as [[whole pm] |].
  - inversion H; subst. eauto.
  - destruct (exec re_message l) as [[? ?] |]; discriminate.
Qed.

End Ids.

(** X24. The id of every participant of [parse] is a non-empty text
    without white space. *)
Theorem participant_ids_have_no_space (code : str) :
  Forall (fun p => id_ p <> []
                   /\ Forall (fun c => is_space c = false) (id_ p))
    (participants (parse code)).
Proof.
  apply Forall_forall. intros p Hp.
  assert (Hid : id_ p ∈ mentioned code).
  { apply parse_ids_elem. apply list_elem_of_In, in_map, list_elem_of_In, Hp. }
  unfold mentioned in Hid. apply list_elem_of_In, in_flat_map in Hid
    as (ln & Hln & Href).
  apply list_elem_of_In, lines_of_elem in Hln as (raw & _ & Hc).
  destruct ln as [| | id lbl | f a t r |]; simpl in Href; try contradiction.
  - destruct Href as [<- | []].
    apply classify_participant in Hc as (whole & pm & He & ->).
    apply participant_shape in He as (id' & E1 & Hne & Hns).
    unfold group. rewrite E1. simpl. auto.
  - apply classify_message in Hc as (whole & mm & He & -> & _ & -> & _).
    apply message_shape in He
      as (f & ws1 & a' & ws2 & t & ws3 & txt & _ & Hfne & Hf & _ & _ & _ & Htne
          & Ht & _ & _ & E1 & _ & E3 & _).
    unfold group in Href. rewrite E1, E3 in Href. simpl in Href.
    destruct Href as [<- | [<- | []]]; (split; [assumption |]);
      (eapply Forall_impl; [eassumption | apply word_not_space]).
Qed.

(** ** Indentation *)

Section Padding.

Lemma trimStart_spaces ws s :
  Forall (fun c => is_space c = true) ws -> trimStart (ws ++ s) = trimStart s.
Proof.
  induction 1 as [| c ws Hc _ IH]; [reflexivity |].
  simpl. rewrite Hc. exact IH.
Qed.

Lemma trimStart_app s r :
  trimStart s <> [] -> trimStart (s ++ r) = trimStart s ++ r.
Proof.
  induction s as [| c s IH]; simpl; [contradiction |].
  destruct (is_space c); [exact IH | reflexivity].
Qed.

Lemma trimStart_all_spaces s :
  trimStart s = [] -> Forall (fun c => is_space c = true) s.
Proof.
  induction s as [| c s IH]; simpl; [constructor |].
  destruct (is_space c) eqn:E; [| discriminate].
  intros H. constructor; [exact E | apply IH, H].
Qed.

Lemma trimEnd_spaces s ws :
  Forall (fun c => is_space c = true) ws -> trimEnd (s ++ ws) = trimEnd s.
Proof.
  intros H. unfold trimEnd. rewrite rev_app_distr, trimStart_spaces;
    [reflexivity |].
  apply Forall_forall. intros c Hc. rewrite Forall_forall in H. apply H.
  apply list_elem_of_In. apply list_elem_of_In, in_rev in Hc. exact Hc.
Qed.

(** White space around a text is lost in trimming. *)
Lemma trim_pad ws s ws' :
  Forall (fun c => is_space c = true) ws ->
  Forall (fun c => is_space c = true) ws' ->
  trim (ws ++ s ++ ws') = trim s.
Proof.
  intros Hws Hws'. unfold trim. rewrite trimStart_spaces by exact Hws.
  destruct (trimStart s) as [| c s'] eqn:E.
  - rewrite trimStart_spaces by (apply trimStart_all_spaces, E).
    assert (Hall : trimStart ws' = []).
    { clear -Hws'. induction Hws' as [| c ws' Hc _ IH]; [reflexivity |].
      simpl. rewrite Hc. exact IH. }
    rewrite Hall. reflexivity.
  - rewrite trimStart_app by (rewrite E; discriminate).
    rewrite E. apply trimEnd_spaces, Hws'.
Qed.

Lemma split_lines_one s :
  Forall (fun c => c <> 10%N) s -> split_lines s = [s].
Proof.
  induction 1 as [| c s Hc _ IH]; [reflexivity |].
  simpl. rewrite (proj2 (N.eqb_neq c 10)) by exact Hc. rewrite IH. reflexivity.
Qed.

Lemma step_line_trim st raw raw' :
  trim raw = trim raw' -> step_line st raw = step_line st raw'.
Proof. intros H. unfold step_line. rewrite H. reflexivity. Qed.

End Padding.

(** X25. Indentation and trailing white space do not matter: a line of a
    text can be padded on either side with white space (other than line
    feeds), a carriage return before the line feed included, and [parse]
    returns the same diagram. *)
Theorem padding_is_ignored (a b ln ws ws' : str) :
  Forall (fun c => c <> 10%N) ln ->
  Forall is_padding ws -> Forall is_padding ws' ->
  parse (a ++ [10%N] ++ (ws ++ ln ++ ws') ++ [10%N] ++ b)
  = parse (a ++ [10%N] ++ ln ++ [10%N] ++ b)
  /\ parse (ws ++ ln ++ ws') = parse ln.
Proof.
  intros Hln Hws Hws'.
  assert (Hs : Forall (fun c => is_space c = true) ws)
    by (eapply Forall_impl; [exact Hws | intros c [H _]; exact H]).
  assert (Hs' : Forall (fun c => is_space c = true) ws')
    by (eapply Forall_impl; [exact Hws' | intros c [H _]; exact H]).
  assert (Hn : Forall (fun c => c <> 10%N) (ws ++ ln ++ ws')).
  { rewrite !Forall_app. split; [| split; [exact Hln |]].
    - eapply Forall_impl; [exact Hws | intros c [_ H]; exact H].
    - eapply Forall_impl; [exact Hws' | intros c [_ H]; exact H]. }
  assert (Hstep : forall st, step_line st (ws ++ ln ++ ws') = step_line st ln)
    by (intros st; apply step_line_trim, trim_pad; assumption).
  unfold parse. split; f_equal.
  - cbn [app]. rewrite !split_lines_app.
    rewrite (split_lines_one _ Hn), (split_lines_one _ Hln).
    rewrite !run_lines_app. cbn [run_lines fold_left]. rewrite Hstep.
    reflexivity.
  - rewrite (split_lines_one _ Hn), (split_lines_one _ Hln).
    cbn [run_lines fold_left]. apply Hstep.
Qed.

Lemma padding_is_ignored_witness :
  let ln := lit "A->>B: hi" in
  let indent := lit "    " in
  let cr := [13%N] in
  Forall (fun c => c <> 10%N) ln
  /\ Forall is_padding indent /\ Forall is_padding cr
  /\ parse (indent ++ ln ++ cr) = parse ln.
Proof.
  cbv zeta.
  assert (H1 : Forall (fun c => c <> 10%N) (lit "A->>B: hi"))
    by (vm_compute; repeat constructor; discriminate).
  assert (H2 : Forall is_padding (lit "    "))
    by (repeat constructor; discriminate).
  assert (H3 : Forall is_padding [13%N])
    by (repeat constructor; discriminate).
  split; [exact H1 |]. split; [exact H2 |]. split; [exact H3 |].
  exact (proj2 (padding_is_ignored [] [] _ _ _ H1 H2 H3)).
Defined.

(** ** Plain message texts *)

Section PlainText.

Lemma search_br_none s : forall i,
  Forall (fun c => c <> 60%N) s -> search re_br i s = None.
Proof.
  induction s as [| a s IH]; intros i H; [reflexivity |].
  inversion H as [| ? ? Ha Hs]; subst. cbn [search].
  replace (match_at re_br i (a :: s)) with (@None (nat * caps)).
  - apply IH, Hs.
  - symmetry. unfold match_at, re_br. cbn [seqs foldr]. rewrite run_seq.
    unfold word_i. change (lit "<br") with (60%N :: lit "br").
    cbn [List.map seqs foldr run chr_i].
    replace (N.eqb (canonicalize a) (canonicalize 60)) with false;
      [reflexivity |].
    symmetry. apply N.eqb_neq. change (canonicalize 60) with 60%N.
    intros E. apply Ha. apply (canonicalize_other a 60); [lia | lia | exact E].
Qed.

Lemma replace_br_plain r :
  Forall (fun c => c <> 60%N) r ->
  replace_all re_br (fun _ _ => lit " ") r = r.
Proof.
  intros H. unfold replace_all. cbn [replace_from].
  rewrite search_br_none by exact H. reflexivity.
Qed.

End PlainText.

(** X26. A message text without [<] is shown as typed, trimmed: with no
    numeric prefix, the message has no display step and its text is the
    trimmed text of the line; with one, the display step is its number and
    the text is what follows, trimmed. *)
Theorem plain_text_is_kept (f a t r : str) (k : Z) :
  Forall (fun c => c <> 60%N) r ->
  let m := make_message f a t r k in
  ((forall ds g, ~ numeric_prefix (trim r) ds g) ->
   displayStep m = None /\ text m = trim r)
  /\ (forall ds g, numeric_prefix (trim r) ds g ->
      displayStep m = Some (JsNumber.parseInt ds) /\ text m = trim g).
Proof.
  intros Hr. cbv zeta. unfold make_message. cbn [displayStep text].
  rewrite (replace_br_plain r Hr). split.
  - intros Hno.
    destruct (exec re_numPfx (trim r)) as [[whole c] |] eqn:He; [| auto].
    exfalso. apply numPfx_shape in He as (ds & g & Hp & _).
    exact (Hno ds g Hp).
  - intros ds g (ws & Hc & Hd & Hwne & Hw).
    destruct (trimStart_split g) as (ws' & Hg & Hws').
    assert (Hc' : trim r = ds ++ lit "." ++ (ws ++ ws') ++ trimStart g)
      by (rewrite Hc, Hg at 1; rewrite <- !app_assoc; reflexivity).
    destruct (numPfx_match ds (ws ++ ws') (trimStart g) Hd) as [whole He].
    + destruct ws; [contradiction | discriminate].
    + apply Forall_app. auto.
    + apply trimStart_head.
    + rewrite Hc', He. unfold group.
      rewrite lookup_insert_ne, lookup_insert_eq, lookup_insert_eq by discriminate.
      split; [reflexivity | apply trim_trimStart].
Qed.

Lemma plain_text_is_kept_witness :
  let m := make_message (lit "A") (lit "->>") (lit "B") (lit "  12.  Pay now ") 1 in
  Forall (fun c => c <> 60%N) (lit "  12.  Pay now ")
  /\ numeric_prefix (trim (lit "  12.  Pay now ")) (lit "12") (lit "Pay now")
  /\ displayStep m = Some 12%float /\ text m = lit "Pay now".
Proof.
  cbv zeta.
  assert (H1 : Forall (fun c => c <> 60%N) (lit "  12.  Pay now "))
    by (vm_compute; repeat constructor; discriminate).
  assert (H2 : numeric_prefix (trim (lit "  12.  Pay now ")) (lit "12")
                 (lit "Pay now")).
  { exists (lit "  "). split; [vm_compute; reflexivity |].
    split; [split; [discriminate | repeat constructor] |].
    split; [discriminate | repeat constructor]. }
  split; [exact H1 |]. split; [exact H2 |].
  exact (proj2 (plain_text_is_kept (lit "A") (lit "->>") (lit "B") _ 1 H1)
           _ _ H2).
Defined.

(** ** The examples of the specification *)

(** A message alone registers its two endpoints, in that order. *)
Example parse_hello :
  parse (lit "A->>B: Hello")
  = {| participants :=
         [ {| id_ := lit "A"; label := lit "A"; color := lit "#ef4444" |};
           {| id_ := lit "B"; label := lit "B"; color := lit "#f97316" |} ];
       messages :=
         [ {| from := lit "A"; to := lit "B"; text := lit "Hello";
              arrow := solid; step := 1; displayStep := None |} ];
       title := None |}.
Proof. vm_compute. reflexivity. Qed.

(** An alias is the label, a bracketed part of it shown in parentheses, and
    a message of a participant to itself is drawn as a loop. *)
Example parse_alias_and_self_message :
  let d := parse (lit "participant U as User [x]" ++ [10%N] ++ lit "U->>U: loop") in
  List.map label (participants d) = [lit "User (x)"]
  /\ List.map (fun m => (from m, to m, text m)) (messages d)
     = [(lit "U", lit "U", lit "loop")]
  /\ includes (lit "<path d=") (buildSvg d DEFAULT_OPTS DEFAULT_LAYOUT) = true
  /\ includes (lit "<line x1=" ++ [dq] ++ lit "120.5" ++ [dq] ++ lit " y1="
                ++ [dq] ++ lit "192")
       (buildSvg d DEFAULT_OPTS DEFAULT_LAYOUT) = false.
Proof. vm_compute. repeat split; reflexivity. Qed.

(** Two messages in opposite directions lie on two rows, and the head of the
    second points left. *)
Example opposite_directions :
  let d := parse (lit "A->>B: ping" ++ [10%N] ++ lit "B->>A: pong") in
  let markup := buildSvg d DEFAULT_OPTS DEFAULT_LAYOUT in
  includes (tpl "<polygon points='370.5,192 362.5,187 362.5,197'" []) markup
  = true
  /\ includes (tpl "<polygon points='120.5,234 128.5,229 128.5,239'" []) markup
     = true.
Proof. vm_compute. split; reflexivity. Qed.
